(** * pi-subagents: the execution engine, embedded and verified

    A shallow embedding of the parts of the repository that drive chains of
    subagent tasks:

    - [Settings]       : settings.ts  (templates, behaviour resolution,
                         aggregation)
    - [ParallelUtils]  : parallel-utils.ts (aggregateParallelOutputs)
    - [JsonlWriter]    : jsonl-writer.ts (backpressure-aware event log writer)
    - [Execution]      : execution.ts (runSync: one worker process per task)
    - [Utils]          : utils.ts (mapConcurrent)
    - [ChainExecution] : chain-execution.ts (executeChain)
    - [Agents]         : agent-scope.ts and the merge of the agent lists
    - [PiArgs]         : the reserved arguments of the worker process
    - [Skills]         : skills.ts (skill names, the skill cache)

    Strings are sequences of code units below 256 ([string] of the Standard
    Library).  An integer-valued number is the integer it denotes: exit
    codes read from a text are rounded as [parseInt] rounds them and
    printed as a template literal prints them.  Token counts are integers;
    costs are kept as exact rationals, where the source adds floating-point
    numbers, and nothing below is about a cost.  Left out of the embedding:
    wall-clock time (Date.now, durationMs, the 50ms progress throttle and
    its callbacks), abort signals, artifact and session files, the
    injection of skills into a task, and the truncation of the final
    output. *)

From Stdlib Require Import Strings.String Strings.Ascii.
From Stdlib Require Import Numbers.DecimalString Numbers.DecimalNat.
From Stdlib Require Import ZArith QArith Bool Lia.
From stdpp Require Import list.

Local Open Scope list_scope.
Local Open Scope string_scope.

(* ===================================================================== *)
(** ** JavaScript string primitives used by the sources                  *)
(* ===================================================================== *)

Module JS.

(** White space as [String.prototype.trim] and the regex class [\s] see
    it, restricted to code units below 256. *)
Definition isWhiteSpace (c : ascii) : bool :=
  let n := nat_of_ascii c in
  (Nat.eqb n 9 || Nat.eqb n 10 || Nat.eqb n 11 || Nat.eqb n 12
   || Nat.eqb n 13 || Nat.eqb n 32 || Nat.eqb n 160)%bool.

Definition isDigit (c : ascii) : bool :=
  let n := nat_of_ascii c in (Nat.leb 48 n && Nat.leb n 57)%bool.

Fixpoint trimStart (s : string) : string :=
  match s with
  | String c rest => if isWhiteSpace c then trimStart rest else s
  | EmptyString => EmptyString
  end.

Fixpoint rev (s : string) : string :=
  match s with
  | EmptyString => EmptyString
  | String c rest => rev rest ++ String c EmptyString
  end.

Definition trimEnd (s : string) : string := rev (trimStart (rev s)).

Definition trim (s : string) : string := trimEnd (trimStart s).

(** Truthiness of a string value: the empty string is falsy. *)
Definition truthy (s : string) : bool :=
  match s with EmptyString => false | _ => true end.

(** Truthiness of [string | undefined]. *)
Definition truthyOpt (o : option string) : bool :=
  match o with Some s => truthy s | None => false end.

Fixpoint startsWith (p s : string) : bool :=
  match p, s with
  | EmptyString, _ => true
  | String a p', String b s' => (Ascii.eqb a b && startsWith p' s')%bool
  | String _ _, EmptyString => false
  end.

(** [s.includes(needle)] *)
Fixpoint includes (needle s : string) : bool :=
  (startsWith needle s
   || match s with
      | EmptyString => false
      | String _ rest => includes needle rest
      end)%bool.

(** [parts.join(sep)] *)
Fixpoint join (sep : string) (parts : list string) : string :=
  match parts with
  | [] => ""
  | [p] => p
  | p :: rest => p ++ sep ++ join sep rest
  end.

(** [`${n}`] for a non-negative integer. *)
Definition numToString (n : nat) : string :=
  NilEmpty.string_of_uint (Nat.to_uint n).

(** [s.slice(0, n)] *)
Definition sliceTo (n : nat) (s : string) : string := substring 0 n s.

(** [s.slice(-n)] for [n > 0] *)
Definition sliceLast (n : nat) (s : string) : string :=
  substring (String.length s - n) n s.

(** [path.isAbsolute] of node:path on POSIX. *)
Definition isAbsolute (p : string) : bool := startsWith "/" p.

(** [a ?? b] *)
Definition nullish {A} (a : option A) (b : A) : A :=
  match a with Some x => x | None => b end.

(** *** node:path on POSIX *)

(** [normalizeString] of node:path: the segments of a path without the
    empty ones and the [.] ones, a [..] taking back the segment before it;
    above the start of a relative path ([allowAboveRoot]) the [..] is
    kept.  [kept] holds the segments kept so far, the last one first. *)
Fixpoint normalizeSegments (allowAboveRoot : bool) (segments kept : list string)
  : list string :=
  match segments with
  | [] => List.rev kept
  | seg :: rest =>
      if (String.eqb seg "" || String.eqb seg ".")%bool
      then normalizeSegments allowAboveRoot rest kept
      else if String.eqb seg ".." then
        match kept with
        | top :: below =>
            if String.eqb top ".."
            then normalizeSegments allowAboveRoot rest (seg :: kept)
            else normalizeSegments allowAboveRoot rest below
        | [] =>
            normalizeSegments allowAboveRoot rest
              (if allowAboveRoot then [seg] else [])
        end
      else normalizeSegments allowAboveRoot rest (seg :: kept)
  end.

(** [s.split(sep)] for a separator of one character: the pieces between
    the separators, at least one. *)
Fixpoint split (sep : ascii) (s : string) : list string :=
  match s with
  | EmptyString => [EmptyString]
  | String c rest =>
      if Ascii.eqb c sep then EmptyString :: split sep rest
      else match split sep rest with
           | piece :: pieces => String c piece :: pieces
           | [] => [String c EmptyString]
           end
  end.

(** [path.normalize] *)
Definition pathNormalize (p : string) : string :=
  if negb (truthy p) then "."
  else
    let absolute := isAbsolute p in
    let trailingSeparator := startsWith "/" (rev p) in
    let body :=
      join "/" (normalizeSegments (negb absolute) (split "/" p) []) in
    if negb (truthy body) then
      if absolute then "/" else if trailingSeparator then "./" else "."
    else (if absolute then "/" else "") ++ body
         ++ (if trailingSeparator then "/" else "").

(** [path.join(...parts)]: the non-empty parts joined by a slash, then
    normalized. *)
Definition pathJoin (parts : list string) : string :=
  match List.filter truthy parts with
  | [] => "."
  | present => pathNormalize (join "/" present)
  end.

(** *** Numbers

    An integer-valued number is the integer it denotes.  Up to [2 ^ 53]
    every integer is a number; beyond, the numbers are the multiples of a
    power of two with 53 significant bits. *)

(** The number nearest to a non-negative integer, ties going to the even
    significand; [2 ^ 1024] stands for [Infinity]. *)
Definition roundDouble (z : Z) : Z :=
  if Z.ltb z (2 ^ 53) then z
  else
    let e := (Z.log2 z - 52)%Z in
    let q := Z.shiftr z e in
    let r := (z - Z.shiftl q e)%Z in
    let half := Z.shiftl 1 (e - 1) in
    let up := (Z.ltb half r || (Z.eqb r half && Z.odd q))%bool in
    Z.shiftl (if up then q + 1 else q)%Z e.

(** The integer a string of decimal digits denotes. *)
Fixpoint decimalValue (acc : Z) (digits : string) : Z :=
  match digits with
  | EmptyString => acc
  | String c rest =>
      decimalValue (10 * acc + Z.of_nat (nat_of_ascii c - 48)) rest
  end.

(** [parseInt(digits, 10)] on a non-empty string of decimal digits: the
    number nearest to the value written; [None] is [Infinity]. *)
Definition parseInt10 (digits : string) : option Z :=
  let v := roundDouble (decimalValue 0 digits) in
  if Z.ltb v (2 ^ 1024) then Some v else None.

(** The decimal digits of a non-negative integer. *)
Definition decimal (z : Z) : string :=
  NilEmpty.string_of_uint (N.to_uint (Z.to_N z)).

(** The multiple of [10 ^ (n - k)] next to [z] that reads back as [z],
    where [n] is the number of digits of [z]: a decimal with [k]
    significant digits that denotes the number [z].  Of two, the nearer
    one, then the even one. *)
Definition shortestWith (z : Z) (k : nat) : option Z :=
  let unit := (10 ^ Z.of_nat (String.length (decimal z) - k))%Z in
  let lo := (z / unit * unit)%Z in
  let hi := (lo + unit)%Z in
  match Z.eqb (roundDouble lo) z, Z.eqb (roundDouble hi) z with
  | true, true =>
      if Z.ltb (z - lo) (hi - z) then Some lo
      else if Z.ltb (hi - z) (z - lo) then Some hi
      else if Z.even (z / unit) then Some lo else Some hi
  | true, false => Some lo
  | false, true => Some hi
  | false, false => None
  end.

(** The decimal with the fewest significant digits that denotes the
    number [z]; seventeen digits always do. *)
Fixpoint shortestFrom (z : Z) (k fuel : nat) : Z :=
  match fuel with
  | 0 => z
  | S fuel' =>
      match shortestWith z k with
      | Some v => v
      | None => shortestFrom z (S k) fuel'
      end
  end.

Fixpoint dropZeros (s : string) : string :=
  match s with
  | String c rest => if Ascii.eqb c "0" then dropZeros rest else s
  | EmptyString => EmptyString
  end.

(** [`${x}`] for a non-negative integer-valued number [x]: its digits
    below [2 ^ 53]; beyond, the shortest digits that denote it, filled up
    with zeros below [10 ^ 21] and in exponent notation from there on. *)
Definition unsignedToString (z : Z) : string :=
  if Z.ltb z (2 ^ 53) then decimal z
  else
    let v := shortestFrom z 1 17 in
    if Z.ltb v (10 ^ 21) then decimal v
    else
      let digits := decimal v in
      let exponent := decimal (Z.of_nat (String.length digits - 1)) in
      match rev (dropZeros (rev digits)) with
      | String c EmptyString => String c "e+" ++ exponent
      | String c more => String c ("." ++ more) ++ "e+" ++ exponent
      | EmptyString => digits
      end.

(** [`${x}`] for an integer-valued number. *)
Definition numberToString (z : Z) : string :=
  if Z.ltb z 0 then "-" ++ unsignedToString (- z) else unsignedToString z.

(** [l.slice(-n)] for [n > 0]: the last [n] elements. *)
Definition lastN {A} (n : nat) (l : list A) : list A :=
  drop (length l - n) l.

End JS.

(* ===================================================================== *)
(** ** settings.ts                                                       *)
(* ===================================================================== *)

Module Settings.

(** [string | false] *)
Inductive OutputSetting : Type :=
| OutFalse
| OutPath (p : string).

(** [string[] | false] *)
Inductive ReadsSetting : Type :=
| ReadsFalse
| ReadsList (files : list string).

(** The fields of [AgentConfig] (agents.ts) that the engine consults; an
    absent field is [None]. *)
Record AgentConfig : Type := mkAgentConfig {
  name : string;
  agentModel : option string;
  thinking : option string;
  agentOutput : option string;
  defaultReads : option (list string);
  defaultProgress : option bool
}.

Record ResolvedStepBehavior : Type := mkBehavior {
  output : OutputSetting;
  reads : ReadsSetting;
  progress : bool
}.

(** Optional fields: [None] is [undefined]. *)
Record StepOverrides : Type := mkOverrides {
  ovOutput : option OutputSetting;
  ovReads : option ReadsSetting;
  ovProgress : option bool
}.

(** [SequentialStep] and [ParallelTaskItem] have the same shape. *)
Record SequentialStep : Type := mkStep {
  agent : string;
  task : option string;
  cwd : option string;
  stepOutput : option OutputSetting;
  stepReads : option ReadsSetting;
  stepProgress : option bool
}.

Definition ParallelTaskItem : Type := SequentialStep.

Record ParallelStep : Type := mkParallel {
  parallel : list ParallelTaskItem;
  concurrency : option nat;
  failFast : option bool
}.

Inductive ChainStep : Type :=
| Sequential (s : SequentialStep)
| Parallel (p : ParallelStep).

Definition isParallelStep (step : ChainStep) : bool :=
  match step with Parallel _ => true | Sequential _ => false end.

Definition getStepAgents (step : ChainStep) : list string :=
  match step with
  | Parallel p => map agent (parallel p)
  | Sequential s => [agent s]
  end.

Definition getStepTaskCount (step : ChainStep) : nat :=
  match step with
  | Parallel p => length (parallel p)
  | Sequential _ => 1
  end.

(** [agents.find((a) => a.name === wanted)] *)
Fixpoint findAgent (agents : list AgentConfig) (wanted : string)
  : option AgentConfig :=
  match agents with
  | [] => None
  | a :: rest => if String.eqb (name a) wanted then Some a
                 else findAgent rest wanted
  end.

(** A resolved template: a string for a sequential step, one string per
    task for a parallel step. *)
Inductive ResolvedTemplate : Type :=
| TemplateOne (t : string)
| TemplateMany (ts : list string).

Definition taskOrDefault (t : option string) (dflt : string) : string :=
  match t with
  | Some s => if JS.truthy s then s else dflt
  | None => dflt
  end.

(** [getChainKey] *)
Definition getChainKey (agents : list string) : string :=
  JS.join "->" agents.

(** [SubagentSettings]: the saved templates, by chain key and then by agent
    name.  An object is the list of its own entries, and [ownProperty] reads
    one of them. *)
Record SubagentSettings : Type := mkSettings {
  chains : option (list (string * list (string * string)))
}.

Fixpoint ownProperty {A} (key : string) (entries : list (string * A))
  : option A :=
  match entries with
  | [] => None
  | (k, v) :: rest => if String.eqb k key then Some v
                      else ownProperty key rest
  end.

(** [resolveChainTemplates(agentNames, inlineTasks, settings)].  An
    argument that the caller leaves out is [None]; [inr] is the [TypeError]
    thrown on reading a property of [undefined]: [settings.chains] without
    settings, [inlineTasks[i]] without inline tasks. *)
Definition resolveChainTemplates (agentNames : list string)
    (inlineTasks : option (list (option string)))
    (settings : option SubagentSettings) : list string + string :=
  let chainKey := getChainKey agentNames in
  match settings with
  | None => inr "TypeError"
  | Some settings =>
      let savedTemplates :=
        match chains settings with
        | Some saved => JS.nullish (ownProperty chainKey saved) []
        | None => []
        end in
      match inlineTasks, agentNames with
      | None, _ :: _ => inr "TypeError"
      | _, _ =>
          inl (imap
                 (fun i agent =>
                    let inline :=
                      match inlineTasks with
                      | Some tasks => match tasks !! i with
                                      | Some t => t
                                      | None => None
                                      end
                      | None => None
                      end in
                    if JS.truthyOpt inline then JS.nullish inline ""
                    else
                      let saved := ownProperty agent savedTemplates in
                      if JS.truthyOpt saved then JS.nullish saved ""
                      else if Nat.eqb i 0 then "{task}" else "{previous}")
                 agentNames)
      end
  end.

(** [resolveChainTemplatesV2(steps, settings)], the parallel-aware template
    resolution; it makes no use of its settings. *)
Fixpoint resolveChainTemplatesV2From (i : nat) (steps : list ChainStep)
  : list ResolvedTemplate :=
  match steps with
  | [] => []
  | Parallel p :: rest =>
      TemplateMany (map (fun t => taskOrDefault (task t) "{previous}")
                        (parallel p))
      :: resolveChainTemplatesV2From (S i) rest
  | Sequential seq :: rest =>
      TemplateOne (taskOrDefault (task seq)
                     (if Nat.eqb i 0 then "{task}" else "{previous}"))
      :: resolveChainTemplatesV2From (S i) rest
  end.

Definition resolveChainTemplatesV2 (steps : list ChainStep)
  : list ResolvedTemplate :=
  resolveChainTemplatesV2From 0 steps.

(** Priority: step override > agent frontmatter > false (disabled). *)
Definition resolveStepBehavior (agentConfig : AgentConfig)
    (stepOverrides : StepOverrides) : ResolvedStepBehavior :=
  let output :=
    match ovOutput stepOverrides with
    | Some o => o
    | None => match agentOutput agentConfig with
              | Some p => OutPath p
              | None => OutFalse
              end
    end in
  let reads :=
    match ovReads stepOverrides with
    | Some r => r
    | None => match defaultReads agentConfig with
              | Some l => ReadsList l
              | None => ReadsFalse
              end
    end in
  let progress :=
    match ovProgress stepOverrides with
    | Some b => b
    | None => JS.nullish (defaultProgress agentConfig) false
    end in
  mkBehavior output reads progress.

Definition overridesOf (s : SequentialStep) : StepOverrides :=
  mkOverrides (stepOutput s) (stepReads s) (stepProgress s).

Definition resolveChainPath (filePath chainDir : string) : string :=
  if JS.isAbsolute filePath then filePath else chainDir ++ "/" ++ filePath.

Definition buildChainInstructions (behavior : ResolvedStepBehavior)
    (chainDir : string) (isFirstProgressAgent : bool)
    (previousSummary : option string) : string :=
  let i1 :=
    match previousSummary with
    | Some p => if JS.truthy p && JS.truthy (JS.trim p)
                then ["Previous step summary:" ++ String "010" (String "010" (JS.trim p))]
                else []
    | None => []
    end in
  let i2 :=
    match reads behavior with
    | ReadsList (f :: fs) =>
        ["Read these files: "
         ++ JS.join ", " (map (fun f => resolveChainPath f chainDir) (f :: fs))]
    | _ => []
    end in
  let i3 :=
    match output behavior with
    | OutPath p => if JS.truthy p
                   then ["Write your output to: " ++ resolveChainPath p chainDir]
                   else []
    | OutFalse => []
    end in
  let i4 :=
    if progress behavior then
      let progressPath := chainDir ++ "/progress.md" in
      if isFirstProgressAgent
      then ["Create and maintain: " ++ progressPath;
            "Format: Status, Tasks (checkboxes), Files Changed, Notes"]
      else ["Read and update: " ++ progressPath]
    else [] in
  let instructions := (i1 ++ i2 ++ i3 ++ i4)%list in
  match instructions with
  | [] => ""
  | _ => String "010" (String "010" "---") ++ String "010" "**Chain Instructions:**"
         ++ String "010" (JS.join (String "010" "") (map (fun i => "- " ++ i) instructions))
  end.

(** [`parallel-${stepIndex}/${taskIndex}-${task.agent}`] *)
Definition parallelSubdir (stepIndex taskIndex : nat) (agentName : string)
  : string :=
  "parallel-" ++ JS.numToString stepIndex ++ "/"
  ++ JS.numToString taskIndex ++ "-" ++ agentName.

(** The body of the [tasks.map] callback of [resolveParallelBehaviors],
    once the agent's config has been found. *)
Definition resolveParallelTask (config : AgentConfig)
    (task : ParallelTaskItem) (stepIndex taskIndex : nat)
  : ResolvedStepBehavior :=
  let subdir := parallelSubdir stepIndex taskIndex (agent task) in
  let output :=
    match stepOutput task with
    | Some OutFalse => OutFalse
    | Some (OutPath p) =>
        if JS.isAbsolute p then OutPath p else OutPath (subdir ++ "/" ++ p)
    | None =>
        match agentOutput config with
        | Some p => if JS.truthy p then OutPath (subdir ++ "/" ++ p)
                    else OutFalse
        | None => OutFalse
        end
    end in
  let reads :=
    match stepReads task with
    | Some r => r
    | None => match defaultReads config with
              | Some l => ReadsList l
              | None => ReadsFalse
              end
    end in
  let progress :=
    match stepProgress task with
    | Some b => b
    | None => JS.nullish (defaultProgress config) false
    end in
  mkBehavior output reads progress.

(** [resolveParallelBehaviors]: [inr msg] is [throw new Error(msg)]. *)
Fixpoint resolveParallelBehaviorsFrom (taskIndex : nat)
    (tasks : list ParallelTaskItem) (agentConfigs : list AgentConfig)
    (stepIndex : nat) : list ResolvedStepBehavior + string :=
  match tasks with
  | [] => inl []
  | task :: rest =>
      match findAgent agentConfigs (agent task) with
      | None => inr ("Unknown agent: " ++ agent task)
      | Some config =>
          match resolveParallelBehaviorsFrom (S taskIndex) rest
                  agentConfigs stepIndex with
          | inl bs =>
              inl (resolveParallelTask config task stepIndex taskIndex :: bs)
          | inr e => inr e
          end
      end
  end.

Definition resolveParallelBehaviors (tasks : list ParallelTaskItem)
    (agentConfigs : list AgentConfig) (stepIndex : nat)
  : list ResolvedStepBehavior + string :=
  resolveParallelBehaviorsFrom 0 tasks agentConfigs stepIndex.

Record ParallelTaskResult : Type := mkParallelTaskResult {
  ptrAgent : string;
  ptrTaskIndex : nat;
  ptrOutput : string;
  ptrExitCode : Z;
  ptrError : option string
}.

(** The block the [map] callback of [aggregateParallelOutputs] builds for
    the task at position [i]. *)
Definition parallelBlock (i : nat) (r : ParallelTaskResult) : string :=
  let header :=
    "=== Parallel Task " ++ JS.numToString (i + 1)
    ++ " (" ++ ptrAgent r ++ ") ===" in
  header ++ String "010" (ptrOutput r).

Fixpoint parallelBlocksFrom (i : nat) (results : list ParallelTaskResult)
  : list string :=
  match results with
  | [] => []
  | r :: rest => parallelBlock i r :: parallelBlocksFrom (S i) rest
  end.

Definition aggregateParallelOutputs (results : list ParallelTaskResult)
  : string :=
  JS.join (String "010" (String "010" "")) (parallelBlocksFrom 0 results).

Definition hasParallelFailures (results : list ParallelTaskResult) : bool :=
  existsb (fun r => negb (Z.eqb (ptrExitCode r) 0)) results.

(** The line [getParallelFailureSummary] writes for a failed task. *)
Definition failureSummaryLine (f : ParallelTaskResult) : string :=
  "- Task " ++ JS.numToString (ptrTaskIndex f + 1) ++ " (" ++ ptrAgent f
  ++ "): "
  ++ (if JS.truthyOpt (ptrError f) then JS.nullish (ptrError f) ""
      else "failed").

Definition getParallelFailureSummary (results : list ParallelTaskResult)
  : string :=
  let failures :=
    List.filter (fun r => negb (Z.eqb (ptrExitCode r) 0)) results in
  match failures with
  | [] => ""
  | _ => JS.join (String "010" "") (map failureSummaryLine failures)
  end.

(** [flattenTemplates] *)
Fixpoint flattenTemplates (templates : list ResolvedTemplate)
  : list string :=
  match templates with
  | [] => []
  | TemplateMany ts :: rest => (ts ++ flattenTemplates rest)%list
  | TemplateOne t :: rest => t :: flattenTemplates rest
  end.

(** The loop of [unflattenTemplates], with [idx] its running index.  An
    entry of the result is [None] where the source pushes [flat[idx]] and
    [idx] is beyond the end of [flat] (the entry is [undefined]). *)
Fixpoint unflattenFrom (idx : nat) (flat : list string)
    (steps : list ChainStep) : list (option ResolvedTemplate) :=
  match steps with
  | [] => []
  | Parallel p :: rest =>
      let count := length (parallel p) in
      Some (TemplateMany (take count (drop idx flat)))
      :: unflattenFrom (idx + count) flat rest
  | Sequential _ :: rest =>
      match flat !! idx with
      | Some t => Some (TemplateOne t)
      | None => None
      end :: unflattenFrom (S idx) flat rest
  end.

Definition unflattenTemplates (flat : list string) (steps : list ChainStep)
  : list (option ResolvedTemplate) :=
  unflattenFrom 0 flat steps.

(** [l.findIndex(f)], from position [i] on: the first index whose element
    satisfies [f], or -1. *)
Fixpoint findIndexFrom {A} (f : A -> nat -> bool) (i : nat) (l : list A)
  : Z :=
  match l with
  | [] => (-1)%Z
  | x :: rest => if f x i then Z.of_nat i else findIndexFrom f (S i) rest
  end.

Definition findFirstProgressAgentIndex (agentConfigs : list AgentConfig)
    (stepOverrides : list StepOverrides) : Z :=
  findIndexFrom
    (fun config i =>
       match stepOverrides !! i with
       | Some override =>
           match ovProgress override with
           | Some b => b
           | None => JS.nullish (defaultProgress config) false
           end
       | None => JS.nullish (defaultProgress config) false
       end)
    0 agentConfigs.

End Settings.

(* ===================================================================== *)
(** ** parallel-utils.ts: aggregateParallelOutputs                       *)
(* ===================================================================== *)

Module ParallelUtils.

(** A task's outcome as [aggregateParallelOutputs] takes it. *)
Record TaskOutput : Type := mkTaskOutput {
  outAgent : string;
  outText : string;
  outExitCode : Z;
  outError : option string
}.

(** The warning sign that begins a marker, in UTF-8. *)
Definition warningSign : string :=
  String "226" (String "154" (String "160"
    (String "239" (String "184" (String "143" ""))))).

Definition failureMarker (r : TaskOutput) : string :=
  warningSign ++ " FAILED (exit code " ++ JS.numberToString (outExitCode r)
  ++ ")"
  ++ (if JS.truthyOpt (outError r)
      then ": " ++ JS.nullish (outError r) "" else "").

Definition emptyMarker : string := warningSign ++ " EMPTY OUTPUT".

Definition taskHeader (i : nat) (r : TaskOutput) : string :=
  "=== Parallel Task " ++ JS.numToString (i + 1)
  ++ " (" ++ outAgent r ++ ") ===".

(** What stands under the header of a task: the marker of a failed task or
    of a task without output, and the output when it is not blank. *)
Definition taskBody (r : TaskOutput) : string :=
  let hasOutput := JS.truthy (JS.trim (outText r)) in
  if negb (Z.eqb (outExitCode r) 0) then
    if hasOutput then failureMarker r ++ String "010" (outText r)
    else failureMarker r
  else if hasOutput then outText r else emptyMarker.

(** Modelled from the spec: parallel-utils.ts, whose
    [aggregateParallelOutputs] is the one parallel-utils.test.ts
    exercises, is not among the sources.  The header of a task and the
    order of the tasks are those of section 4.5 of the specification, the
    failure marker that names the error is the one of its scenario E, and
    the texts of the markers are those the tests look for. *)
Definition aggregateParallelOutputs (results : list TaskOutput) : string :=
  JS.join (String "010" (String "010" ""))
    (imap (fun i r => taskHeader i r ++ String "010" (taskBody r)) results).

End ParallelUtils.

(* ===================================================================== *)
(** ** jsonl-writer.ts                                                   *)
(* ===================================================================== *)

Module JsonlWriter.

(** What the writer can do to its collaborators: the pausable source
    ([DrainableSource]) and the sink ([JsonlWriteStream]).  The sink answers
    each [write] with the next entry of [writeResults] ([true] once the
    list is used up), and [drainListeners] counts the pending
    [once("drain", ...)] registrations. *)
Record World : Type := mkWorld {
  paused : nat;
  resumed : nat;
  writes : list string;
  ended : nat;
  closeCallbacks : nat;
  drainListeners : nat;
  writeResults : list bool
}.

Definition freshWorld (results : list bool) : World :=
  mkWorld 0 0 [] 0 0 0 results.

(** The closure state of the writer object that [createJsonlWriter]
    returns.  [NoOpWriter] is the object with the two empty methods. *)
Inductive Writer : Type :=
| NoOpWriter
| StreamWriter (stream backpressured closed : bool).

(** [createWriteStreamOk] tells whether [createWriteStream(filePath)]
    returned a stream ([false]: it threw). *)
Definition createJsonlWriter (filePath : option string)
    (createWriteStreamOk : bool) : Writer :=
  if negb (JS.truthyOpt filePath) then NoOpWriter
  else if createWriteStreamOk then StreamWriter true false false
  else NoOpWriter.

Definition sinkWrite (chunk : string) (w : World) : bool * World :=
  let ok := match writeResults w with b :: _ => b | [] => true end in
  (ok, mkWorld (paused w) (resumed w) (writes w ++ [chunk])%list (ended w)
         (closeCallbacks w) (drainListeners w) (tl (writeResults w))).

Definition sourcePause (w : World) : World :=
  mkWorld (S (paused w)) (resumed w) (writes w) (ended w)
    (closeCallbacks w) (drainListeners w) (writeResults w).

Definition sourceResume (w : World) : World :=
  mkWorld (paused w) (S (resumed w)) (writes w) (ended w)
    (closeCallbacks w) (drainListeners w) (writeResults w).

Definition sinkOnceDrain (w : World) : World :=
  mkWorld (paused w) (resumed w) (writes w) (ended w)
    (closeCallbacks w) (S (drainListeners w)) (writeResults w).

(** [current.end(() => resolve())]: the sink is ended and calls back. *)
Definition sinkEnd (w : World) : World :=
  mkWorld (paused w) (resumed w) (writes w) (S (ended w))
    (S (closeCallbacks w)) (drainListeners w) (writeResults w).

Definition writeLine (line : string) (st : Writer * World)
  : Writer * World :=
  match st with
  | (NoOpWriter, w) => (NoOpWriter, w)
  | (StreamWriter stream backpressured closed, w) =>
      if negb stream || closed || negb (JS.truthy (JS.trim line)) then st
      else
        let '(ok, w1) := sinkWrite (line ++ String "010" "") w in
        if negb ok && negb backpressured
        then (StreamWriter stream true closed,
              sinkOnceDrain (sourcePause w1))
        else (StreamWriter stream backpressured closed, w1)
  end.

Definition close (st : Writer * World) : Writer * World :=
  match st with
  | (NoOpWriter, w) => (NoOpWriter, w)
  | (StreamWriter stream backpressured closed, w) =>
      if negb stream || closed then st
      else (StreamWriter false backpressured true, sinkEnd w)
  end.

(** One registered drain listener runs:
    [backpressured = false; if (!closed) source.resume()]. *)
Definition drainListener (st : Writer * World) : Writer * World :=
  match st with
  | (NoOpWriter, w) => (NoOpWriter, w)
  | (StreamWriter stream _ closed, w) =>
      (StreamWriter stream false closed,
       if closed then w else sourceResume w)
  end.

(** The sink emits "drain": every pending once-listener runs and is
    removed. *)
Definition emitDrain (st : Writer * World) : Writer * World :=
  let '(wr, w) := st in
  let cleared := mkWorld (paused w) (resumed w) (writes w) (ended w)
                   (closeCallbacks w) 0 (writeResults w) in
  Nat.iter (drainListeners w) drainListener (wr, cleared).

Inductive Op : Type :=
| OpWriteLine (line : string)
| OpClose
| OpDrain.

Definition step (st : Writer * World) (op : Op) : Writer * World :=
  match op with
  | OpWriteLine line => writeLine line st
  | OpClose => close st
  | OpDrain => emitDrain st
  end.

Definition run (ops : list Op) (st : Writer * World) : Writer * World :=
  fold_left step ops st.

Definition isClose (op : Op) : bool :=
  match op with OpClose => true | _ => false end.

End JsonlWriter.

(* ===================================================================== *)
(** ** Side effects visible outside the engine                           *)
(* ===================================================================== *)

Module Fx.

Inductive Effect : Type :=
| MkDir (path : string)                       (* fs.mkdirSync, recursive *)
| RmDir (path : string)                       (* fs.rmSync, recursive *)
| WriteFile (path content : string)           (* fs.writeFileSync *)
| Spawn (agent task : string) (index : nat).  (* child_process.spawn *)

Definition isSpawn (e : Effect) : bool :=
  match e with Spawn _ _ _ => true | _ => false end.

(** The worker processes started, in order. *)
Definition spawned (trace : list Effect) : list Effect :=
  filter (fun e => isSpawn e = true) trace.

(** Whether directory [dir] exists after the effects of [trace], given
    that it did not exist before. *)
Fixpoint dirExistsFrom (exists_ : bool) (dir : string)
    (trace : list Effect) : bool :=
  match trace with
  | [] => exists_
  | MkDir p :: rest =>
      dirExistsFrom (exists_ || JS.startsWith dir p) dir rest
  | RmDir p :: rest =>
      dirExistsFrom (exists_ && negb (JS.startsWith p dir)) dir rest
  | _ :: rest => dirExistsFrom exists_ dir rest
  end.

Definition dirExists (dir : string) (trace : list Effect) : bool :=
  dirExistsFrom false dir trace.

End Fx.

(* ===================================================================== *)
(** ** execution.ts                                                      *)
(* ===================================================================== *)

Module Execution.

Record Usage : Type := mkUsage {
  input : Z;
  output : Z;
  cacheRead : Z;
  cacheWrite : Z;
  cost : Q;
  turns : Z
}.

Definition zeroUsage : Usage := mkUsage 0 0 0 0 0 0.

(** [message.usage]; an absent counter is [None]. *)
Record MessageUsage : Type := mkMessageUsage {
  uInput : option Z;
  uOutput : option Z;
  uCacheRead : option Z;
  uCacheWrite : option Z;
  uCostTotal : option Q
}.

(** A protocol message.  [text] is what [extractTextFromContent] (utils.ts)
    returns for the message's content. *)
Record Message : Type := mkMessage {
  role : string;
  usage : option MessageUsage;
  msgModel : option string;
  errorMessage : option string;
  text : string;
  msgToolName : option string;
  isError : bool
}.

(** A parsed stdout record.  [argsPreview] is what
    [extractToolArgsPreview] (utils.ts) returns for the event's args. *)
Inductive Event : Type :=
| ToolExecutionStart (toolName : option string) (argsPreview : string)
| ToolExecutionEnd
| MessageEnd (message : option Message)
| ToolResultEnd (message : option Message) (toolName : option string)
| OtherEvent.

(** A line of the worker's standard output, as [processLine] sees it:
    blank, rejected by [JSON.parse], or a parsed record. *)
Inductive Line : Type :=
| Blank
| Malformed
| Parsed (evt : Event).

Record RecentTool : Type := mkRecentTool {
  tool : string;
  args : string
}.

Inductive Status : Type := Running | Completed | Failed.

Record AgentProgress : Type := mkProgress {
  index : nat;
  progressAgent : string;
  status : Status;
  progressTask : string;
  currentTool : option string;
  currentToolArgs : option string;
  recentTools : list RecentTool;
  recentOutput : list string;
  toolCount : nat;
  tokens : Z;
  progressError : option string;
  failedTool : option string
}.

Record SingleResult : Type := mkResult {
  agent : string;
  task : string;
  exitCode : Z;
  messages : list Message;
  resultUsage : Usage;
  model : option string;
  error : option string;
  progress : option AgentProgress
}.

Record ToolError : Type := mkToolError {
  errToolName : string;
  errExitCode : option Z;
  details : option string
}.

(** What a started worker process does: the lines of its standard output
    (the unterminated last fragment included), the captured standard error,
    and the exit code reported by "close" ([None] is [null]). *)
Record ProcRun : Type := mkProcRun {
  stdoutLines : list Line;
  stderr : string;
  code : option Z
}.

Definition MAX_STORED_MESSAGES : nat := 200.
Definition MAX_TAIL_CHARS : nat := 20 * 1000.

Definition THINKING_LEVELS : list string :=
  ["off"; "minimal"; "low"; "medium"; "high"; "xhigh"].

(** [s.substring(s.lastIndexOf(":") + 1)], when there is a colon. *)
Fixpoint afterLastColon (s : string) : option string :=
  match s with
  | EmptyString => None
  | String c rest =>
      match afterLastColon rest with
      | Some t => Some t
      | None => if Ascii.eqb c ":" then Some rest else None
      end
  end.

Definition applyThinkingSuffix (model thinking : option string)
  : option string :=
  match model, thinking with
  | Some m, Some t =>
      if negb (JS.truthy m) || negb (JS.truthy t) || String.eqb t "off"
      then model
      else
        match afterLastColon m with
        | Some suffix =>
            if existsb (String.eqb suffix) THINKING_LEVELS then model
            else Some (m ++ ":" ++ t)
        | None => Some (m ++ ":" ++ t)
        end
  | _, _ => model
  end.

(** Keep the last [n] elements: [l.splice(0, l.length - n)] when the list
    is longer than [n]. *)
Definition keepLast {A} (n : nat) (l : list A) : list A :=
  if Nat.ltb n (length l) then drop (length l - n) l else l.

Definition pushMessage (msgs : list Message) (msg : Message)
  : list Message :=
  keepLast MAX_STORED_MESSAGES (msgs ++ [msg])%list.

(** *** parseExitCode

    The source matches, ignoring case and at the leftmost position where
    the whole pattern fits: the word exit, an optional ed, white space, an
    optional with and white space, an optional code or status, white
    space, an optional colon or white-space character, white space, and
    then a non-empty run of digits, which is the captured group.  No
    optional part can begin with a character that the part after it
    accepts, so taking each optional part whenever it is present loses no
    match. *)

Definition lower (c : ascii) : ascii :=
  let n := nat_of_ascii c in
  if (Nat.leb 65 n && Nat.leb n 90)%bool then ascii_of_nat (n + 32) else c.

(** [stripCI p s]: [s] without its prefix [p], compared ignoring case. *)
Fixpoint stripCI (p s : string) : option string :=
  match p, s with
  | EmptyString, _ => Some s
  | String a p', String b s' =>
      if Ascii.eqb (lower a) (lower b) then stripCI p' s' else None
  | String _ _, EmptyString => None
  end.

Definition optional (p : string) (s : string) : string :=
  match stripCI p s with Some rest => rest | None => s end.

Fixpoint takeDigits (s : string) : string :=
  match s with
  | String c rest => if JS.isDigit c then String c (takeDigits rest)
                     else EmptyString
  | EmptyString => EmptyString
  end.

Definition matchExitAt (s : string) : option string :=
  match stripCI "exit" s with
  | None => None
  | Some s1 =>
      let s2 := JS.trimStart (optional "ed" s1) in
      let s3 := match stripCI "with" s2 with
                | Some rest => JS.trimStart rest
                | None => s2
                end in
      let s4 := match stripCI "code" s3 with
                | Some rest => rest
                | None => optional "status" s3
                end in
      let s5 := JS.trimStart s4 in
      let s6 := match s5 with
                | String c rest => if Ascii.eqb c ":" then rest else s5
                | EmptyString => s5
                end in
      let digits := takeDigits (JS.trimStart s6) in
      if JS.truthy digits then Some digits else None
  end.

Fixpoint matchExit (s : string) : option string :=
  match matchExitAt s with
  | Some d => Some d
  | None => match s with
            | EmptyString => None
            | String _ rest => matchExit rest
            end
  end.

(** [Number.isFinite] rejects the [Infinity] that [parseInt] gives for
    digits beyond the range of numbers. *)
Definition parseExitCode (text : string) : option Z :=
  if negb (JS.truthy text) then None
  else match matchExit text with
       | None => None
       | Some digits => JS.parseInt10 digits
       end.

(** *** tailLines *)

(** The backwards scan of [tailLines]: [revChars] are the characters at
    positions [i, i-1, ..., 0]; [seg] is [s.slice(i + 1, end)]. *)
Fixpoint tailScan (maxLines : nat) (revChars : list ascii) (seg : string)
    (out : list string) : list string * string :=
  match revChars with
  | [] => (out, seg)
  | c :: rest =>
      if Nat.ltb (length out) maxLines then
        if Ascii.eqb c "010" then
          let t := JS.trim seg in
          tailScan maxLines rest ""
            (if JS.truthy t then (out ++ [t])%list else out)
        else tailScan maxLines rest (String c seg) out
      else (out, seg)
  end.

Definition tailLines (text : string) (maxLines maxChars : nat)
  : list string :=
  if negb (JS.truthy text) then []
  else
    let s := if Nat.ltb maxChars (String.length text)
             then JS.sliceLast maxChars text else text in
    let '(out, seg) :=
      tailScan maxLines (List.rev (list_ascii_of_string s)) "" [] in
    let out1 :=
      if Nat.ltb (length out) maxLines then
        let first := JS.trim seg in
        if JS.truthy first then (out ++ [first])%list else out
      else out in
    let out2 := List.rev out1 in
    if Nat.ltb maxLines (length out2)
    then drop (length out2 - maxLines) out2 else out2.

(** *** runSync *)

(** The mutable locals of one [runSync] call.  [stProgress] is the object
    that [result.progress] refers to; the two are joined when [runSync]
    returns. *)
Record RunState : Type := mkRunState {
  stResult : SingleResult;
  stProgress : AgentProgress;
  finalOutputText : string;
  lastToolError : option ToolError
}.

Definition withMessages (r : SingleResult) (m : list Message)
  : SingleResult :=
  mkResult (agent r) (task r) (exitCode r) m (resultUsage r) (model r)
    (error r) (progress r).

Definition withUsage (r : SingleResult) (u : Usage) : SingleResult :=
  mkResult (agent r) (task r) (exitCode r) (messages r) u (model r)
    (error r) (progress r).

Definition withModel (r : SingleResult) (m : option string)
  : SingleResult :=
  mkResult (agent r) (task r) (exitCode r) (messages r) (resultUsage r) m
    (error r) (progress r).

Definition withError (r : SingleResult) (e : option string)
  : SingleResult :=
  mkResult (agent r) (task r) (exitCode r) (messages r) (resultUsage r)
    (model r) e (progress r).

Definition withExitCode (r : SingleResult) (c : Z) : SingleResult :=
  mkResult (agent r) (task r) c (messages r) (resultUsage r) (model r)
    (error r) (progress r).

Definition withProgress (r : SingleResult) (p : option AgentProgress)
  : SingleResult :=
  mkResult (agent r) (task r) (exitCode r) (messages r) (resultUsage r)
    (model r) (error r) p.

Definition withRecentOutput (p : AgentProgress) (l : list string)
  : AgentProgress :=
  mkProgress (index p) (progressAgent p) (status p) (progressTask p)
    (currentTool p) (currentToolArgs p) (recentTools p) l (toolCount p)
    (tokens p) (progressError p) (failedTool p).

Definition withTokens (p : AgentProgress) (t : Z) : AgentProgress :=
  mkProgress (index p) (progressAgent p) (status p) (progressTask p)
    (currentTool p) (currentToolArgs p) (recentTools p) (recentOutput p)
    (toolCount p) t (progressError p) (failedTool p).

(** [a || 0] *)
Definition orZero (a : option Z) : Z := JS.nullish a 0%Z.

Definition addUsage (acc : Usage) (u : MessageUsage) : Usage :=
  mkUsage (input acc + orZero (uInput u))%Z
          (output acc + orZero (uOutput u))%Z
          (cacheRead acc + orZero (uCacheRead u))%Z
          (cacheWrite acc + orZero (uCacheWrite u))%Z
          (cost acc + JS.nullish (uCostTotal u) 0%Q)%Q
          (turns acc).

Definition bumpTurns (u : Usage) : Usage :=
  mkUsage (input u) (output u) (cacheRead u) (cacheWrite u) (cost u)
    (turns u + 1)%Z.

(** [progress.recentOutput.push(...lines)] followed by the splice that
    keeps the last 50 entries. *)
Definition pushRecentOutput (recent lines : list string) : list string :=
  keepLast 50 (recent ++ lines)%list.

(** [recentTools.unshift(entry)] followed by one [pop()] when the list
    has grown beyond 5 entries. *)
Definition unshiftRecentTool (recent : list RecentTool)
    (entry : RecentTool) : list RecentTool :=
  let l := entry :: recent in
  if Nat.ltb 5 (length l) then removelast l else l.

Definition onToolExecutionStart (toolName : option string)
    (argsPreview : string) (st : RunState) : RunState :=
  let p := stProgress st in
  mkRunState (stResult st)
    (mkProgress (index p) (progressAgent p) (status p) (progressTask p)
       toolName (Some argsPreview) (recentTools p) (recentOutput p)
       (S (toolCount p)) (tokens p) (progressError p) (failedTool p))
    (finalOutputText st) (lastToolError st).

Definition onToolExecutionEnd (st : RunState) : RunState :=
  let p := stProgress st in
  let recent :=
    match currentTool p with
    | Some t =>
        if JS.truthy t
        then unshiftRecentTool (recentTools p)
               (mkRecentTool t
                  (if JS.truthyOpt (currentToolArgs p)
                   then JS.nullish (currentToolArgs p) "" else ""))
        else recentTools p
    | None => recentTools p
    end in
  mkRunState (stResult st)
    (mkProgress (index p) (progressAgent p) (status p) (progressTask p)
       None None recent (recentOutput p) (toolCount p) (tokens p)
       (progressError p) (failedTool p))
    (finalOutputText st) (lastToolError st).

Definition onMessageEnd (msg : Message) (st : RunState) : RunState :=
  if String.eqb (role msg) "assistant" then
    let r0 := withMessages (stResult st)
                (pushMessage (messages (stResult st)) msg) in
    let r1 := withUsage r0 (bumpTurns (resultUsage r0)) in
    let '(r2, p2) :=
      match usage msg with
      | Some u =>
          let r := withUsage r1 (addUsage (resultUsage r1) u) in
          (r, withTokens (stProgress st)
                (input (resultUsage r) + output (resultUsage r))%Z)
      | None => (r1, stProgress st)
      end in
    let r3 := if negb (JS.truthyOpt (model r2)) && JS.truthyOpt (msgModel msg)
              then withModel r2 (msgModel msg) else r2 in
    let r4 := if JS.truthyOpt (errorMessage msg)
              then withError r3 (errorMessage msg) else r3 in
    if JS.truthy (text msg) then
      let lines := tailLines (text msg) 10 MAX_TAIL_CHARS in
      mkRunState r4
        (withRecentOutput p2 (pushRecentOutput (recentOutput p2) lines))
        (text msg) (lastToolError st)
    else mkRunState r4 p2 (finalOutputText st) (lastToolError st)
  else if JS.truthyOpt (errorMessage msg) then
    mkRunState (withError (stResult st) (errorMessage msg))
      (stProgress st) (finalOutputText st) (lastToolError st)
  else st.

Definition onToolResultEnd (msg : Message) (evtToolName : option string)
    (st : RunState) : RunState :=
  let toolName :=
    if JS.truthyOpt (msgToolName msg) then JS.nullish (msgToolName msg) ""
    else if JS.truthyOpt evtToolName then JS.nullish evtToolName ""
    else "tool" in
  let toolText := text msg in
  let p1 :=
    if JS.truthy toolText then
      withRecentOutput (stProgress st)
        (pushRecentOutput (recentOutput (stProgress st))
           (tailLines toolText 10 MAX_TAIL_CHARS))
    else stProgress st in
  let exitCode :=
    if String.eqb toolName "bash" then parseExitCode toolText else None in
  let nonZero :=
    match exitCode with Some c => negb (Z.eqb c 0) | None => false end in
  if isError msg || (String.eqb toolName "bash" && nonZero) then
    mkRunState
      (withMessages (stResult st)
         (pushMessage (messages (stResult st)) msg))
      p1 (finalOutputText st)
      (Some (mkToolError toolName (Some (JS.nullish exitCode 1%Z))
               (if JS.truthy toolText then Some (JS.sliceTo 200 toolText)
                else None)))
  else
    mkRunState (stResult st) p1 (finalOutputText st) None.

Definition processEvent (evt : Event) (st : RunState) : RunState :=
  match evt with
  | ToolExecutionStart toolName argsPreview =>
      onToolExecutionStart toolName argsPreview st
  | ToolExecutionEnd => onToolExecutionEnd st
  | MessageEnd (Some msg) => onMessageEnd msg st
  | ToolResultEnd (Some msg) evtToolName =>
      onToolResultEnd msg evtToolName st
  | MessageEnd None | ToolResultEnd None _ | OtherEvent => st
  end.

Definition processLine (st : RunState) (line : Line) : RunState :=
  match line with
  | Blank => st
  | Malformed => st
  | Parsed evt => processEvent evt st
  end.

Record RunSyncOptions : Type := mkOptions {
  optIndex : option nat;
  modelOverride : option string
}.

Definition unknownAgentResult (agentName task : string) : SingleResult :=
  mkResult agentName task 1 [] zeroUsage None
    (Some ("Unknown agent: " ++ agentName)) None.

Definition initialState (agentName task : string) (modelArg : option string)
    (options : RunSyncOptions) : RunState :=
  mkRunState
    (mkResult agentName task 0 [] zeroUsage modelArg None None)
    (mkProgress (JS.nullish (optIndex options) 0) agentName Running task
       None None [] [] 0 0%Z None None)
    "" None.

(** The "close" handler: the lines have been processed; a non-zero (or
    null) code with captured stderr fills in a missing error. *)
Definition onClose (run : ProcRun) (st : RunState) : RunState :=
  let codeIsZero :=
    match code run with Some c => Z.eqb c 0 | None => false end in
  if negb codeIsZero && JS.truthy (JS.trim (stderr run))
     && negb (JS.truthyOpt (error (stResult st)))
  then mkRunState (withError (stResult st) (Some (JS.trim (stderr run))))
         (stProgress st) (finalOutputText st) (lastToolError st)
  else st.

(** What [runSync] does after the process promise has resolved with
    [exitCode]. *)
Definition finish (exitCode0 : Z) (st : RunState) : SingleResult :=
  let r0 := withExitCode (stResult st) exitCode0 in
  let r1 :=
    match lastToolError st with
    | Some e =>
        if Z.eqb exitCode0 0 && negb (JS.truthyOpt (error r0)) then
          let c := JS.nullish (errExitCode e) 1%Z in
          withError (withExitCode r0 c)
            (Some
               (match details e with
                | Some d =>
                    if JS.truthy d
                    then errToolName e ++ " failed (exit " ++ JS.numberToString c
                         ++ "): " ++ d
                    else errToolName e ++ " failed with exit code "
                         ++ JS.numberToString c
                | None => errToolName e ++ " failed with exit code "
                          ++ JS.numberToString c
                end))
        else r0
    | None => r0
    end in
  let p := stProgress st in
  let hasError := JS.truthyOpt (error r1) in
  let p1 :=
    mkProgress (index p) (progressAgent p)
      (if Z.eqb (exitCode r1) 0 then Completed else Failed)
      (progressTask p) (currentTool p) (currentToolArgs p)
      (recentTools p) (recentOutput p) (toolCount p) (tokens p)
      (if hasError then error r1 else progressError p)
      (if hasError && JS.truthyOpt (currentTool p)
       then currentTool p else failedTool p) in
  withProgress r1 (Some p1).

Definition runProcess (run : ProcRun) (st : RunState) : RunState :=
  onClose run (fold_left processLine (stdoutLines run) st).

Section WithWorkers.

(** The behaviour of the worker process started for an agent, a task
    text and a task index. *)
Variable spawnPi : string -> string -> nat -> ProcRun.

(** The process [runSync] starts for a registered agent. *)
Definition workerRun (agentName task : string) (options : RunSyncOptions)
  : ProcRun :=
  spawnPi agentName task (JS.nullish (optIndex options) 0).

(** The locals of [runSync] when the "close" handler has run. *)
Definition stateAtClose (agentCfg : Settings.AgentConfig)
    (agentName task : string) (options : RunSyncOptions) : RunState :=
  let effectiveModel :=
    match modelOverride options with
    | Some m => Some m
    | None => Settings.agentModel agentCfg
    end in
  let modelArg :=
    applyThinkingSuffix effectiveModel (Settings.thinking agentCfg) in
  runProcess (workerRun agentName task options)
    (initialState agentName task modelArg options).

Definition runSync (agents : list Settings.AgentConfig)
    (agentName task : string) (options : RunSyncOptions)
  : SingleResult * list Fx.Effect :=
  match Settings.findAgent agents agentName with
  | None => (unknownAgentResult agentName task, [])
  | Some agentCfg =>
      (finish (JS.nullish (code (workerRun agentName task options)) 0%Z)
         (stateAtClose agentCfg agentName task options),
       [Fx.Spawn agentName task (JS.nullish (optIndex options) 0)])
  end.

End WithWorkers.

End Execution.

(* ===================================================================== *)
(** ** utils.ts: mapConcurrent                                           *)
(* ===================================================================== *)

Module Utils.

Section MapConcurrent.

Context {T R S P : Type}.

(** The callback [fn] is an async function.  A call runs synchronously
    up to its first suspension ([start]): it either returns a value at
    once or leaves a pending operation behind.  When that operation
    completes, the rest of the callback runs ([resume]) and returns the
    value.  [S] is the state the callback shares with its caller. *)
Variable start : S -> T -> nat -> S * (R + P).
Variable resume : S -> P -> S * R.

(** Modelled from the spec: the state of a [mapConcurrent] call
    ([mapConcurrent] lives in utils.ts, which is not among the sources).
    [next] is the next index to hand out and [results] the array being
    filled; [inflight] lists the suspended callbacks with the index they
    were started for. *)
Record Pool : Type := mkPool {
  store : S;
  next : nat;
  inflight : list (nat * P);
  results : list (option R)
}.

(** Modelled from the spec: one worker of [mapConcurrent] (utils.ts, not
    among the sources).  Section 4.4 asks for at most [limit] tasks in
    flight, started in array order, with [results[i]] set from task [i]:
    a pool of workers that each take the next index, call the callback
    and store its value, as long as items are left.  [worker rest pool]
    runs one worker from the item at [next pool] (the head of [rest])
    until its callback suspends or the items run out. *)
Fixpoint worker (rest : list T) (pool : Pool) : Pool :=
  match rest with
  | [] => pool
  | item :: rest' =>
      let i := next pool in
      match start (store pool) item i with
      | (s, inl r) =>
          worker rest'
            (mkPool s (Datatypes.S i) (inflight pool)
               (<[i := Some r]> (results pool)))
      | (s, inr p) =>
          mkPool s (Datatypes.S i) (inflight pool ++ [(i, p)])%list
            (results pool)
      end
  end.

(** Modelled from the spec: a worker of [mapConcurrent] (utils.ts) goes
    back to its loop. *)
Definition refill (items : list T) (pool : Pool) : Pool :=
  worker (drop (next pool) items) pool.

(** Modelled from the spec: a task of [mapConcurrent] (utils.ts)
    completes.  The pending operation at position [c] of [inflight]
    (modulo its length) completes: the callback resumes and its worker
    stores the value.  Section 5 leaves the completion order
    unconstrained, so [c] is arbitrary. *)
Definition settle (c : nat) (pool : Pool) : Pool :=
  match inflight pool with
  | [] => pool
  | _ :: _ =>
      let k := c mod length (inflight pool) in
      match inflight pool !! k with
      | Some (i, p) =>
          let '(s, r) := resume (store pool) p in
          mkPool s (next pool) (delete k (inflight pool))
            (<[i := Some r]> (results pool))
      | None => pool
      end
  end.

(** Modelled from the spec: a completion in [mapConcurrent] (utils.ts),
    followed by the worker going back to its loop. *)
Definition complete (items : list T) (c : nat) (pool : Pool) : Pool :=
  refill items (settle c pool).

(** Modelled from the spec: [mapConcurrent] (utils.ts) waits for its
    workers.  Completions happen in the order [sched] chooses, until
    nothing is in flight. *)
Fixpoint drain (fuel : nat) (sched : list nat) (items : list T)
    (pool : Pool) : Pool :=
  match fuel with
  | 0 => pool
  | Datatypes.S fuel' =>
      match inflight pool with
      | [] => pool
      | _ :: _ =>
          drain fuel' (tl sched) items
            (complete items (hd 0 sched) pool)
      end
  end.

(** Modelled from the spec: [mapConcurrent] (utils.ts) starts
    [min(limit, items.length)] workers; a limit below one counts as
    one. *)
Definition launch (items : list T) (limit : nat) (s0 : S) : Pool :=
  Nat.iter (Nat.min (Nat.max 1 limit) (length items)) (refill items)
    (mkPool s0 0 [] (replicate (length items) None)).

(** Modelled from the spec: [mapConcurrent] of utils.ts, which is not
    among the sources (section 4.4: at most [limit] tasks in flight,
    results in the order of the items).  Every task completes after at
    most [length items] completions. *)
Definition mapConcurrent (sched : list nat) (items : list T)
    (limit : nat) (s0 : S) : S * list (option R) :=
  let pool := drain (length items) sched items (launch items limit s0) in
  (store pool, results pool).

(** Modelled from the spec: the pool of a [mapConcurrent] call (utils.ts)
    after the completions [done], each followed by its worker going back
    to its loop. *)
Definition poolAfter (done : list nat) (items : list T) (limit : nat)
    (s0 : S) : Pool :=
  fold_left (fun pool c => complete items c pool) done
    (launch items limit s0).

End MapConcurrent.

(** Modelled from the spec: [mapConcurrent] (utils.ts) with a callback
    without shared state, whose every call suspends and then yields
    [fn item i]. *)
Definition mapConcurrentPure {T R} (sched : list nat) (items : list T)
    (limit : nat) (fn : T -> nat -> R) : list (option R) :=
  snd (mapConcurrent (S := unit) (P := R)
         (fun s item i => (s, inr (fn item i)))
         (fun s p => (s, p))
         sched items limit tt).

End Utils.

(* ===================================================================== *)
(** ** chain-execution.ts                                                *)
(* ===================================================================== *)

Module ChainExecution.

Import Settings.

Record Details : Type := mkDetails {
  mode : string;
  results : list Execution.SingleResult;
  detailsProgress : option (list Execution.AgentProgress);
  chainAgents : option (list string);
  totalSteps : option nat;
  currentStepIndex : option nat
}.

Record ChainExecutionResult : Type := mkChainResult {
  contentText : string;
  details : Details;
  isError : bool
}.

(** How the promise returned by an async function settles. *)
Inductive Completion (A : Type) : Type :=
| Resolved (value : A)
| Rejected (reason : string).
Arguments Resolved {A} value.
Arguments Rejected {A} reason.

(** [ChainClarifyResult] of chain-clarify.ts; a [BehaviorOverride] has the
    fields of [StepOverrides]. *)
Record ChainClarifyResult : Type := mkClarify {
  confirmed : bool;
  templates : list string;
  behaviorOverrides : list (option StepOverrides)
}.

(** The parameters of [executeChain] that the orchestration depends on
    ([hasUI] is [ctx.hasUI]). *)
Record ChainExecutionParams : Type := mkParams {
  chain : list ChainStep;
  agents : list AgentConfig;
  hasUI : bool;
  runId : string;
  includeProgress : option bool;
  clarify : option bool
}.

Record LoopState : Type := mkLoop {
  loopResults : list Execution.SingleResult;
  prev : string;
  globalTaskIndex : nat;
  progressCreated : bool;
  allProgress : list Execution.AgentProgress;
  trace : list Fx.Effect
}.

(** The state the parallel callback shares with [executeChain]. *)
Record GroupState : Type := mkGroup {
  aborted : bool;
  groupTrace : list Fx.Effect
}.

Inductive StepOutcome : Type :=
| Continue (st : LoopState)
| Halt (outcome : Completion ChainExecutionResult) (fx : list Fx.Effect).

Definition CHAIN_RUNS_DIR : string := "/tmp/pi-chain-runs".

(** The directory [createChainDir(runId)] creates and returns. *)
Definition chainDirOf (runId : string) : string :=
  JS.pathJoin [CHAIN_RUNS_DIR; runId].

Definition progressTemplate : string :=
  "# Progress" ++ String "010" (String "010" "## Status")
  ++ String "010" "In Progress" ++ String "010" (String "010" "## Tasks")
  ++ String "010" (String "010" "## Files Changed")
  ++ String "010" (String "010" "## Notes") ++ String "010" "".

Definition skippedResult (task : ParallelTaskItem)
  : Execution.SingleResult :=
  Execution.mkResult (agent task) "(skipped)" (-1) [] Execution.zeroUsage
    None (Some "Skipped due to fail-fast") None.

Definition chainAgentsOf (steps : list ChainStep) : list string :=
  map (fun step =>
         match step with
         | Parallel p => "[" ++ JS.join "+" (map agent (parallel p)) ++ "]"
         | Sequential s => agent s
         end) steps.

(** What both unknown-agent exits of [executeChain] return, after
    [removeChainDir(chainDir)]. *)
Definition unknownAgentError (agentName : string)
  : Completion ChainExecutionResult :=
  Resolved
    (mkChainResult ("Unknown agent: " ++ agentName)
       (mkDetails "chain" [] None None None None) true).

Definition cancelled : Completion ChainExecutionResult :=
  Resolved
    (mkChainResult "Chain cancelled"
       (mkDetails "chain" [] None None None None) false).

Definition collectProgress (rs : list Execution.SingleResult)
  : list Execution.AgentProgress :=
  omap Execution.progress rs.

(** [createParallelDirs] *)
Definition createParallelDirs (chainDir : string) (stepIndex taskCount : nat)
    (agentNames : list string) : list Fx.Effect :=
  map (fun i =>
         Fx.MkDir
           (JS.pathJoin
              [chainDir; "parallel-" ++ JS.numToString stepIndex;
               JS.numToString i ++ "-"
               ++ JS.nullish (agentNames !! i) "undefined"]))
      (seq 0 taskCount).

(** [`- Task ${originalIndex + 1} (${agent}): ${error || "failed"}`] for
    the results that are real failures. *)
Fixpoint failureLinesFrom (i : nat) (rs : list Execution.SingleResult)
  : list string :=
  match rs with
  | [] => []
  | r :: rest =>
      let c := Execution.exitCode r in
      if negb (Z.eqb c 0) && negb (Z.eqb c (-1))
      then ("- Task " ++ JS.numToString (i + 1) ++ " ("
            ++ Execution.agent r ++ "): "
            ++ (if JS.truthyOpt (Execution.error r)
                then JS.nullish (Execution.error r) "" else "failed"))
           :: failureLinesFrom (S i) rest
      else failureLinesFrom (S i) rest
  end.

Section WithEnvironment.

(** The worker processes, and the collaborators that are not among the
    sources: [getFinalOutput] (utils.ts), [buildChainSummary]
    (formatters.ts), the clarification dialog ([ctx.ui.custom] with
    [ChainClarifyComponent]), [MAX_CONCURRENCY] (types.ts), and
    [String.prototype.replace] with a global pattern.
    [completionOrder stepIndex] is the order in which the tasks of the
    parallel group at [stepIndex] finish. *)
Variable spawnPi : string -> string -> nat -> Execution.ProcRun.
Variable getFinalOutput : list Execution.Message -> string.
Variable buildChainSummary :
  list ChainStep -> list Execution.SingleResult -> string -> string ->
  option (nat * string) -> string.
Variable uiCustom :
  list AgentConfig -> list string -> option string -> string ->
  list ResolvedStepBehavior -> option ChainClarifyResult.
Variable replaceAll : string -> string -> string -> string.
Variable MAX_CONCURRENCY : nat.
Variable completionOrder : nat -> list nat.

(** The three [replace] calls that fill in a template. *)
Definition substitute (template : string) (originalTask : option string)
    (previous chainDir : string) : string :=
  replaceAll "{chain_dir}" chainDir
    (replaceAll "{previous}" previous
       (replaceAll "{task}" (JS.nullish originalTask "undefined")
          template)).

Definition failureResult (p : ChainExecutionParams) (chainDir : string)
    (stepIndex : nat) (errorText : string) (st : LoopState)
  : ChainExecutionResult :=
  mkChainResult
    (buildChainSummary (chain p) (loopResults st) chainDir "failed"
       (Some (stepIndex, errorText)))
    (mkDetails "chain" (loopResults st)
       (if JS.nullish (includeProgress p) false
        then Some (allProgress st) else None)
       (Some (chainAgentsOf (chain p))) (Some (length (chain p)))
       (Some stepIndex))
    true.

(** The behaviour of a sequential step: the overrides of the
    clarification dialog take precedence over the step's own. *)
Definition sequentialBehavior
    (tuiBehaviorOverrides : option (list (option StepOverrides)))
    (stepIndex : nat) (seqStep : SequentialStep)
    (agentConfig : AgentConfig) : ResolvedStepBehavior :=
  let tuiOverride :=
    match tuiBehaviorOverrides with
    | Some l => match l !! stepIndex with
                | Some o => o
                | None => None
                end
    | None => None
    end in
  let pick {A} (f : StepOverrides -> option A) (own : option A) :=
    match tuiOverride with
    | Some o => match f o with Some v => Some v | None => own end
    | None => own
    end in
  resolveStepBehavior agentConfig
    (mkOverrides (pick ovOutput (stepOutput seqStep))
                 (pick ovReads (stepReads seqStep))
                 (pick ovProgress (stepProgress seqStep))).

(** The task text of a sequential step: the template with its variables
    filled in, followed by the chain instructions. *)
Definition sequentialTask (originalTask : option string)
    (chainDir stepTemplate : string) (behavior : ResolvedStepBehavior)
    (st : LoopState) : string :=
  let templateHasPrevious := JS.includes "{previous}" stepTemplate in
  let isFirstProgress := progress behavior && negb (progressCreated st) in
  substitute stepTemplate originalTask (prev st) chainDir
  ++ buildChainInstructions behavior chainDir isFirstProgress
       (if templateHasPrevious then None else Some (prev st)).

(** A sequential step whose agent is registered and whose template is
    [stepTemplate]. *)
Definition sequentialRun (p : ChainExecutionParams)
    (originalTask : option string) (chainDir : string)
    (tuiBehaviorOverrides : option (list (option StepOverrides)))
    (stepIndex : nat) (seqStep : SequentialStep) (stepTemplate : string)
    (agentConfig : AgentConfig) (st : LoopState) : StepOutcome :=
      let behavior :=
        sequentialBehavior tuiBehaviorOverrides stepIndex seqStep
          agentConfig in
      let isFirstProgress :=
        progress behavior && negb (progressCreated st) in
      let progressCreated' :=
        if isFirstProgress then true else progressCreated st in
      let stepTask :=
        sequentialTask originalTask chainDir stepTemplate behavior st in
      let '(r, fx) :=
        Execution.runSync spawnPi (agents p) (agent seqStep) stepTask
          (Execution.mkOptions (Some (globalTaskIndex st)) None) in
      let st1 :=
        mkLoop (loopResults st ++ [r])%list (prev st)
          (S (globalTaskIndex st)) progressCreated'
          (allProgress st ++ collectProgress [r])%list
          (trace st ++ fx)%list in
      if negb (Z.eqb (Execution.exitCode r) 0) then
        Halt (Resolved
                (failureResult p chainDir stepIndex
                   (if JS.truthyOpt (Execution.error r)
                    then JS.nullish (Execution.error r) ""
                    else "Chain failed")
                   st1))
             (trace st1)
      else
        Continue
          (mkLoop (loopResults st1)
             (getFinalOutput (Execution.messages r))
             (globalTaskIndex st1) (progressCreated st1)
             (allProgress st1) (trace st1)).

(** The sequential branch of the step loop: the agent is looked up first;
    [stepTemplates] is [templates[stepIndex]], and using it as a string
    fails when it is missing or is not one. *)
Definition sequentialStep (p : ChainExecutionParams)
    (originalTask : option string) (chainDir : string)
    (tuiBehaviorOverrides : option (list (option StepOverrides)))
    (stepIndex : nat) (seqStep : SequentialStep)
    (stepTemplates : option ResolvedTemplate) (st : LoopState)
  : StepOutcome :=
  match findAgent (agents p) (agent seqStep) with
  | None =>
      Halt (unknownAgentError (agent seqStep))
           (trace st ++ [Fx.RmDir chainDir])%list
  | Some agentConfig =>
      match stepTemplates with
      | Some (TemplateOne stepTemplate) =>
          sequentialRun p originalTask chainDir tuiBehaviorOverrides
            stepIndex seqStep stepTemplate agentConfig st
      | Some (TemplateMany _) | None => Halt (Rejected "TypeError") (trace st)
      end
  end.

(** The task text of the parallel task at [taskIndex]: its template with
    the variables filled in, followed by the chain instructions. *)
Definition parallelTask (originalTask : option string) (chainDir : string)
    (parallelTemplates : nat -> option string)
    (parallelBehaviors : list ResolvedStepBehavior)
    (previous : string) (taskIndex : nat) : string :=
  let taskTemplate :=
    JS.nullish (parallelTemplates taskIndex) "{previous}" in
  let templateHasPrevious := JS.includes "{previous}" taskTemplate in
  (* [parallelBehaviors] has one entry per task, so the lookup succeeds
     for every index the callback is called with *)
  let behavior :=
    JS.nullish (parallelBehaviors !! taskIndex)
      (mkBehavior OutFalse ReadsFalse false) in
  substitute taskTemplate originalTask previous chainDir
  ++ buildChainInstructions behavior chainDir false
       (if templateHasPrevious then None else Some previous).

(** The [runSync] call of the parallel task at [taskIndex]. *)
Definition parallelRun (p : ChainExecutionParams)
    (originalTask : option string) (chainDir : string)
    (parallelTemplates : nat -> option string)
    (parallelBehaviors : list ResolvedStepBehavior)
    (previous : string) (baseIndex : nat)
    (task : ParallelTaskItem) (taskIndex : nat)
  : Execution.SingleResult * list Fx.Effect :=
  Execution.runSync spawnPi (agents p) (agent task)
    (parallelTask originalTask chainDir parallelTemplates parallelBehaviors
       previous taskIndex)
    (Execution.mkOptions (Some (baseIndex + taskIndex)) None).

(** The callback passed to [mapConcurrent], up to [await runSync(...)],
    and from there on. *)
Definition taskStart (p : ChainExecutionParams)
    (originalTask : option string) (chainDir : string)
    (failFast : bool) (parallelTemplates : nat -> option string)
    (parallelBehaviors : list ResolvedStepBehavior)
    (previous : string) (baseIndex : nat)
    (g : GroupState) (task : ParallelTaskItem) (taskIndex : nat)
  : GroupState * (Execution.SingleResult + Execution.SingleResult) :=
  if aborted g && failFast then (g, inl (skippedResult task))
  else
    let '(r, fx) :=
      parallelRun p originalTask chainDir parallelTemplates
        parallelBehaviors previous baseIndex task taskIndex in
    (mkGroup (aborted g) (groupTrace g ++ fx)%list, inr r).

Definition taskResume (failFast : bool) (g : GroupState)
    (r : Execution.SingleResult)
  : GroupState * Execution.SingleResult :=
  if negb (Z.eqb (Execution.exitCode r) 0) && failFast
  then (mkGroup true (groupTrace g), r)
  else (g, r).

(** [templates[stepIndex]] read as the templates of a parallel step. *)
Definition parallelTemplatesOf (t : ResolvedTemplate) (i : nat)
  : option string :=
  match t with
  | TemplateMany ts => ts !! i
  | TemplateOne s =>
      match String.get i s with
      | Some c => Some (String c "")
      | None => None
      end
  end.

(** The parallel branch of the step loop from [mapConcurrent] on: [fx] are
    the effects so far, [created] says whether the progress file exists. *)
Definition parallelGroup (p : ChainExecutionParams)
    (originalTask : option string) (chainDir : string)
    (stepIndex : nat) (step : ParallelStep)
    (parallelTemplates : nat -> option string)
    (parallelBehaviors : list ResolvedStepBehavior)
    (created : bool) (fx : list Fx.Effect) (st : LoopState)
  : StepOutcome :=
  let concurrency := JS.nullish (concurrency step) MAX_CONCURRENCY in
  let failFast := JS.nullish (failFast step) false in
  let '(g, slots) :=
    Utils.mapConcurrent
      (taskStart p originalTask chainDir failFast parallelTemplates
         parallelBehaviors (prev st) (globalTaskIndex st))
      (taskResume failFast)
      (completionOrder stepIndex) (parallel step) concurrency
      (mkGroup false fx) in
  match mapM id slots with
  | None => Halt (Rejected "TypeError") (groupTrace g)
  | Some parallelResults =>
      let st1 :=
        mkLoop (loopResults st ++ parallelResults)%list (prev st)
          (globalTaskIndex st + length (parallel step))
          created
          (allProgress st ++ collectProgress parallelResults)%list
          (groupTrace g) in
      match failureLinesFrom 0 parallelResults with
      | _ :: _ as failures =>
          let errorMsg :=
            "Parallel step " ++ JS.numToString (stepIndex + 1)
            ++ " failed:"
            ++ String "010" (JS.join (String "010" "") failures) in
          Halt (Resolved
                  (failureResult p chainDir stepIndex errorMsg st1))
               (trace st1)
      | [] =>
          let taskResults :=
            imap (fun i r =>
                    mkParallelTaskResult (Execution.agent r) i
                      (getFinalOutput (Execution.messages r))
                      (Execution.exitCode r) (Execution.error r))
                 parallelResults in
          Continue
            (mkLoop (loopResults st1)
               (aggregateParallelOutputs taskResults)
               (globalTaskIndex st1) (progressCreated st1)
               (allProgress st1) (trace st1))
      end
  end.

(** The parallel branch of the step loop.  [stepTemplates] is
    [templates[stepIndex]]; when it is missing, the callback of the first
    task fails on reading its template, before any worker is started. *)
Definition parallelStep (p : ChainExecutionParams)
    (originalTask : option string) (chainDir : string)
    (stepIndex : nat) (step : ParallelStep)
    (stepTemplates : option ResolvedTemplate) (st : LoopState)
  : StepOutcome :=
  let agentNames := map agent (parallel step) in
  let fx1 :=
    (trace st
     ++ createParallelDirs chainDir stepIndex (length (parallel step))
          agentNames)%list in
  match resolveParallelBehaviors (parallel step) (agents p) stepIndex with
  | inr message => Halt (Rejected message) fx1
  | inl parallelBehaviors =>
      let anyNeedsProgress := existsb progress parallelBehaviors in
      let createNow := anyNeedsProgress && negb (progressCreated st) in
      let fx2 :=
        if createNow
        then (fx1 ++ [Fx.WriteFile (JS.pathJoin [chainDir; "progress.md"])
                        progressTemplate])%list
        else fx1 in
      let progressCreated' :=
        if createNow then true else progressCreated st in
      match stepTemplates, parallel step with
      | None, _ :: _ => Halt (Rejected "TypeError") fx2
      | _, _ =>
          parallelGroup p originalTask chainDir stepIndex step
            (parallelTemplatesOf
               (JS.nullish stepTemplates (TemplateMany [])))
            parallelBehaviors progressCreated' fx2 st
      end
  end.

Definition chainStep (p : ChainExecutionParams)
    (originalTask : option string) (chainDir : string)
    (templates : list ResolvedTemplate)
    (tuiBehaviorOverrides : option (list (option StepOverrides)))
    (stepIndex : nat) (step : ChainStep) (st : LoopState)
  : StepOutcome :=
  match step with
  | Parallel ps =>
      parallelStep p originalTask chainDir stepIndex ps
        (templates !! stepIndex) st
  | Sequential seqStep =>
      sequentialStep p originalTask chainDir tuiBehaviorOverrides stepIndex
        seqStep (templates !! stepIndex) st
  end.

(** The [for] loop over the steps from [stepIndex] on. *)
Fixpoint stepLoop (p : ChainExecutionParams)
    (originalTask : option string) (chainDir : string)
    (templates : list ResolvedTemplate)
    (tuiBehaviorOverrides : option (list (option StepOverrides)))
    (stepIndex : nat) (steps : list ChainStep) (st : LoopState)
  : StepOutcome :=
  match steps with
  | [] => Continue st
  | step :: rest =>
      match chainStep p originalTask chainDir templates
              tuiBehaviorOverrides stepIndex step st with
      | Continue st' =>
          stepLoop p originalTask chainDir templates
            tuiBehaviorOverrides (S stepIndex) rest st'
      | Halt o fx => Halt o fx
      end
  end.

Definition completedResult (p : ChainExecutionParams)
    (chainDir : string) (st : LoopState) : ChainExecutionResult :=
  mkChainResult
    (buildChainSummary (chain p) (loopResults st) chainDir "completed"
       None)
    (mkDetails "chain" (loopResults st)
       (if JS.nullish (includeProgress p) false
        then Some (allProgress st) else None)
       (Some (chainAgentsOf (chain p))) (Some (length (chain p))) None)
    false.

(** The agent configs of the sequential steps, or the first agent name
    that is not registered. *)
Fixpoint loadAgentConfigs (agents : list AgentConfig)
    (steps : list ChainStep) : list AgentConfig + string :=
  match steps with
  | [] => inl []
  | step :: rest =>
      let wanted := match step with
                    | Sequential s => agent s
                    | Parallel _ => ""
                    end in
      match findAgent agents wanted with
      | None => inr wanted
      | Some config =>
          match loadAgentConfigs agents rest with
          | inl cs => inl (config :: cs)
          | inr e => inr e
          end
      end
  end.

Definition seqOverrides (step : ChainStep) : StepOverrides :=
  match step with
  | Sequential s => overridesOf s
  | Parallel _ => mkOverrides None None None
  end.

(** What [Array.prototype.join] makes of a step object. *)
Definition stepToString (step : ChainStep) : string := "[object Object]".

Definition flatTemplate (t : ResolvedTemplate) : string :=
  match t with TemplateOne s => s | TemplateMany _ => "" end.

Definition initialLoop (fx : list Fx.Effect) : LoopState :=
  mkLoop [] "" 0 false [] fx.

Definition finishLoop (p : ChainExecutionParams) (chainDir : string)
    (o : StepOutcome) : Completion ChainExecutionResult * list Fx.Effect :=
  match o with
  | Continue st => (Resolved (completedResult p chainDir st), trace st)
  | Halt out fx => (out, fx)
  end.

(** [clarify !== false && ctx.hasUI && !hasParallelSteps] *)
Definition shouldClarify (p : ChainExecutionParams) : bool :=
  negb (match clarify p with Some false => true | _ => false end)
  && hasUI p && negb (existsb isParallelStep (chain p)).

(** [executeChain] up to the step loop: either it is over already
    ([Early]), or the loop starts with the original task, the templates
    and the behaviour overrides of the clarification dialog. *)
Inductive Preparation : Type :=
| Early (outcome : Completion ChainExecutionResult)
        (fx : list Fx.Effect)
| Ready (originalTask : option string)
        (templates : list ResolvedTemplate)
        (tuiBehaviorOverrides : option (list (option StepOverrides))).

Definition prepare (p : ChainExecutionParams) : Preparation :=
  match chain p with
  | [] => Early (Rejected "TypeError") []
  | firstStep :: _ =>
      let first :=
        match firstStep with
        | Parallel ps =>
            match parallel ps with
            | t :: _ => Some (task t)
            | [] => None
            end
        | Sequential s => Some (task s)
        end in
      match first with
      | None => Early (Rejected "TypeError") []
      | Some originalTask =>
          let chainDir := chainDirOf (runId p) in
          let fx0 := [Fx.MkDir chainDir] in
          (* [resolveChainTemplates(chainSteps)]: the step objects stand
             where the agent names are expected, and the inline tasks and
             the settings are left out *)
          match resolveChainTemplates (map stepToString (chain p))
                  None None with
          | inr reason => Early (Rejected reason) fx0
          | inl resolved =>
          let templates := map TemplateOne resolved in
          if shouldClarify p then
            match loadAgentConfigs (agents p) (chain p) with
            | inr unknown =>
                Early (unknownAgentError unknown)
                      (fx0 ++ [Fx.RmDir chainDir])%list
            | inl agentConfigs =>
                let stepOverrides := map seqOverrides (chain p) in
                let resolvedBehaviors :=
                  zip_with resolveStepBehavior agentConfigs
                    stepOverrides in
                let flatTemplates := map flatTemplate templates in
                match uiCustom agentConfigs flatTemplates originalTask
                        chainDir resolvedBehaviors with
                | Some result =>
                    if confirmed result then
                      Ready originalTask
                        (map TemplateOne
                           (ChainExecution.templates result))
                        (Some (behaviorOverrides result))
                    else Early cancelled
                           (fx0 ++ [Fx.RmDir chainDir])%list
                | None =>
                    Early cancelled (fx0 ++ [Fx.RmDir chainDir])%list
                end
            end
          else Ready originalTask templates None
          end
      end
  end.

(** [executeChain] from the step loop on: the loop over the steps of the
    chain, started when the chain directory has been created, and what is
    returned after it. *)
Definition runSteps (p : ChainExecutionParams)
    (originalTask : option string) (templates : list ResolvedTemplate)
    (tuiBehaviorOverrides : option (list (option StepOverrides)))
  : Completion ChainExecutionResult * list Fx.Effect :=
  let chainDir := chainDirOf (runId p) in
  finishLoop p chainDir
    (stepLoop p originalTask chainDir templates tuiBehaviorOverrides 0
       (chain p) (initialLoop [Fx.MkDir chainDir])).

Definition executeChain (p : ChainExecutionParams)
  : Completion ChainExecutionResult * list Fx.Effect :=
  match prepare p with
  | Early outcome fx => (outcome, fx)
  | Ready originalTask templates tuiBehaviorOverrides =>
      runSteps p originalTask templates tuiBehaviorOverrides
  end.

End WithEnvironment.

End ChainExecution.

(* ===================================================================== *)
(** ** agent-scope.ts and the merge of the agent lists                   *)
(* ===================================================================== *)

Module Agents.

Import Settings.

Inductive AgentScope : Type := ScopeUser | ScopeProject | ScopeBoth.

(** [resolveExecutionAgentScope(scope)]: [scope] is any value; [None] is
    one that is not a string. *)
Definition resolveExecutionAgentScope (scope : option string) : AgentScope :=
  match scope with
  | Some s =>
      if String.eqb s "user" then ScopeUser
      else if String.eqb s "project" then ScopeProject
      else ScopeBoth
  | None => ScopeBoth
  end.

(** A [Map] with string keys: its entries in insertion order.
    [Map.prototype.set] replaces the value of a key that is present, where
    it stands, and adds a key that is not at the end. *)
Fixpoint mapSet {V} (m : list (string * V)) (k : string) (v : V)
  : list (string * V) :=
  match m with
  | [] => [(k, v)]
  | (k', v') :: rest =>
      if String.eqb k' k then (k, v) :: rest
      else (k', v') :: mapSet rest k v
  end.

(** [Map.prototype.get] *)
Fixpoint mapGet {V} (m : list (string * V)) (k : string) : option V :=
  match m with
  | [] => None
  | (k', v') :: rest => if String.eqb k' k then Some v' else mapGet rest k
  end.

(** [for (const agent of agents) agentMap.set(agent.name, agent)] *)
Definition setAll (m : list (string * AgentConfig))
    (agents : list AgentConfig) : list (string * AgentConfig) :=
  fold_left (fun m a => mapSet m (name a) a) agents m.

Definition mergeAgentsForScope (scope : AgentScope)
    (userAgents projectAgents : list AgentConfig) : list AgentConfig :=
  let agentMap :=
    match scope with
    | ScopeBoth => setAll (setAll [] userAgents) projectAgents
    | ScopeUser => setAll [] userAgents
    | ScopeProject => setAll [] projectAgents
    end in
  map snd agentMap.

End Agents.

(* ===================================================================== *)
(** ** The reserved arguments of the worker process                      *)
(* ===================================================================== *)

Module PiArgs.

Definition RESERVED_ARGS : list string :=
  ["--mode"; "-p"; "--print"; "--no-session"; "--session"].

(** The test of the inner loop of [validatePiArgs], over all reserved
    arguments. *)
Definition isReserved (arg : string) : bool :=
  existsb (fun reserved =>
             String.eqb arg reserved || JS.startsWith (reserved ++ "=") arg)
          RESERVED_ARGS.

Definition conflictMessage (arg : string) : string :=
  "piArgs conflict: " ++ String "034" arg ++ String "034" ""
  ++ " is reserved (internal to subagent spawning). "
  ++ "Reserved args: " ++ JS.join ", " RESERVED_ARGS.

(** [validatePiArgs]: [Some message] is [throw new Error(message)]. *)
Fixpoint validatePiArgs (piArgs : list string) : option string :=
  match piArgs with
  | [] => None
  | arg :: rest =>
      if isReserved arg then Some (conflictMessage arg)
      else validatePiArgs rest
  end.

End PiArgs.

(* ===================================================================== *)
(** ** skills.ts                                                         *)
(* ===================================================================== *)

Module Skills.

Record ResolvedSkill : Type := mkSkill {
  skillName : string;
  skillPath : string;
  content : string;
  source : string
}.

Definition MAX_CACHE_SIZE : nat := 50.

(** [content.replace(/\r\n/g, "\n")] *)
Fixpoint normalizeNewlines (s : string) : string :=
  match s with
  | String c rest =>
      match rest with
      | String d rest' =>
          if (Ascii.eqb c "013" && Ascii.eqb d "010")%bool
          then String "010" (normalizeNewlines rest')
          else String c (normalizeNewlines rest)
      | EmptyString => s
      end
  | EmptyString => EmptyString
  end.

(** [s.indexOf(needle, from)], with [i] the position of [s] in the string
    searched. *)
Fixpoint indexOfFrom (needle : string) (from i : nat) (s : string)
  : option nat :=
  if (Nat.leb from i && JS.startsWith needle s)%bool then Some i
  else match s with
       | EmptyString => None
       | String _ rest => indexOfFrom needle from (S i) rest
       end.

(** [s.slice(n)] for [n >= 0] *)
Fixpoint sliceFrom (n : nat) (s : string) : string :=
  match n, s with
  | 0, _ => s
  | S n', String _ rest => sliceFrom n' rest
  | S _, EmptyString => EmptyString
  end.

Definition stripSkillFrontmatter (content : string) : string :=
  let normalized := normalizeNewlines content in
  if negb (JS.startsWith "---" normalized) then normalized
  else
    match indexOfFrom (String "010" "---") 3 0 normalized with
    | None => normalized
    | Some endIndex => JS.trim (sliceFrom (endIndex + 4) normalized)
    end.

Section WithFiles.

(** The file system as [readSkill] sees it: the modification time of a
    path that [fs.statSync] accepts, and the text of one that
    [fs.readFileSync] can read.  Modification times are compared with
    [===]. *)
Context {Stamp : Type} `{EqDecision Stamp}.
Variable statSync : string -> option Stamp.
Variable readFileSync : string -> option string.

(** [skillCache]: a [Map] from paths to the modification time and the
    skill read. *)
Definition SkillCache : Type := list (string * (Stamp * ResolvedSkill)).

(** The eviction after [skillCache.set]: beyond [MAX_CACHE_SIZE] entries
    the first key goes, when it is not the empty string. *)
Definition evict (cache : SkillCache) : SkillCache :=
  if Nat.ltb MAX_CACHE_SIZE (length cache) then
    match cache with
    | (firstKey, _) :: rest => if JS.truthy firstKey then rest else cache
    | [] => cache
    end
  else cache.

(** [readSkill]: the skill, or [None] where the source returns
    [undefined], and the cache afterwards. *)
Definition readSkill (name path src : string) (cache : SkillCache)
  : option ResolvedSkill * SkillCache :=
  match statSync path with
  | None => (None, cache)
  | Some mtime =>
      let fresh :=
        match readFileSync path with
        | None => (None, cache)
        | Some raw =>
            let skill := mkSkill name path (stripSkillFrontmatter raw) src in
            (Some skill, evict (Agents.mapSet cache path (mtime, skill)))
        end in
      match Agents.mapGet cache path with
      | Some (cachedTime, cachedSkill) =>
          if bool_decide (cachedTime = mtime) then (Some cachedSkill, cache)
          else fresh
      | None => fresh
      end
  end.

End WithFiles.

(** [new Set(l)] spread into an array: the first occurrences, in order;
    [seen] holds the elements met before. *)
Fixpoint dedupeFrom (seen l : list string) : list string :=
  match l with
  | [] => []
  | x :: rest =>
      if existsb (String.eqb x) seen then dedupeFrom seen rest
      else x :: dedupeFrom (x :: seen) rest
  end.

Definition dedupe (l : list string) : list string := dedupeFrom [] l.

(** The argument of [normalizeSkillInput], and its result. *)
Inductive SkillInput : Type :=
| InputBool (b : bool)
| InputUndefined
| InputString (s : string)
| InputArray (l : list string).

Inductive SkillSetting : Type :=
| SkillsOff
| SkillsDefault
| SkillsList (l : list string).

Definition cleanNames (l : list string) : list string :=
  dedupe (List.filter JS.truthy (map JS.trim l)).

Definition normalizeSkillInput (input : SkillInput) : SkillSetting :=
  match input with
  | InputBool false => SkillsOff
  | InputBool true | InputUndefined => SkillsDefault
  | InputArray l => SkillsList (cleanNames l)
  | InputString s => SkillsList (cleanNames (JS.split "," s))
  end.

(** [buildSkillInjection] *)
Definition buildSkillInjection (skills : list ResolvedSkill) : string :=
  match skills with
  | [] => ""
  | _ =>
      JS.join (String "010" (String "010" ""))
        (map (fun s =>
                "<skill name=" ++ String "034" (skillName s)
                ++ String "034" ">" ++ String "010" (content s)
                ++ String "010" "</skill>")
             skills)
  end.

End Skills.

(* ===================================================================== *)
(** ** The specification's vocabulary and its scenarios                  *)
(* ===================================================================== *)

Module Spec.

Import Settings.

(** [override ?? agentDefault ?? disabled], in the words of the
    specification (section 4.1). *)
Definition precedence {A} (override agentDefault : option A) (disabled : A)
  : A :=
  match override with
  | Some v => v
  | None => match agentDefault with
            | Some d => d
            | None => disabled
            end
  end.

(** An output override of a parallel task, placed under the task's
    subdirectory unless it is [false] or an absolute path. *)
Definition namespacedOverride (subdir : string) (o : OutputSetting)
  : OutputSetting :=
  match o with
  | OutFalse => OutFalse
  | OutPath p => if JS.isAbsolute p then OutPath p
                 else OutPath (subdir ++ "/" ++ p)
  end.

(** An agent's default output, placed under the task's subdirectory; an
    empty default is no default. *)
Definition namespacedDefault (subdir : string) (d : option string)
  : option OutputSetting :=
  match d with
  | Some p => if JS.truthy p then Some (OutPath (subdir ++ "/" ++ p))
              else None
  | None => None
  end.

(** A step references an unknown agent when one of its agent names is not
    in the registry. *)
Definition isUnknown (agents : list AgentConfig) (agentName : string)
  : bool :=
  match findAgent agents agentName with
  | None => true
  | Some _ => false
  end.

Definition referencesUnknown (agents : list AgentConfig) (step : ChainStep)
  : bool :=
  existsb (isUnknown agents) (getStepAgents step).

(** An agent that declares no model and no defaults. *)
Definition plainAgent (n : string) : AgentConfig :=
  mkAgentConfig n None None None None None.

(** A step that names an agent and, possibly, a task. *)
Definition plainStep (a : string) (t : option string) : SequentialStep :=
  mkStep a t None None None None.

(** Scenario E of the specification. *)
Definition scenarioE : list ParallelTaskResult :=
  [mkParallelTaskResult "a" 0 "ok" 0 None;
   mkParallelTaskResult "b" 1 "" 1 (Some "timeout")].

(** The same tasks, as parallel-utils.test.ts passes them. *)
Definition scenarioEOutputs : list ParallelUtils.TaskOutput :=
  [ParallelUtils.mkTaskOutput "a" "ok" 0 None;
   ParallelUtils.mkTaskOutput "b" "" 1 (Some "timeout")].

(** A parallel task that overrides its output with a relative path. *)
Definition relativeOverrideTask : ParallelTaskItem :=
  mkStep "a" None None (Some (OutPath "out.md")) None None.

(** The error text of a hidden failure, built from the slot's tool name,
    its exit code and the first characters of the tool's output. *)
Definition hiddenFailureText (toolName : string) (c : Z)
    (details : option string) : string :=
  match details with
  | Some d =>
      if JS.truthy d
      then toolName ++ " failed (exit " ++ JS.numberToString c ++ "): "
           ++ d
      else toolName ++ " failed with exit code " ++ JS.numberToString c
  | None => toolName ++ " failed with exit code " ++ JS.numberToString c
  end.

(** A tool result as the worker reports it. *)
Definition toolResult (toolName text : string) (isError : bool)
  : Execution.Line :=
  Execution.Parsed
    (Execution.ToolResultEnd
       (Some (Execution.mkMessage "toolResult" None None None text
                (Some toolName) isError))
       None).

(** An assistant message without usage data. *)
Definition assistantMessage (text : string) (errorMessage : option string)
  : Execution.Line :=
  Execution.Parsed
    (Execution.MessageEnd
       (Some (Execution.mkMessage "assistant" None None errorMessage text
                None false))).

(** A stand-in for [String.prototype.replace] with a global pattern, for
    the scenarios: every occurrence of the literal [pattern] is replaced by
    [replacement], taken literally. *)
Fixpoint replaceLiteral (fuel : nat) (pattern replacement s : string)
  : string :=
  match fuel with
  | 0 => s
  | S fuel' =>
      if JS.truthy pattern && JS.startsWith pattern s
      then replacement
           ++ replaceLiteral fuel' pattern replacement
                (substring (String.length pattern) (String.length s) s)
      else match s with
           | EmptyString => EmptyString
           | String c rest =>
               String c (replaceLiteral fuel' pattern replacement rest)
           end
  end.

Definition replaceAll (pattern replacement s : string) : string :=
  replaceLiteral (String.length s) pattern replacement s.

(** Workers that all exit 0 without output. *)
Definition allSucceed (agentName task : string) (index : nat)
  : Execution.ProcRun :=
  Execution.mkProcRun [] "" (Some 0%Z).

(** Workers that all exit 1 with a message on standard error. *)
Definition allCrash (agentName task : string) (index : nat)
  : Execution.ProcRun :=
  Execution.mkProcRun [] "Agent crashed" (Some 1%Z).

(** Workers of which the one with task index 1 exits 2. *)
Definition secondFails (agentName task : string) (index : nat)
  : Execution.ProcRun :=
  if Nat.eqb index 1 then Execution.mkProcRun [] "boom" (Some 2%Z)
  else Execution.mkProcRun [] "" (Some 0%Z).

(** Stand-ins for the collaborators of [executeChain] that are not among
    the sources. *)
Definition lastText (messages : list Execution.Message) : string :=
  match List.rev messages with
  | m :: _ => Execution.text m
  | [] => ""
  end.

Definition statusOnly (steps : list ChainStep)
    (results : list Execution.SingleResult) (chainDir status : string)
    (failed : option (nat * string)) : string :=
  status.

Definition declineDialog (agentConfigs : list AgentConfig)
    (templates : list string) (originalTask : option string)
    (chainDir : string) (behaviors : list ResolvedStepBehavior)
  : option ChainExecution.ChainClarifyResult :=
  None.

(** [executeChain] in the environment of the scenarios. *)
Definition runChain (spawnPi : string -> string -> nat -> Execution.ProcRun)
    (order : list nat) (p : ChainExecution.ChainExecutionParams)
  : ChainExecution.Completion ChainExecution.ChainExecutionResult
    * list Fx.Effect :=
  ChainExecution.executeChain spawnPi lastText statusOnly declineDialog
    replaceAll 4 (fun _ => order) p.

(** Scenario C of the specification: a two-step chain. *)
Definition twoSteps : ChainExecution.ChainExecutionParams :=
  ChainExecution.mkParams
    [Sequential (plainStep "step1" (Some "Do first thing"));
     Sequential (plainStep "step2" None)]
    [plainAgent "step1"; plainAgent "step2"]
    false "run" None (Some false).

(** A chain whose second step names an agent that is not registered. *)
Definition brokenReference : ChainExecution.ChainExecutionParams :=
  ChainExecution.mkParams
    [Sequential (plainStep "scout" (Some "Start"));
     Sequential (plainStep "nonexistent" None)]
    [plainAgent "scout"]
    false "run" None (Some false).

(** A fail-fast group of five tasks. *)
Definition fiveTasks : list ParallelTaskItem :=
  [plainStep "a" None; plainStep "b" None; plainStep "a" None;
   plainStep "b" None; plainStep "a" None].

Definition groupParams : ChainExecution.ChainExecutionParams :=
  ChainExecution.mkParams
    [Parallel (mkParallel fiveTasks (Some 2) (Some true))]
    [plainAgent "a"; plainAgent "b"]
    false "run" None (Some false).

(** The callback of that group, the pool when task 1 (the one that fails)
    has just completed first, and the pool when the group is over. *)
Definition groupStart :=
  ChainExecution.taskStart secondFails replaceAll groupParams None
    (ChainExecution.chainDirOf "run") true (fun _ => None)
    (replicate 5 (mkBehavior OutFalse ReadsFalse false)) "" 0.

(** The [runSync] call of a task of that group. *)
Definition groupRun :=
  ChainExecution.parallelRun secondFails replaceAll groupParams None
    (ChainExecution.chainDirOf "run") (fun _ => None)
    (replicate 5 (mkBehavior OutFalse ReadsFalse false)) "" 0.

Definition groupPool1 :=
  Utils.settle (ChainExecution.taskResume true) 1
    (Utils.poolAfter groupStart (ChainExecution.taskResume true) []
       fiveTasks 2 (ChainExecution.mkGroup false [])).

Definition groupFinal :=
  Utils.drain groupStart (ChainExecution.taskResume true)
    (length fiveTasks) [0] fiveTasks
    (Utils.refill groupStart fiveTasks groupPool1).

(** Scenario F of the specification: the worker exits 0 after an
    error-marked tool result that no later tool result clears. *)
Definition hiddenFailure (agentName task : string) (index : nat)
  : Execution.ProcRun :=
  Execution.mkProcRun
    [Execution.Parsed (Execution.ToolExecutionStart (Some "write") "out.md");
     Execution.Parsed Execution.ToolExecutionEnd;
     toolResult "write" "Permission denied" true]
    "" (Some 0%Z).

(** A worker that exits 0 after an assistant message that carries an error
    message and an error-marked tool result. *)
Definition errorThenToolFailure (agentName task : string) (index : nat)
  : Execution.ProcRun :=
  Execution.mkProcRun
    [assistantMessage "" (Some "rate limited");
     toolResult "write" "connection refused" true]
    "" (Some 0%Z).

End Spec.

(* ===================================================================== *)
(** * Properties of settings.ts                                          *)
(* ===================================================================== *)

Module SettingsFacts.

Import Settings Spec.

Lemma resolveParallelBehaviorsFrom_lookup (agentConfigs : list AgentConfig)
    (stepIndex : nat) (tasks : list ParallelTaskItem) :
  forall (k : nat) (bs : list ResolvedStepBehavior),
    resolveParallelBehaviorsFrom k tasks agentConfigs stepIndex = inl bs ->
    length bs = length tasks /\
    forall (i : nat) (t : ParallelTaskItem),
      tasks !! i = Some t ->
      exists cfg,
        findAgent agentConfigs (agent t) = Some cfg /\
        bs !! i = Some (resolveParallelTask cfg t stepIndex (k + i)).
Proof.
  induction tasks as [|t0 tasks IH]; intros k bs H; simpl in H.
  - injection H as <-. split; [reflexivity|]. intros i t Hi. discriminate.
  - destruct (findAgent agentConfigs (agent t0)) as [cfg|] eqn:Hf;
      [|discriminate].
    destruct (resolveParallelBehaviorsFrom (S k) tasks agentConfigs stepIndex)
      as [bs'|e] eqn:Hr; [|discriminate].
    injection H as <-.
    destruct (IH _ _ Hr) as [Hlen Hall].
    split; [simpl; congruence|].
    intros [|i] t Hi; simpl in Hi.
    + injection Hi as <-. exists cfg. split; [assumption|].
      simpl. do 3 f_equal. lia.
    + destruct (Hall i t Hi) as (cfg' & Hf' & Hb).
      exists cfg'. split; [assumption|]. simpl. rewrite Hb.
      do 2 f_equal. lia.
Qed.

Lemma resolveParallelBehaviorsFrom_unknown (agentConfigs : list AgentConfig)
    (stepIndex : nat) (tasks : list ParallelTaskItem) :
  forall (k : nat),
    existsb (fun t => match findAgent agentConfigs (agent t) with
                      | None => true
                      | Some _ => false
                      end) tasks = true ->
    exists t,
      In t tasks /\ findAgent agentConfigs (agent t) = None /\
      resolveParallelBehaviorsFrom k tasks agentConfigs stepIndex
      = inr ("Unknown agent: " ++ agent t).
Proof.
  induction tasks as [|t0 tasks IH]; intros k H; simpl in H.
  - discriminate.
  - simpl. destruct (findAgent agentConfigs (agent t0)) as [cfg|] eqn:Hf.
    + simpl in H. destruct (IH (S k) H) as (t & Hin & Hnone & Hr).
      exists t. rewrite Hr. auto.
    + exists t0. auto.
Qed.

(** C2 (as the code has it).  For a sequential step every field of the
    resolved behaviour is the step's override when one is supplied (an
    explicit [false] included), otherwise the agent's default, otherwise
    disabled.  For a task of a parallel group, reads and progress follow the
    same rule; the output follows the same precedence, with a relative
    override and a non-empty agent default placed under
    [parallel-{stepIndex}/{taskIndex}-{agent}/], and an absolute override or
    an explicit [false] kept as it is. *)
Theorem resolved_behavior_precedence :
  (forall (cfg : AgentConfig) (ov : StepOverrides),
      output (resolveStepBehavior cfg ov)
      = precedence (ovOutput ov) (option_map OutPath (agentOutput cfg))
          OutFalse /\
      reads (resolveStepBehavior cfg ov)
      = precedence (ovReads ov) (option_map ReadsList (defaultReads cfg))
          ReadsFalse /\
      progress (resolveStepBehavior cfg ov)
      = precedence (ovProgress ov) (defaultProgress cfg) false) /\
  (forall (tasks : list ParallelTaskItem) (agentConfigs : list AgentConfig)
          (stepIndex : nat) (bs : list ResolvedStepBehavior),
      resolveParallelBehaviors tasks agentConfigs stepIndex = inl bs ->
      length bs = length tasks /\
      forall (i : nat) (t : ParallelTaskItem),
        tasks !! i = Some t ->
        exists cfg b,
          findAgent agentConfigs (agent t) = Some cfg /\
          bs !! i = Some b /\
          output b
          = precedence
              (option_map
                 (namespacedOverride (parallelSubdir stepIndex i (agent t)))
                 (stepOutput t))
              (namespacedDefault (parallelSubdir stepIndex i (agent t))
                 (agentOutput cfg))
              OutFalse /\
          reads b
          = precedence (stepReads t)
              (option_map ReadsList (defaultReads cfg)) ReadsFalse /\
          progress b
          = precedence (stepProgress t) (defaultProgress cfg) false).
Proof.
  split.
  - intros cfg ov. unfold resolveStepBehavior, precedence. simpl.
    destruct (ovOutput ov), (ovReads ov), (ovProgress ov),
      (agentOutput cfg), (defaultReads cfg), (defaultProgress cfg);
      auto.
  - intros tasks agentConfigs stepIndex bs H.
    destruct (resolveParallelBehaviorsFrom_lookup _ _ _ _ _ H) as [Hlen Hall].
    split; [assumption|].
    intros i t Hi. destruct (Hall i t Hi) as (cfg & Hf & Hb).
    exists cfg, (resolveParallelTask cfg t stepIndex i).
    split; [assumption|]. split; [exact Hb|].
    unfold resolveParallelTask, precedence, namespacedOverride,
      namespacedDefault. simpl.
    split; [|split].
    + destruct (stepOutput t) as [[|q]|]; simpl.
      * reflexivity.
      * destruct (JS.isAbsolute q); reflexivity.
      * destruct (agentOutput cfg) as [q|]; [|reflexivity].
        destruct (JS.truthy q); reflexivity.
    + destruct (stepReads t), (defaultReads cfg); reflexivity.
    + destruct (stepProgress t), (defaultProgress cfg); reflexivity.
Qed.

Lemma resolved_behavior_precedence_witness :
  exists cfg b,
    findAgent [plainAgent "a"] (agent relativeOverrideTask) = Some cfg /\
    [resolveParallelTask (plainAgent "a") relativeOverrideTask 0 0] !! 0
    = Some b /\
    output b
    = precedence
        (option_map
           (namespacedOverride (parallelSubdir 0 0 (agent relativeOverrideTask)))
           (stepOutput relativeOverrideTask))
        (namespacedDefault (parallelSubdir 0 0 (agent relativeOverrideTask))
           (agentOutput cfg))
        OutFalse /\
    reads b
    = precedence (stepReads relativeOverrideTask)
        (option_map ReadsList (defaultReads cfg)) ReadsFalse /\
    progress b
    = precedence (stepProgress relativeOverrideTask) (defaultProgress cfg)
        false.
Proof.
  exact (proj2
           (proj2 resolved_behavior_precedence [relativeOverrideTask]
              [plainAgent "a"] 0
              [resolveParallelTask (plainAgent "a") relativeOverrideTask 0 0]
              eq_refl)
           0 relativeOverrideTask eq_refl).
Defined.

(** C2, as stated, fails for a task of a parallel group: the relative
    override [out.md] of task 0 of step 0 resolves to
    [parallel-0/0-a/out.md], not to the override itself. *)
Lemma parallel_override_is_namespaced :
  stepOutput relativeOverrideTask = Some (OutPath "out.md") /\
  resolveParallelBehaviors [relativeOverrideTask] [plainAgent "a"] 0
  = inl [mkBehavior (OutPath "parallel-0/0-a/out.md") ReadsFalse false] /\
  OutPath "parallel-0/0-a/out.md" <> OutPath "out.md".
Proof.
  split; [reflexivity|]. split; [reflexivity|]. discriminate.
Qed.

Lemma append_assoc (a b c : string) : (a ++ b) ++ c = a ++ (b ++ c).
Proof. induction a as [|x a IH]; simpl; [reflexivity|now rewrite IH]. Qed.

Lemma append_empty_r (a : string) : a ++ "" = a.
Proof. induction a as [|x a IH]; simpl; [reflexivity|now rewrite IH]. Qed.

Lemma startsWith_append (n s : string) : JS.startsWith n (n ++ s) = true.
Proof.
  induction n as [|c n IH]; simpl; [reflexivity|].
  rewrite Ascii.eqb_refl. exact IH.
Qed.

Lemma includes_unfold (n s : string) :
  JS.includes n s
  = (JS.startsWith n s
     || match s with
        | EmptyString => false
        | String _ rest => JS.includes n rest
        end)%bool.
Proof. destruct s; reflexivity. Qed.

Lemma includes_append (n a b : string) : JS.includes n (a ++ n ++ b) = true.
Proof.
  induction a as [|c a IH]; simpl.
  - rewrite includes_unfold, startsWith_append. reflexivity.
  - rewrite IH. apply orb_true_r.
Qed.

Lemma join_cons (sep p : string) (rest : list string) :
  exists post, JS.join sep (p :: rest) = p ++ post /\
               (rest <> [] -> post = sep ++ JS.join sep rest).
Proof.
  destruct rest as [|q rest].
  - exists "". simpl. rewrite append_empty_r. split; [reflexivity|congruence].
  - exists (sep ++ JS.join sep (q :: rest)). split; [reflexivity|auto].
Qed.

Lemma join_lookup (sep : string) (l : list string) :
  forall (i : nat) (x : string),
    l !! i = Some x ->
    exists pre post, JS.join sep l = pre ++ x ++ post.
Proof.
  induction l as [|p rest IH]; intros i x Hi; [discriminate|].
  destruct i as [|i]; simpl in Hi.
  - injection Hi as <-. destruct (join_cons sep p rest) as (post & E & _).
    exists "", post. exact E.
  - destruct (IH i x Hi) as (pre & post & E).
    destruct (join_cons sep p rest) as (post' & E' & Hne).
    assert (rest <> []) as Hrest by (intros ->; discriminate).
    rewrite E', (Hne Hrest), E.
    exists (p ++ sep ++ pre), post.
    now rewrite !append_assoc.
Qed.

Lemma parallelBlocksFrom_imap (results : list ParallelTaskResult) :
  forall k,
    parallelBlocksFrom k results
    = imap (fun i r => parallelBlock (k + i) r) results.
Proof.
  induction results as [|r rest IH]; intros k; simpl; [reflexivity|].
  rewrite IH. f_equal; [f_equal; lia|].
  apply imap_ext. intros i x _. simpl. f_equal. lia.
Qed.

(** The blocks of an aggregated text: one per task and in task order, each
    the task's header followed by a newline and a body. *)
Definition blocksOf {A} (header : nat -> A -> string) (body : A -> string)
    (results : list A) (text : string) : Prop :=
  exists blocks : list string,
    text = JS.join (String "010" (String "010" "")) blocks /\
    length blocks = length results /\
    forall (i : nat) (r : A),
      results !! i = Some r ->
      blocks !! i = Some (header i r ++ String "010" (body r)) /\
      JS.includes (header i r ++ String "010" (body r)) text = true.

Lemma blocksOf_imap {A} (header : nat -> A -> string) (body : A -> string)
    (results : list A) :
  blocksOf header body results
    (JS.join (String "010" (String "010" ""))
       (imap (fun i r => header i r ++ String "010" (body r)) results)).
Proof.
  eexists. split; [reflexivity|]. split; [apply length_imap|].
  intros i r Hi.
  assert (imap (fun i r => header i r ++ String "010" (body r)) results !! i
          = Some (header i r ++ String "010" (body r))) as Hb
    by (rewrite list_lookup_imap, Hi; reflexivity).
  split; [exact Hb|].
  destruct (join_lookup (String "010" (String "010" "")) _ _ _ Hb)
    as (pre & post & ->).
  apply includes_append.
Qed.

Lemma startsWith_append_r (n : string) :
  forall s c : string,
    JS.startsWith n s = true -> JS.startsWith n (s ++ c) = true.
Proof.
  induction n as [|m n IH]; intros s c H; [reflexivity|].
  destruct s as [|z s]; [discriminate|]. simpl in *.
  apply andb_true_iff in H as [Hm H]. rewrite Hm. simpl. now apply IH.
Qed.

Lemma includes_append_r (n b c : string) :
  JS.includes n b = true -> JS.includes n (b ++ c) = true.
Proof.
  induction b as [|y b IH]; intros H.
  - destruct n; [|discriminate]. rewrite includes_unfold. reflexivity.
  - rewrite includes_unfold in H. simpl append. rewrite includes_unfold.
    apply orb_true_iff in H as [H|H]; apply orb_true_iff.
    + left. now apply (startsWith_append_r n (String y b) c).
    + right. now apply IH.
Qed.

Lemma includes_refl (n : string) : JS.includes n n = true.
Proof.
  pose proof (includes_append n "" "") as H. simpl in H.
  now rewrite append_empty_r in H.
Qed.

Lemma includes_append_l (n a b : string) :
  JS.includes n b = true -> JS.includes n (a ++ b) = true.
Proof.
  intros H. induction a as [|x a IH]; [exact H|].
  simpl append. rewrite includes_unfold, IH. apply orb_true_r.
Qed.

(** C7.  The aggregation of parallel-utils.ts gives, for the tasks of
    scenario E, a text that holds the header [=== Parallel Task 1 (a) ===]
    and, under the header of task 2, a failure marker that names the exit
    code and the error [timeout].  In general that aggregation, and the
    one of settings.ts, are the blocks of the tasks in task order, joined
    by a blank line, where the block of the task at position [i] is the
    header [=== Parallel Task {i+1} ({agent}) ===], a newline and a body:
    in settings.ts the task's output; in parallel-utils.ts the output when
    it is not blank, behind the failure marker when the exit code is not
    0. *)
Theorem aggregateParallelOutputs_blocks :
  (ParallelUtils.aggregateParallelOutputs scenarioEOutputs
   = "=== Parallel Task 1 (a) ===" ++ String "010" "ok"
     ++ String "010" (String "010" "=== Parallel Task 2 (b) ===")
     ++ String "010" ParallelUtils.warningSign
     ++ " FAILED (exit code 1): timeout" /\
   JS.includes "=== Parallel Task 1 (a) ==="
     (ParallelUtils.aggregateParallelOutputs scenarioEOutputs) = true /\
   JS.includes "FAILED (exit code 1): timeout"
     (ParallelUtils.aggregateParallelOutputs scenarioEOutputs) = true) /\
  (forall (results : list ParallelUtils.TaskOutput),
      blocksOf ParallelUtils.taskHeader ParallelUtils.taskBody results
        (ParallelUtils.aggregateParallelOutputs results) /\
      forall (i : nat) (r : ParallelUtils.TaskOutput),
        results !! i = Some r ->
        ParallelUtils.taskHeader i r
        = "=== Parallel Task " ++ JS.numToString (i + 1)
          ++ " (" ++ ParallelUtils.outAgent r ++ ") ===" /\
        (JS.truthy (JS.trim (ParallelUtils.outText r)) = true ->
         JS.includes (ParallelUtils.outText r) (ParallelUtils.taskBody r)
         = true) /\
        (ParallelUtils.outExitCode r <> 0%Z ->
         JS.startsWith (ParallelUtils.failureMarker r)
           (ParallelUtils.taskBody r) = true /\
         forall e : string,
           ParallelUtils.outError r = Some e -> JS.truthy e = true ->
           JS.includes
             ("FAILED (exit code "
              ++ JS.numberToString (ParallelUtils.outExitCode r) ++ "): "
              ++ e)
             (ParallelUtils.taskBody r) = true)) /\
  (forall (results : list ParallelTaskResult),
      blocksOf
        (fun i r =>
           "=== Parallel Task " ++ JS.numToString (i + 1)
           ++ " (" ++ ptrAgent r ++ ") ===")
        ptrOutput results (aggregateParallelOutputs results)).
Proof.
  split; [repeat split; reflexivity|]. split.
  - intros results. split; [apply blocksOf_imap|].
    intros i r Hi. split; [reflexivity|]. unfold ParallelUtils.taskBody.
    split.
    + intros ->.
      destruct (negb (Z.eqb (ParallelUtils.outExitCode r) 0)).
      * apply includes_append_l.
        apply (includes_append_l _ (String "010" "")), includes_refl.
      * apply includes_refl.
    + intros Hne. apply Z.eqb_neq in Hne. rewrite Hne. cbn [negb]. split.
      * destruct (JS.truthy (JS.trim (ParallelUtils.outText r))).
        -- apply startsWith_append.
        -- pose proof (startsWith_append (ParallelUtils.failureMarker r) "")
             as H.
           now rewrite append_empty_r in H.
      * intros e He Ht.
        assert (JS.includes
                  ("FAILED (exit code "
                   ++ JS.numberToString (ParallelUtils.outExitCode r)
                   ++ "): " ++ e)
                  (ParallelUtils.failureMarker r) = true) as Hm.
        { unfold ParallelUtils.failureMarker. rewrite He. simpl JS.truthyOpt.
          rewrite Ht. simpl JS.nullish.
          change (ParallelUtils.warningSign ++ " FAILED (exit code "
                  ++ JS.numberToString (ParallelUtils.outExitCode r)
                  ++ ")" ++ ": " ++ e)
            with ((ParallelUtils.warningSign ++ " ")
                  ++ "FAILED (exit code "
                  ++ JS.numberToString (ParallelUtils.outExitCode r)
                  ++ ")" ++ ": " ++ e).
          apply includes_append_l.
          replace ("FAILED (exit code "
                   ++ JS.numberToString (ParallelUtils.outExitCode r)
                   ++ ")" ++ ": " ++ e)
            with ("FAILED (exit code "
                  ++ JS.numberToString (ParallelUtils.outExitCode r)
                  ++ "): " ++ e) by reflexivity.
          apply includes_refl. }
        destruct (JS.truthy (JS.trim (ParallelUtils.outText r))).
        -- exact (includes_append_r _ _ _ Hm).
        -- exact Hm.
  - intros results.
    assert (aggregateParallelOutputs results
            = JS.join (String "010" (String "010" ""))
                (imap (fun i r =>
                         ("=== Parallel Task " ++ JS.numToString (i + 1)
                          ++ " (" ++ ptrAgent r ++ ") ===")
                         ++ String "010" (ptrOutput r)) results)) as ->.
    { unfold aggregateParallelOutputs. rewrite parallelBlocksFrom_imap.
      reflexivity. }
    apply (blocksOf_imap
             (fun i r =>
                "=== Parallel Task " ++ JS.numToString (i + 1)
                ++ " (" ++ ptrAgent r ++ ") ===") ptrOutput).
Qed.

Lemma aggregateParallelOutputs_blocks_witness :
  JS.includes
    ("FAILED (exit code " ++ JS.numberToString 1 ++ "): " ++ "timeout")
    (ParallelUtils.taskBody (ParallelUtils.mkTaskOutput "b" "" 1
                               (Some "timeout"))) = true.
Proof.
  refine (proj2
            (proj2 (proj2
                      (proj2 (proj1 (proj2 aggregateParallelOutputs_blocks)
                                scenarioEOutputs)
                         1 (ParallelUtils.mkTaskOutput "b" "" 1
                              (Some "timeout")) eq_refl))
               _)
            "timeout" eq_refl eq_refl).
  discriminate.
Defined.

End SettingsFacts.

(* ===================================================================== *)
(** * Properties of jsonl-writer.ts                                      *)
(* ===================================================================== *)

Module JsonlWriterFacts.

Import JsonlWriter.

(** A writer with a stream is closed exactly when its stream variable has
    been cleared, and then the sink has been ended exactly once. *)
Definition consistent (st : Writer * World) (closedNow : bool) : Prop :=
  exists backpressured,
    fst st = StreamWriter (negb closedNow) backpressured closedNow /\
    ended (snd st) = (if closedNow then 1 else 0).

Lemma drainListener_consistent (st : Writer * World) (c : bool) :
  consistent st c -> consistent (drainListener st) c.
Proof.
  destruct st as [wr w]. intros (b & Hw & He). simpl in Hw, He. subst wr.
  exists false. simpl. split; [reflexivity|]. destruct c; exact He.
Qed.

Lemma iter_drainListener_consistent (n : nat) (st : Writer * World)
    (c : bool) :
  consistent st c -> consistent (Nat.iter n drainListener st) c.
Proof.
  intros H. induction n as [|n IH]; simpl; [exact H|].
  now apply drainListener_consistent.
Qed.

Lemma step_consistent (st : Writer * World) (c : bool) (op : Op) :
  consistent st c -> consistent (step st op) (c || isClose op).
Proof.
  destruct st as [wr w]. intros (b & Hw & He). simpl in Hw, He. subst wr.
  destruct op as [line| |]; simpl.
  - rewrite orb_false_r. unfold writeLine.
    destruct c; simpl.
    + exists b. auto.
    + destruct (negb (JS.truthy (JS.trim line))).
      * exists b. auto.
      * unfold sinkWrite.
        destruct (negb match writeResults w with
                       | [] => true
                       | ok :: _ => ok
                       end && negb b);
          eexists; split; simpl; eauto.
  - rewrite orb_true_r. destruct c; simpl.
    + exists b. auto.
    + exists b. split; [reflexivity|]. simpl. now rewrite He.
  - rewrite orb_false_r. unfold emitDrain.
    apply iter_drainListener_consistent.
    exists b. split; [reflexivity|]. exact He.
Qed.

Lemma run_consistent (ops : list Op) :
  forall (st : Writer * World) (c : bool),
    consistent st c -> consistent (run ops st) (c || existsb isClose ops).
Proof.
  induction ops as [|op ops IH]; intros st c H; simpl.
  - now rewrite orb_false_r.
  - rewrite orb_assoc. apply IH. now apply step_consistent.
Qed.

Lemma noop_step (w : World) (op : Op) :
  drainListeners w = 0 -> step (NoOpWriter, w) op = (NoOpWriter, w).
Proof.
  intros Hd. destruct op; simpl; try reflexivity.
  destruct w as [p r ws e cc d wr]. simpl in Hd. subst d. reflexivity.
Qed.

Lemma noop_run (ops : list Op) (w : World) :
  drainListeners w = 0 -> run ops (NoOpWriter, w) = (NoOpWriter, w).
Proof.
  intros Hd. induction ops as [|op ops IH]; simpl; [reflexivity|].
  rewrite noop_step by assumption. exact IH.
Qed.

(** C9.  [close] is idempotent: closing again, any number of times, leaves
    the writer and its collaborators as the first [close] left them.  Over
    any sequence of writes, closes and drain events on a writer with a
    stream, the sink's [end] has been called once if the writer was closed
    at all (and never otherwise).  Without a destination path (or when the
    stream could not be created) the writer is the no-op writer: no
    operation touches the source or the sink, so the source is never paused
    or resumed. *)
Theorem close_idempotent_and_noop :
  (forall (st : Writer * World) (n : nat),
      Nat.iter (S n) close st = close st) /\
  (forall (path : string) (ops : list Op) (results : list bool),
      JS.truthy path = true ->
      ended (snd (run ops (createJsonlWriter (Some path) true,
                           freshWorld results)))
      = (if existsb isClose ops then 1 else 0)) /\
  (forall (ops : list Op) (createWriteStreamOk : bool)
          (results : list bool),
      run ops (createJsonlWriter None createWriteStreamOk,
               freshWorld results)
      = (NoOpWriter, freshWorld results) /\
      paused (snd (run ops (createJsonlWriter None createWriteStreamOk,
                            freshWorld results))) = 0 /\
      resumed (snd (run ops (createJsonlWriter None createWriteStreamOk,
                             freshWorld results))) = 0) /\
  (forall (path : string) (ops : list Op) (results : list bool),
      run ops (createJsonlWriter (Some path) false, freshWorld results)
      = (NoOpWriter, freshWorld results)).
Proof.
  split; [|split; [|split]].
  - intros st n. induction n as [|n IH]; [reflexivity|].
    change (Nat.iter (S (S n)) close st)
      with (close (Nat.iter (S n) close st)).
    rewrite IH. destruct st as [[|stream b closed] w]; [reflexivity|].
    unfold close. destruct stream, closed; reflexivity.
  - intros path ops results Hp.
    unfold createJsonlWriter. simpl. rewrite Hp. simpl.
    destruct (run_consistent ops
                (StreamWriter true false false, freshWorld results) false)
      as (b & _ & He).
    { exists false. split; reflexivity. }
    exact He.
  - intros ops ok results. unfold createJsonlWriter. simpl.
    rewrite noop_run by reflexivity. auto.
  - intros path ops results. unfold createJsonlWriter.
    destruct (negb (JS.truthyOpt (Some path)));
      now rewrite noop_run by reflexivity.
Qed.

Lemma close_idempotent_and_noop_witness :
  ended (snd (run [OpWriteLine "{}"; OpClose; OpDrain; OpClose]
                (createJsonlWriter (Some "/tmp/out.jsonl") true,
                 freshWorld [false])))
  = (if existsb isClose [OpWriteLine "{}"; OpClose; OpDrain; OpClose]
     then 1 else 0).
Proof.
  exact (proj1 (proj2 close_idempotent_and_noop) "/tmp/out.jsonl"
           [OpWriteLine "{}"; OpClose; OpDrain; OpClose] [false] eq_refl).
Defined.

End JsonlWriterFacts.

(* ===================================================================== *)
(** * Properties of execution.ts                                         *)
(* ===================================================================== *)

Module ExecutionFacts.

Import Execution.

Definition ringsBounded (st : RunState) : Prop :=
  length (recentTools (stProgress st)) <= 5 /\
  length (recentOutput (stProgress st)) <= 50.

Lemma keepLast_length {A} (n : nat) (l : list A) :
  length (keepLast n l) <= n.
Proof.
  unfold keepLast. destruct (Nat.ltb n (length l)) eqn:E.
  - apply Nat.ltb_lt in E. rewrite length_drop. lia.
  - apply Nat.ltb_ge in E. exact E.
Qed.

Lemma unshiftRecentTool_length (recent : list RecentTool)
    (entry : RecentTool) :
  length recent <= 5 -> length (unshiftRecentTool recent entry) <= 5.
Proof.
  intros H. unfold unshiftRecentTool.
  destruct (Nat.ltb 5 (length (entry :: recent))) eqn:E.
  - rewrite removelast_firstn_len, length_take. simpl. lia.
  - apply Nat.ltb_ge in E. exact E.
Qed.

Lemma onToolResultEnd_progress (msg : Message) (tn : option string)
    (st : RunState) :
  stProgress (onToolResultEnd msg tn st)
  = if JS.truthy (text msg)
    then withRecentOutput (stProgress st)
           (pushRecentOutput (recentOutput (stProgress st))
              (tailLines (text msg) 10 MAX_TAIL_CHARS))
    else stProgress st.
Proof.
  unfold onToolResultEnd. cbv zeta.
  destruct (isError msg || _)%bool; reflexivity.
Qed.

Lemma processLine_bounded (st : RunState) (line : Line) :
  ringsBounded st -> ringsBounded (processLine st line).
Proof.
  intros [Ht Ho]. destruct line as [| |evt]; [split; assumption..|].
  destruct evt as [tn ap| |[msg|]|[msg|] tn|]; simpl;
    try (split; assumption).
  - unfold onToolExecutionEnd, ringsBounded. simpl. split; [|assumption].
    destruct (currentTool (stProgress st)) as [t|]; [|assumption].
    destruct (JS.truthy t); [|assumption].
    now apply unshiftRecentTool_length.
  - unfold onMessageEnd, ringsBounded.
    destruct (String.eqb (role msg) "assistant").
    + destruct (usage msg);
        destruct (JS.truthy (text msg)); simpl;
        (split; [assumption|]);
        try apply keepLast_length; assumption.
    + destruct (JS.truthyOpt (errorMessage msg)); simpl; split; assumption.
  - unfold ringsBounded. rewrite onToolResultEnd_progress.
    destruct (JS.truthy (text msg)); simpl;
      (split; [assumption|]);
      try apply keepLast_length; assumption.
Qed.

Lemma processLines_bounded (lines : list Line) :
  forall st, ringsBounded st -> ringsBounded (fold_left processLine lines st).
Proof.
  induction lines as [|l lines IH]; intros st H; simpl; [exact H|].
  apply IH. now apply processLine_bounded.
Qed.

Lemma initialState_bounded (agentName task : string)
    (modelArg : option string) (options : RunSyncOptions) :
  ringsBounded (initialState agentName task modelArg options).
Proof. split; simpl; lia. Qed.

Lemma onClose_progress (run : ProcRun) (st : RunState) :
  stProgress (onClose run st) = stProgress st.
Proof. unfold onClose. now destruct (_ && _). Qed.

Lemma finish_progress (c : Z) (st : RunState) :
  exists p,
    progress (finish c st) = Some p /\
    recentTools p = recentTools (stProgress st) /\
    recentOutput p = recentOutput (stProgress st).
Proof. unfold finish. eexists. split; [reflexivity|]. split; reflexivity. Qed.

(** C8.  Whatever lines the worker prints, [recentTools] never holds more
    than 5 entries and [recentOutput] never more than 50: this holds after
    every line that [processLine] has handled, and for the progress record
    of the result that [runSync] returns. *)
Theorem recent_rings_bounded :
  (forall (lines : list Line) (agentName task : string)
          (modelArg : option string) (options : RunSyncOptions),
      length (recentTools
                (stProgress
                   (fold_left processLine lines
                      (initialState agentName task modelArg options))))
      <= 5 /\
      length (recentOutput
                (stProgress
                   (fold_left processLine lines
                      (initialState agentName task modelArg options))))
      <= 50) /\
  (forall (spawnPi : string -> string -> nat -> ProcRun)
          (agents : list Settings.AgentConfig) (agentName task : string)
          (options : RunSyncOptions),
      match progress (fst (runSync spawnPi agents agentName task options))
      with
      | Some p => length (recentTools p) <= 5 /\ length (recentOutput p) <= 50
      | None => Settings.findAgent agents agentName = None
      end).
Proof.
  split.
  - intros lines agentName task modelArg options.
    apply processLines_bounded, initialState_bounded.
  - intros spawnPi agents agentName task options. unfold runSync.
    destruct (Settings.findAgent agents agentName) as [cfg|];
      [|reflexivity].
    cbn [fst].
    match goal with
    | |- context [finish ?c ?s] =>
        destruct (finish_progress c s) as (p & -> & -> & ->)
    end.
    unfold stateAtClose, runProcess. rewrite onClose_progress.
    apply processLines_bounded, initialState_bounded.
Qed.

(** C10.  For an agent name that is not in the agent list, [runSync]
    returns (the promise resolves with) the result with exit code 1, no
    messages, all-zero usage and the error text [Unknown agent: <name>];
    no worker process is started. *)
Theorem runSync_unknown_agent :
  forall (spawnPi : string -> string -> nat -> ProcRun)
         (agents : list Settings.AgentConfig) (agentName task : string)
         (options : RunSyncOptions),
    Settings.findAgent agents agentName = None ->
    runSync spawnPi agents agentName task options
    = (mkResult agentName task 1 [] (mkUsage 0 0 0 0 0 0) None
         (Some ("Unknown agent: " ++ agentName)) None,
       []).
Proof.
  intros spawnPi agents agentName task options H.
  unfold runSync. rewrite H. reflexivity.
Qed.

Lemma runSync_unknown_agent_witness :
  runSync Spec.hiddenFailure [Spec.plainAgent "echo"] "nonexistent"
    "Do something" (mkOptions None None)
  = (mkResult "nonexistent" "Do something" 1 [] (mkUsage 0 0 0 0 0 0) None
       (Some ("Unknown agent: " ++ "nonexistent")) None,
     []).
Proof.
  exact (runSync_unknown_agent Spec.hiddenFailure [Spec.plainAgent "echo"]
           "nonexistent" "Do something" (mkOptions None None) eq_refl).
Defined.

(** *** The last-tool-error slot *)

(** The tool a tool result is attributed to. *)
Definition toolNameOf (msg : Message) (evtToolName : option string)
  : string :=
  if JS.truthyOpt (msgToolName msg) then JS.nullish (msgToolName msg) ""
  else if JS.truthyOpt evtToolName then JS.nullish evtToolName ""
  else "tool".

(** A tool result that reports a failure: it is error-marked, or it is a
    bash result whose text reports a non-zero exit code. *)
Definition failedToolResult (msg : Message) (evtToolName : option string)
  : bool :=
  isError msg
  || (String.eqb (toolNameOf msg evtToolName) "bash"
      && match parseExitCode (text msg) with
         | Some c => negb (Z.eqb c 0)
         | None => false
         end).

(** The exit code recorded for a failed tool result: the one a bash result
    reports in its text, otherwise 1. *)
Definition recordedExitCode (msg : Message) (evtToolName : option string)
  : Z :=
  JS.nullish
    (if String.eqb (toolNameOf msg evtToolName) "bash"
     then parseExitCode (text msg) else None)
    1%Z.

(** The details recorded for it: the first 200 characters of its text. *)
Definition recordedDetails (msg : Message) : option string :=
  if JS.truthy (text msg) then Some (JS.sliceTo 200 (text msg)) else None.

Definition isToolResult (line : Line) : bool :=
  match line with
  | Parsed (ToolResultEnd (Some _) _) => true
  | _ => false
  end.

(** A message that carries an error message. *)
Definition carriesErrorMessage (line : Line) : bool :=
  match line with
  | Parsed (MessageEnd (Some msg)) => JS.truthyOpt (errorMessage msg)
  | _ => false
  end.

Lemma processLine_keeps_slot (st : RunState) (line : Line) :
  isToolResult line = false ->
  lastToolError (processLine st line) = lastToolError st.
Proof.
  destruct line as [| |evt]; try reflexivity.
  destruct evt as [tn ap| |[msg|]|[msg|] tn|]; try reflexivity;
    [|discriminate].
  intros _. simpl. unfold onMessageEnd.
  destruct (String.eqb (role msg) "assistant").
  - destruct (usage msg);
      destruct (negb _ && _); destruct (JS.truthyOpt (errorMessage msg));
      destruct (JS.truthy (text msg)); reflexivity.
  - destruct (JS.truthyOpt (errorMessage msg)); reflexivity.
Qed.

Lemma processLines_keep_slot (lines : list Line) :
  forall st : RunState,
    existsb isToolResult lines = false ->
    lastToolError (fold_left processLine lines st) = lastToolError st.
Proof.
  induction lines as [|line lines IH]; intros st H; simpl; [reflexivity|].
  simpl in H. apply orb_false_iff in H as [Hl Hrest].
  rewrite IH by assumption. now apply processLine_keeps_slot.
Qed.

(** The slot after a tool result: filled when the result reports a
    failure, emptied by every other tool result. *)
Lemma tool_result_fills_slot (msg : Message) (tn : option string)
    (st : RunState) :
  failedToolResult msg tn = true ->
  lastToolError (processLine st (Parsed (ToolResultEnd (Some msg) tn)))
  = Some (mkToolError (toolNameOf msg tn) (Some (recordedExitCode msg tn))
            (recordedDetails msg)).
Proof.
  simpl.
  unfold onToolResultEnd, failedToolResult, recordedExitCode, recordedDetails,
    toolNameOf.
  cbv zeta.
  destruct (String.eqb _ "bash"); destruct (isError msg); simpl;
    try discriminate; try reflexivity.
  intros ->. reflexivity.
Qed.

Lemma tool_result_clears_slot (msg : Message) (tn : option string)
    (st : RunState) :
  failedToolResult msg tn = false ->
  lastToolError (processLine st (Parsed (ToolResultEnd (Some msg) tn)))
  = None.
Proof.
  simpl. unfold onToolResultEnd, failedToolResult, toolNameOf. cbv zeta.
  destruct (String.eqb _ "bash"); destruct (isError msg); simpl;
    try discriminate; try reflexivity.
  intros ->. reflexivity.
Qed.

Lemma onClose_slot (run : ProcRun) (st : RunState) :
  lastToolError (onClose run st) = lastToolError st.
Proof. unfold onClose. now destruct (_ && _). Qed.

(** Only a message that carries an error message records one on the
    result while the lines are read. *)
Lemma processLine_keeps_error (st : RunState) (line : Line) :
  carriesErrorMessage line = false ->
  error (stResult (processLine st line)) = error (stResult st).
Proof.
  destruct line as [| |evt]; try reflexivity.
  destruct evt as [tn ap| |[msg|]|[msg|] tn|]; try reflexivity; simpl.
  - intros He. unfold onMessageEnd. rewrite He.
    destruct (String.eqb (role msg) "assistant"); [|reflexivity].
    destruct (usage msg); destruct (negb _ && _);
      destruct (JS.truthy (text msg)); reflexivity.
  - intros _. unfold onToolResultEnd. cbv zeta.
    destruct (isError msg || _)%bool; reflexivity.
Qed.

Lemma processLines_keep_error (lines : list Line) :
  forall st : RunState,
    existsb carriesErrorMessage lines = false ->
    error (stResult (fold_left processLine lines st)) = error (stResult st).
Proof.
  induction lines as [|line lines IH]; intros st H; simpl; [reflexivity|].
  simpl in H. apply orb_false_iff in H as [Hl Hrest].
  rewrite IH by assumption. now apply processLine_keeps_error.
Qed.

(** C3 (as the code has it).  When the worker exits with code 0, none of
    its messages carried an error message, and its last tool result
    reports a failure (it is error-marked, or it is a bash result whose text
    reports a non-zero exit code) for which the exit code recorded (the one
    read from a bash result's text, otherwise 1) is not 0, the result that
    [runSync] returns has that exit code, hence a non-zero one, its error
    text is built from the tool's name, that exit code and the first 200
    characters of the tool's output, and its progress record is marked
    failed. *)
Theorem hidden_failure_promoted :
  forall (spawnPi : string -> string -> nat -> ProcRun)
         (agents : list Settings.AgentConfig) (agentName task : string)
         (options : RunSyncOptions) (cfg : Settings.AgentConfig)
         (before after : list Line) (msg : Message)
         (evtToolName : option string),
    Settings.findAgent agents agentName = Some cfg ->
    code (workerRun spawnPi agentName task options) = Some 0%Z ->
    stdoutLines (workerRun spawnPi agentName task options)
    = (before ++ Parsed (ToolResultEnd (Some msg) evtToolName) :: after)%list ->
    failedToolResult msg evtToolName = true ->
    existsb isToolResult after = false ->
    existsb carriesErrorMessage
      (stdoutLines (workerRun spawnPi agentName task options)) = false ->
    recordedExitCode msg evtToolName <> 0%Z ->
    exitCode (fst (runSync spawnPi agents agentName task options))
    = recordedExitCode msg evtToolName /\
    exitCode (fst (runSync spawnPi agents agentName task options)) <> 0%Z /\
    error (fst (runSync spawnPi agents agentName task options))
    = Some (Spec.hiddenFailureText (toolNameOf msg evtToolName)
              (recordedExitCode msg evtToolName) (recordedDetails msg)) /\
    option_map status
      (progress (fst (runSync spawnPi agents agentName task options)))
    = Some Failed.
Proof.
  intros spawnPi agents agentName task options cfg before after msg tn
    Hf Hcode Hlines Hfailed Hafter Hquiet Hnz.
  assert (lastToolError (stateAtClose spawnPi cfg agentName task options)
          = Some (mkToolError (toolNameOf msg tn)
                    (Some (recordedExitCode msg tn)) (recordedDetails msg)))
    as Hslot.
  { unfold stateAtClose, runProcess. rewrite onClose_slot, Hlines.
    rewrite fold_left_app. simpl fold_left.
    rewrite processLines_keep_slot by assumption.
    now apply tool_result_fills_slot. }
  assert (error (stResult (stateAtClose spawnPi cfg agentName task options))
          = None) as Herr.
  { unfold stateAtClose, runProcess, onClose. rewrite Hcode. simpl.
    now rewrite processLines_keep_error. }
  unfold runSync. rewrite Hf. cbn [fst]. rewrite Hcode.
  unfold finish. rewrite Hslot. cbn [JS.nullish].
  assert (error (withExitCode
                   (stResult (stateAtClose spawnPi cfg agentName task options))
                   0) = None) as -> by exact Herr.
  cbn [Z.eqb negb andb JS.nullish JS.truthyOpt errExitCode errToolName
       details].
  assert (Z.eqb (recordedExitCode msg tn) 0 = false) as Hz
    by now apply Z.eqb_neq.
  cbn. rewrite Hz.
  split; [reflexivity|]. split; [assumption|]. split; reflexivity.
Qed.

Lemma hidden_failure_promoted_witness :
  exitCode (fst (runSync Spec.hiddenFailure [Spec.plainAgent "deployer"]
                   "deployer" "Deploy app" (mkOptions None None))) = 1%Z /\
  exitCode (fst (runSync Spec.hiddenFailure [Spec.plainAgent "deployer"]
                   "deployer" "Deploy app" (mkOptions None None))) <> 0%Z /\
  error (fst (runSync Spec.hiddenFailure [Spec.plainAgent "deployer"]
                "deployer" "Deploy app" (mkOptions None None)))
  = Some (Spec.hiddenFailureText "write" 1 (Some "Permission denied")) /\
  option_map status
    (progress (fst (runSync Spec.hiddenFailure [Spec.plainAgent "deployer"]
                      "deployer" "Deploy app" (mkOptions None None))))
  = Some Failed.
Proof.
  apply (hidden_failure_promoted Spec.hiddenFailure
           [Spec.plainAgent "deployer"] "deployer" "Deploy app"
           (mkOptions None None) (Spec.plainAgent "deployer")
           [Parsed (ToolExecutionStart (Some "write") "out.md");
            Parsed ToolExecutionEnd]
           []
           (mkMessage "toolResult" None None None "Permission denied"
              (Some "write") true)
           None);
    try reflexivity.
  discriminate.
Defined.

(** C3, as stated, fails: the worker of [Spec.errorThenToolFailure] exits
    with code 0 and leaves the last-tool-error slot filled, yet the result
    keeps exit code 0, because an assistant message had already recorded an
    error message on the result. *)
Lemma hidden_failure_masked_by_recorded_error :
  code (workerRun Spec.errorThenToolFailure "deployer" "Deploy app"
          (mkOptions None None)) = Some 0%Z /\
  lastToolError
    (stateAtClose Spec.errorThenToolFailure (Spec.plainAgent "deployer")
       "deployer" "Deploy app" (mkOptions None None))
  = Some (mkToolError "write" (Some 1%Z) (Some "connection refused")) /\
  exitCode (fst (runSync Spec.errorThenToolFailure
                   [Spec.plainAgent "deployer"] "deployer" "Deploy app"
                   (mkOptions None None))) = 0%Z /\
  error (fst (runSync Spec.errorThenToolFailure
                [Spec.plainAgent "deployer"] "deployer" "Deploy app"
                (mkOptions None None))) = Some "rate limited".
Proof. repeat split; reflexivity. Qed.

(** *** Exit codes are never the mark of a skipped task *)

Lemma roundDouble_nonneg (z : Z) :
  (0 <= z)%Z -> (0 <= JS.roundDouble z)%Z.
Proof.
  intros H. unfold JS.roundDouble.
  destruct (Z.ltb z (2 ^ 53)); [assumption|]. cbv zeta.
  apply Z.shiftl_nonneg.
  assert (0 <= Z.shiftr z (Z.log2 z - 52))%Z
    by (apply Z.shiftr_nonneg; assumption).
  destruct (_ || _)%bool; lia.
Qed.

Lemma decimalValue_nonneg (s : string) :
  forall acc : Z, (0 <= acc)%Z -> (0 <= JS.decimalValue acc s)%Z.
Proof.
  induction s as [|c s IH]; intros acc H; simpl; [assumption|].
  apply IH. lia.
Qed.

Lemma parseExitCode_nonneg (text : string) :
  match parseExitCode text with
  | Some c => (0 <= c)%Z
  | None => True
  end.
Proof.
  unfold parseExitCode, JS.parseInt10.
  destruct (negb (JS.truthy text)); [trivial|].
  destruct (matchExit text) as [digits|]; [|trivial]. cbv zeta.
  destruct (Z.ltb _ (2 ^ 1024)); [|trivial].
  apply roundDouble_nonneg, decimalValue_nonneg. lia.
Qed.

Lemma processLines_slot (lines : list Line) :
  forall st : RunState,
    (forall e, lastToolError st = Some e ->
               exists c, errExitCode e = Some c /\ (0 <= c)%Z) ->
    forall e,
      lastToolError (fold_left processLine lines st) = Some e ->
      exists c, errExitCode e = Some c /\ (0 <= c)%Z.
Proof.
  induction lines as [|line lines IH]; intros st H; simpl; [exact H|].
  apply IH. intros e.
  destruct (isToolResult line) eqn:Hl.
  - destruct line as [| |[| | |[msg|] tn|]]; try discriminate Hl.
    destruct (failedToolResult msg tn) eqn:Hfailed.
    + rewrite tool_result_fills_slot by assumption.
      intros He. injection He as <-. simpl. eexists. split; [reflexivity|].
      unfold recordedExitCode.
      destruct (String.eqb _ "bash"); simpl; [|lia].
      pose proof (parseExitCode_nonneg (text msg)) as Hp.
      destruct (parseExitCode (text msg)); simpl; [assumption|lia].
    + rewrite tool_result_clears_slot by assumption. discriminate.
  - rewrite processLine_keeps_slot by assumption. apply H.
Qed.

(** When no worker process exits with code -1, no result of [runSync] has
    that exit code. *)
Lemma runSync_not_skipped
    (spawnPi : string -> string -> nat -> ProcRun)
    (agents : list Settings.AgentConfig) (agentName task : string)
    (options : RunSyncOptions) :
  (forall (a t : string) (i : nat), code (spawnPi a t i) <> Some (-1)%Z) ->
  exitCode (fst (runSync spawnPi agents agentName task options)) <> (-1)%Z.
Proof.
  intros never_minus_one. unfold runSync.
  destruct (Settings.findAgent agents agentName) as [cfg|]; [|discriminate].
  cbn [fst].
  pose proof (never_minus_one agentName task
                (JS.nullish (optIndex options) 0)) as Hcode.
  fold (workerRun spawnPi agentName task options) in Hcode.
  assert (JS.nullish (code (workerRun spawnPi agentName task options)) 0%Z
          <> (-1)%Z) as Hc.
  { destruct (code _) as [c|]; simpl; [congruence|discriminate]. }
  unfold finish, stateAtClose, runProcess. rewrite onClose_slot.
  match goal with
  | |- context [lastToolError (fold_left processLine ?lines ?st0)] =>
      pose proof (processLines_slot lines st0) as Hslot;
      destruct (lastToolError (fold_left processLine lines st0)) as [e|];
      [|exact Hc]
  end.
  destruct (Z.eqb _ 0 && _); [|exact Hc].
  destruct (Hslot ltac:(intros e0 H0; discriminate H0) e eq_refl)
    as (c & -> & Hpos).
  simpl. lia.
Qed.

End ExecutionFacts.

(* ===================================================================== *)
(** * Properties of mapConcurrent                                        *)
(* ===================================================================== *)

Module UtilsFacts.

Import Utils.

(** Split a conjunction into its parts, and nothing else. *)
Ltac splits := repeat match goal with |- _ /\ _ => split end.

Section PoolInvariants.

Context {T R S P : Type}.
Variable start : S -> T -> nat -> S * (R + P).
Variable resume : S -> P -> S * R.
Variable items : list T.

Local Abbreviation Pool := (@Utils.Pool R S P).

(** The shape every pool of a [mapConcurrent] call has. *)
Record wellFormed (pool : Pool) : Prop := mkWellFormed {
  wf_next : next pool <= length items;
  wf_results : length (results pool) = length items;
  wf_inflight_lt : forall j p, (j, p) ∈ inflight pool -> j < next pool;
  wf_nodup : NoDup (inflight pool).*1;
  wf_count : length (inflight pool) <= next pool
}.

(** Every worker is either suspended on a callback or has left its loop. *)
Definition busy (pool : Pool) : Prop :=
  next pool = length items \/ inflight pool <> [].

(** An upper bound on the completions still to come. *)
Definition pendingWork (pool : Pool) : nat :=
  (length items - next pool) + length (inflight pool).

(** A property of pools that the three transitions of a pool maintain. *)
Variable Inv : Pool -> Prop.

Hypothesis Inv_returned :
  forall pool item s r,
    wellFormed pool -> Inv pool ->
    items !! next pool = Some item ->
    start (store pool) item (next pool) = (s, inl r) ->
    Inv (mkPool s (Datatypes.S (next pool)) (inflight pool)
           (<[next pool := Some r]> (results pool))).

Hypothesis Inv_suspended :
  forall pool item s p,
    wellFormed pool -> Inv pool ->
    items !! next pool = Some item ->
    start (store pool) item (next pool) = (s, inr p) ->
    Inv (mkPool s (Datatypes.S (next pool))
           (inflight pool ++ [(next pool, p)]) (results pool)).

Hypothesis Inv_settled :
  forall pool k j p s r,
    wellFormed pool -> Inv pool ->
    inflight pool !! k = Some (j, p) ->
    resume (store pool) p = (s, r) ->
    Inv (mkPool s (next pool) (delete k (inflight pool))
           (<[j := Some r]> (results pool))).

Lemma wellFormed_returned (pool : Pool) (s : S) (r : R) :
  wellFormed pool -> next pool < length items ->
  wellFormed (mkPool s (Datatypes.S (next pool)) (inflight pool)
                (<[next pool := Some r]> (results pool))).
Proof.
  intros [Hn Hr Hlt Hnd Hc] Hlt'. constructor; simpl.
  - lia.
  - now rewrite length_insert.
  - intros j p Hin. specialize (Hlt j p Hin). lia.
  - assumption.
  - lia.
Qed.

Lemma wellFormed_suspended (pool : Pool) (s : S) (p : P) :
  wellFormed pool -> next pool < length items ->
  wellFormed (mkPool s (Datatypes.S (next pool))
                (inflight pool ++ [(next pool, p)]) (results pool)).
Proof.
  intros [Hn Hr Hlt Hnd Hc] Hlt'. constructor; simpl.
  - lia.
  - assumption.
  - intros j q Hin. apply elem_of_app in Hin as [Hin|Hin].
    + specialize (Hlt j q Hin). lia.
    + apply list_elem_of_singleton in Hin. injection Hin as -> ->. lia.
  - rewrite fmap_app. apply NoDup_app. split; [assumption|].
    split; [|apply NoDup_singleton].
    intros j Hj Hj'. simpl in Hj'. apply list_elem_of_singleton in Hj'.
    subst j. apply list_elem_of_fmap in Hj as ([j q] & Hjq & Hin).
    simpl in Hjq. subst j. specialize (Hlt _ _ Hin). lia.
  - rewrite length_app. simpl. lia.
Qed.

Lemma wellFormed_settled (pool : Pool) (k j : nat) (p : P) (s : S) (r : R) :
  wellFormed pool -> inflight pool !! k = Some (j, p) ->
  wellFormed (mkPool s (next pool) (delete k (inflight pool))
                (<[j := Some r]> (results pool))).
Proof.
  intros [Hn Hr Hlt Hnd Hc] Hk. constructor; simpl.
  - assumption.
  - now rewrite length_insert.
  - intros i q Hin. apply (Hlt i q).
    apply list_elem_of_lookup in Hin as [m Hm].
    apply list_elem_of_lookup.
    rewrite list_lookup_delete in Hm.
    destruct (decide (m < k)); eauto.
  - rewrite list_fmap_delete.
    eapply sublist_NoDup; [eassumption|apply sublist_delete].
  - rewrite length_delete by eauto. lia.
Qed.

Lemma drop_cons_lookup (n : nat) (x : T) (rest : list T) :
  drop n items = x :: rest ->
  items !! n = Some x /\ drop (Datatypes.S n) items = rest /\
  n < length items.
Proof.
  intros H.
  assert (items !! n = Some x) as Hx.
  { replace n with (n + 0) by lia. rewrite <- lookup_drop, H. reflexivity. }
  split; [assumption|]. split.
  - rewrite (drop_S _ _ _ Hx) in H. now injection H.
  - eapply lookup_lt_Some; eauto.
Qed.

Lemma worker_spec (rest : list T) :
  forall pool,
    drop (next pool) items = rest ->
    wellFormed pool -> Inv pool ->
    wellFormed (worker start rest pool) /\
    Inv (worker start rest pool) /\
    busy (worker start rest pool) /\
    pendingWork (worker start rest pool) <= pendingWork pool /\
    next pool <= next (worker start rest pool).
Proof.
  induction rest as [|item rest IH]; intros pool Hd Hwf Hinv; simpl.
  - splits; try assumption; try lia.
    left. pose proof (wf_next _ Hwf) as Hn.
    assert (length (drop (next pool) items) = 0) as Hl by now rewrite Hd.
    rewrite length_drop in Hl. lia.
  - destruct (drop_cons_lookup _ _ _ Hd) as (Hx & Hd' & Hlt).
    destruct (start (store pool) item (next pool)) as [s [r|p]] eqn:Hs.
    + destruct (IH (mkPool s (Datatypes.S (next pool)) (inflight pool)
                      (<[next pool := Some r]> (results pool))))
        as (W & I & B & M & N).
      * exact Hd'.
      * now apply wellFormed_returned.
      * eapply Inv_returned; eauto.
      * splits; try assumption.
        -- unfold pendingWork in *. simpl in M. lia.
        -- simpl in N. lia.
    + splits.
      * now apply wellFormed_suspended.
      * eapply Inv_suspended; eauto.
      * right. simpl. now destruct (inflight pool).
      * unfold pendingWork. simpl. rewrite length_app. simpl. lia.
      * simpl. lia.
Qed.

Lemma refill_spec (pool : Pool) :
  wellFormed pool -> Inv pool ->
  wellFormed (refill start items pool) /\
  Inv (refill start items pool) /\
  busy (refill start items pool) /\
  pendingWork (refill start items pool) <= pendingWork pool.
Proof.
  intros Hwf Hinv.
  destruct (worker_spec (drop (next pool) items) pool eq_refl Hwf Hinv)
    as (W & I & B & M & _).
  auto.
Qed.

Lemma settle_spec (c : nat) (pool : Pool) :
  wellFormed pool -> Inv pool -> inflight pool <> [] ->
  wellFormed (settle resume c pool) /\
  Inv (settle resume c pool) /\
  Datatypes.S (pendingWork (settle resume c pool)) = pendingWork pool.
Proof.
  intros Hwf Hinv Hne. unfold settle.
  destruct (inflight pool) as [|e l] eqn:El; [congruence|].
  rewrite <- El.
  assert (c mod length (inflight pool) < length (inflight pool)) as Hk.
  { apply Nat.mod_upper_bound. rewrite El. simpl. lia. }
  destruct (lookup_lt_is_Some_2 _ _ Hk) as [[j p] Hjp].
  rewrite Hjp.
  destruct (resume (store pool) p) as [s r] eqn:Hr.
  splits.
  - eapply wellFormed_settled; eauto.
  - eapply Inv_settled; eauto.
  - unfold pendingWork. simpl. rewrite length_delete by eauto. lia.
Qed.

Lemma complete_spec (c : nat) (pool : Pool) :
  wellFormed pool -> Inv pool -> inflight pool <> [] ->
  wellFormed (complete start resume items c pool) /\
  Inv (complete start resume items c pool) /\
  busy (complete start resume items c pool) /\
  pendingWork (complete start resume items c pool) < pendingWork pool.
Proof.
  intros Hwf Hinv Hne.
  destruct (settle_spec c pool Hwf Hinv Hne) as (W & I & M).
  destruct (refill_spec _ W I) as (W' & I' & B' & M').
  unfold complete. splits; try assumption. lia.
Qed.

Lemma complete_preserves (c : nat) (pool : Pool) :
  wellFormed pool -> Inv pool ->
  wellFormed (complete start resume items c pool) /\
  Inv (complete start resume items c pool).
Proof.
  intros Hwf Hinv. destruct (inflight pool) as [|e l] eqn:El.
  - unfold complete, settle. rewrite El.
    destruct (refill_spec pool Hwf Hinv) as (W & I & _). auto.
  - assert (inflight pool <> []) as Hne by (rewrite El; discriminate).
    destruct (complete_spec c pool Hwf Hinv Hne) as (W & I & _). auto.
Qed.

Lemma settle_preserves (c : nat) (pool : Pool) :
  wellFormed pool -> Inv pool ->
  wellFormed (settle resume c pool) /\ Inv (settle resume c pool).
Proof.
  intros Hwf Hinv. destruct (inflight pool) as [|e l] eqn:El.
  - unfold settle. rewrite El. auto.
  - assert (inflight pool <> []) as Hne by (rewrite El; discriminate).
    destruct (settle_spec c pool Hwf Hinv Hne) as (W & I & _). auto.
Qed.

(** With enough fuel [drain] runs until nothing is in flight, and then every
    item has been picked. *)
Lemma drain_spec (fuel : nat) :
  forall (sched : list nat) (pool : Pool),
    wellFormed pool -> Inv pool -> busy pool ->
    pendingWork pool <= fuel ->
    wellFormed (drain start resume fuel sched items pool) /\
    Inv (drain start resume fuel sched items pool) /\
    inflight (drain start resume fuel sched items pool) = [] /\
    next (drain start resume fuel sched items pool) = length items.
Proof.
  induction fuel as [|fuel IH]; intros sched pool Hwf Hinv Hb Hm; simpl.
  - unfold pendingWork in Hm.
    assert (inflight pool = []) as Hi
      by (destruct (inflight pool); [reflexivity|simpl in Hm; lia]).
    splits; try assumption.
    destruct Hb as [Hb|Hb]; [assumption|congruence].
  - destruct (inflight pool) as [|e l] eqn:El.
    + splits; try assumption.
      destruct Hb as [Hb|Hb]; [assumption|congruence].
    + assert (inflight pool <> []) as Hne by (rewrite El; discriminate).
      destruct (complete_spec (hd 0 sched) pool Hwf Hinv Hne)
        as (W & I & B & M).
      apply IH; try assumption. lia.
Qed.

Lemma iter_refill_spec (n : nat) (pool : Pool) :
  wellFormed pool -> Inv pool ->
  wellFormed (Nat.iter n (refill start items) pool) /\
  Inv (Nat.iter n (refill start items) pool) /\
  (0 < n -> busy (Nat.iter n (refill start items) pool)) /\
  pendingWork (Nat.iter n (refill start items) pool) <= pendingWork pool.
Proof.
  intros Hwf Hinv. induction n as [|n (W & I & B & M)]; simpl.
  - splits; try assumption; lia.
  - destruct (refill_spec _ W I) as (W' & I' & B' & M').
    splits; try assumption; [intros _; exact B'|lia].
Qed.

Definition emptyPool (s0 : S) : Pool :=
  mkPool s0 0 [] (replicate (length items) None).

Lemma emptyPool_wellFormed (s0 : S) : wellFormed (emptyPool s0).
Proof.
  constructor; simpl.
  - lia.
  - apply length_replicate.
  - intros j p Hin. now apply elem_of_nil in Hin.
  - constructor.
  - lia.
Qed.

Lemma launch_spec (limit : nat) (s0 : S) :
  Inv (emptyPool s0) ->
  wellFormed (launch start items limit s0) /\
  Inv (launch start items limit s0) /\
  busy (launch start items limit s0) /\
  pendingWork (launch start items limit s0) <= length items.
Proof.
  intros Hinv. unfold launch.
  destruct (iter_refill_spec (Nat.min (Nat.max 1 limit) (length items))
              (emptyPool s0) (emptyPool_wellFormed s0) Hinv)
    as (W & I & B & M).
  splits; try assumption.
  - destruct (Nat.eq_dec (length items) 0) as [E|E].
    + assert (Nat.min (Nat.max 1 limit) (length items) = 0) as -> by lia.
      left. simpl. lia.
    + apply B. lia.
  - assert (pendingWork (emptyPool s0) = length items) as E
      by (unfold pendingWork, emptyPool; simpl; lia).
    rewrite E in M. exact M.
Qed.

Lemma poolAfter_spec (done : list nat) (limit : nat) (s0 : S) :
  Inv (emptyPool s0) ->
  wellFormed (poolAfter start resume done items limit s0) /\
  Inv (poolAfter start resume done items limit s0).
Proof.
  intros Hinv. unfold poolAfter.
  destruct (launch_spec limit s0 Hinv) as (W & I & _).
  revert W I. generalize (launch start items limit s0).
  induction done as [|c done IH]; intros pool W I; simpl; [auto|].
  destruct (complete_preserves c pool W I) as (W' & I'). now apply IH.
Qed.

(** With nothing in flight and every worker gone, a completion changes
    nothing. *)
Lemma complete_idle (c : nat) (pool : Pool) :
  wellFormed pool -> busy pool -> inflight pool = [] ->
  complete start resume items c pool = pool.
Proof.
  intros Hwf [Hb|Hb] Hi; [|congruence].
  unfold complete, settle, refill. rewrite Hi, Hb.
  now rewrite drop_all.
Qed.

Lemma complete_step (c : nat) (pool : Pool) :
  wellFormed pool -> Inv pool -> busy pool ->
  wellFormed (complete start resume items c pool) /\
  Inv (complete start resume items c pool) /\
  busy (complete start resume items c pool) /\
  pendingWork (complete start resume items c pool) <= pendingWork pool.
Proof.
  intros Hwf Hinv Hb. destruct (inflight pool) as [|e l] eqn:El.
  - rewrite complete_idle by assumption. auto.
  - assert (inflight pool <> []) as Hne by (rewrite El; discriminate).
    destruct (complete_spec c pool Hwf Hinv Hne) as (W & I & B & M).
    splits; try assumption. lia.
Qed.

(** Fuel beyond the completions still to come makes no difference. *)
Lemma drain_fuel (fuel : nat) :
  forall (fuel' : nat) (sched : list nat) (pool : Pool),
    wellFormed pool -> Inv pool ->
    pendingWork pool <= fuel -> fuel <= fuel' ->
    drain start resume fuel sched items pool
    = drain start resume fuel' sched items pool.
Proof.
  induction fuel as [|fuel IH]; intros fuel' sched pool Hwf Hinv Hm Hle.
  - assert (inflight pool = []) as Hi.
    { unfold pendingWork in Hm.
      destruct (inflight pool); [reflexivity|simpl in Hm; lia]. }
    destruct fuel'; simpl; [reflexivity|]. now rewrite Hi.
  - destruct fuel' as [|fuel']; [lia|]. simpl.
    destruct (inflight pool) as [|e l] eqn:El; [reflexivity|].
    assert (inflight pool <> []) as Hne by (rewrite El; discriminate).
    destruct (complete_spec (hd 0 sched) pool Hwf Hinv Hne)
      as (W & I & B & M).
    apply IH; try assumption; lia.
Qed.

Lemma drain_cons (fuel c : nat) (sched : list nat) (pool : Pool) :
  wellFormed pool -> Inv pool -> busy pool ->
  pendingWork pool <= fuel ->
  drain start resume fuel (c :: sched) items pool
  = drain start resume fuel sched items
      (complete start resume items c pool).
Proof.
  intros Hwf Hinv Hb Hm.
  destruct (inflight pool) as [|e l] eqn:El.
  - rewrite complete_idle by assumption.
    destruct fuel; simpl; [reflexivity|]. now rewrite El.
  - assert (inflight pool <> []) as Hne by (rewrite El; discriminate).
    destruct (complete_spec c pool Hwf Hinv Hne) as (W & I & B & M).
    destruct fuel as [|fuel].
    + unfold pendingWork in Hm. rewrite El in Hm. simpl in Hm. lia.
    + change (drain start resume (Datatypes.S fuel) (c :: sched) items pool)
        with (match inflight pool with
              | [] => pool
              | _ :: _ =>
                  drain start resume fuel sched items
                    (complete start resume items c pool)
              end).
      rewrite El. apply drain_fuel; try assumption; lia.
Qed.

Lemma drain_app (fuel : nat) (done : list nat) :
  forall (sched : list nat) (pool : Pool),
    wellFormed pool -> Inv pool -> busy pool ->
    pendingWork pool <= fuel ->
    drain start resume fuel (done ++ sched) items pool
    = drain start resume fuel sched items
        (fold_left (fun pool c => complete start resume items c pool)
           done pool).
Proof.
  induction done as [|c done IH]; intros sched pool Hwf Hinv Hb Hm; simpl;
    [reflexivity|].
  rewrite drain_cons by assumption.
  destruct (complete_step c pool Hwf Hinv Hb) as (W & I & B & M).
  apply IH; try assumption. lia.
Qed.

(** The result of [mapConcurrent], seen from the moment at which the
    completions [done] have happened and one more task completes. *)
Lemma mapConcurrent_decompose (done : list nat) (c : nat)
    (rest : list nat) (limit : nat) (s0 : S) :
  Inv (emptyPool s0) ->
  mapConcurrent start resume (done ++ c :: rest) items limit s0
  = (store
       (drain start resume (length items) rest items
          (refill start items
             (settle resume c
                (poolAfter start resume done items limit s0)))),
     results
       (drain start resume (length items) rest items
          (refill start items
             (settle resume c
                (poolAfter start resume done items limit s0))))).
Proof.
  intros Hinv. unfold mapConcurrent, poolAfter.
  destruct (launch_spec limit s0 Hinv) as (W & I & B & M).
  rewrite drain_app by assumption.
  assert (forall pool,
             wellFormed pool -> Inv pool -> busy pool ->
             pendingWork pool <= length items ->
             wellFormed
               (fold_left (fun pool c => complete start resume items c pool)
                  done pool) /\
             Inv (fold_left (fun pool c => complete start resume items c pool)
                    done pool) /\
             busy (fold_left (fun pool c => complete start resume items c pool)
                     done pool) /\
             pendingWork
               (fold_left (fun pool c => complete start resume items c pool)
                  done pool) <= length items) as Hfold.
  { induction done as [|c0 done IH]; intros pool W0 I0 B0 M0; simpl;
      [auto|].
    destruct (complete_step c0 pool W0 I0 B0) as (W1 & I1 & B1 & M1).
    apply IH; try assumption. lia. }
  destruct (Hfold _ W I B M) as (W' & I' & B' & M').
  rewrite drain_cons by assumption. reflexivity.
Qed.

(** [mapConcurrent] returns once every item has been picked and nothing is
    in flight, in a pool that satisfies the invariant. *)
Lemma mapConcurrent_spec (sched : list nat) (limit : nat) (s0 : S) :
  Inv (emptyPool s0) ->
  exists pool,
    mapConcurrent start resume sched items limit s0
    = (store pool, results pool) /\
    wellFormed pool /\ Inv pool /\
    inflight pool = [] /\ next pool = length items.
Proof.
  intros Hinv. destruct (launch_spec limit s0 Hinv) as (W & I & B & M).
  exists (drain start resume (length items) sched items
            (launch start items limit s0)).
  split; [reflexivity|].
  now apply drain_spec.
Qed.

End PoolInvariants.

Lemma elem_of_fst_delete {A} (l : list (nat * A)) (k i j : nat) (p : A) :
  l !! k = Some (j, p) -> i <> j -> i ∈ l.*1 -> i ∈ (delete k l).*1.
Proof.
  intros Hk Hij Hin.
  apply list_elem_of_fmap in Hin as ([i' q] & Hi & Hin). simpl in Hi.
  subst i'. apply list_elem_of_lookup in Hin as [m Hm].
  apply list_elem_of_fmap. exists (i, q). split; [reflexivity|].
  apply list_elem_of_lookup.
  destruct (decide (m < k)) as [Hlt|Hge].
  - exists m. now rewrite list_lookup_delete_lt.
  - assert (m <> k) as Hne by (intros ->; rewrite Hk in Hm; congruence).
    exists (m - 1). rewrite list_lookup_delete_ge by lia.
    replace (Datatypes.S (m - 1)) with m by lia. exact Hm.
Qed.

Lemma elem_of_delete_elem_of {A} (l : list A) (k : nat) (x : A) :
  x ∈ delete k l -> x ∈ l.
Proof.
  intros Hin. eapply elem_of_sublist; [exact Hin|apply sublist_delete].
Qed.

Section PureCallback.

Context {T R : Type}.
Variable fn : T -> nat -> R.
Variable items : list T.

(** What is in flight, or stored, is what the callback yields for that
    index. *)
Definition pureInv (pool : @Utils.Pool R unit R) : Prop :=
  (forall j p, (j, p) ∈ inflight pool ->
               exists x, items !! j = Some x /\ p = fn x j) /\
  (forall j x, j < next pool -> items !! j = Some x ->
               j ∈ (inflight pool).*1 \/
               results pool !! j = Some (Some (fn x j))).

Lemma pureInv_final (sched : list nat) (limit : nat) :
  exists pool,
    mapConcurrent (fun (s : unit) item i => (s, inr (fn item i)))
      (fun (s : unit) (p : R) => (s, p)) sched items limit tt
    = (store pool, results pool) /\
    wellFormed items pool /\ pureInv pool /\
    inflight pool = [] /\ next pool = length items.
Proof.
  apply mapConcurrent_spec.
  - intros pool item s r _ _ _ H. discriminate.
  - intros pool item s p Hwf [H1 H2] Hx Hs. injection Hs as <- <-.
    split; simpl.
    + intros j p Hin. apply elem_of_app in Hin as [Hin|Hin]; [eauto|].
      apply list_elem_of_singleton in Hin. injection Hin as -> ->. eauto.
    + intros j x Hj Hjx. rewrite fmap_app.
      destruct (decide (j = next pool)) as [->|Hne].
      * left. apply elem_of_app. right. simpl. apply list_elem_of_singleton.
        reflexivity.
      * destruct (H2 j x ltac:(lia) Hjx) as [Hin|Hr]; [|now right].
        left. apply elem_of_app. now left.
  - intros pool k j p s r Hwf [H1 H2] Hk Hr. injection Hr as <- <-.
    split; simpl.
    + intros i q Hin. apply H1. eapply elem_of_delete_elem_of; eauto.
    + intros i x Hi Hix.
      destruct (decide (i = j)) as [->|Hne].
      * right. destruct (H1 j p) as (x' & Hx' & ->).
        { eapply list_elem_of_lookup_2; eauto. }
        rewrite Hx' in Hix. injection Hix as ->.
        apply list_lookup_insert_eq.
        rewrite (wf_results _ _ Hwf). eapply lookup_lt_Some; eauto.
      * destruct (H2 i x Hi Hix) as [Hin|Hres].
        -- left. eapply elem_of_fst_delete; eauto.
        -- right. now rewrite list_lookup_insert_ne by congruence.
  - split; simpl.
    + intros j p Hin. now apply elem_of_nil in Hin.
    + intros j x Hj. lia.
Qed.

End PureCallback.

(** C5.  Whatever the concurrency limit and whatever the order in which the
    callbacks complete ([sched]), [mapConcurrent] returns one slot per item,
    and slot [i] holds the value the callback yields for [items[i]] and
    index [i]. *)
Theorem mapConcurrent_preserves_order :
  forall (T R : Type) (sched : list nat) (items : list T) (limit : nat)
         (fn : T -> nat -> R),
    mapConcurrentPure sched items limit fn
    = imap (fun i item => Some (fn item i)) items /\
    length (mapConcurrentPure sched items limit fn) = length items.
Proof.
  intros T R sched items limit fn.
  assert (mapConcurrentPure sched items limit fn
          = imap (fun i item => Some (fn item i)) items) as E.
  { unfold mapConcurrentPure.
    destruct (pureInv_final fn items sched limit)
      as (pool & -> & Hwf & [H1 H2] & Hi & Hn).
    simpl. apply list_eq. intros i.
    rewrite list_lookup_imap.
    destruct (items !! i) as [x|] eqn:Hx; simpl.
    - destruct (H2 i x) as [Hin|Hr]; try assumption.
      + rewrite Hn. eapply lookup_lt_Some; eauto.
      + rewrite Hi in Hin. now apply elem_of_nil in Hin.
    - apply lookup_ge_None. rewrite (wf_results _ _ Hwf).
      now apply lookup_ge_None. }
  split; [exact E|]. rewrite E. apply length_imap.
Qed.

End UtilsFacts.

(* ===================================================================== *)
(** * Properties of chain-execution.ts                                   *)
(* ===================================================================== *)

Module ChainFacts.

Import Settings ChainExecution Utils UtilsFacts.

Lemma NoDup_fst_functional {A B} (l : list (A * B)) (a : A) (b1 b2 : B) :
  NoDup l.*1 -> (a, b1) ∈ l -> (a, b2) ∈ l -> b1 = b2.
Proof.
  induction l as [|[a' b'] l IH]; intros Hnd H1 H2.
  - now apply elem_of_nil in H1.
  - rewrite fmap_cons in Hnd. apply NoDup_cons in Hnd as [Hnotin Hnd].
    apply elem_of_cons in H1 as [H1|H1]; apply elem_of_cons in H2 as [H2|H2].
    + congruence.
    + injection H1 as -> ->. exfalso. apply Hnotin.
      apply list_elem_of_fmap. exists (a', b2). auto.
    + injection H2 as -> ->. exfalso. apply Hnotin.
      apply list_elem_of_fmap. exists (a', b1). auto.
    + now apply IH.
Qed.

Lemma elem_of_delete_other {A} (l : list (nat * A)) (k i j : nat) (p q : A) :
  l !! k = Some (j, p) -> i <> j -> (i, q) ∈ l -> (i, q) ∈ delete k l.
Proof.
  intros Hk Hij Hin. apply list_elem_of_lookup in Hin as [m Hm].
  apply list_elem_of_lookup.
  destruct (decide (m < k)) as [Hlt|Hge].
  - exists m. now rewrite list_lookup_delete_lt.
  - assert (m <> k) as Hne by (intros ->; rewrite Hk in Hm; congruence).
    exists (m - 1). rewrite list_lookup_delete_ge by lia.
    replace (S (m - 1)) with m by lia. exact Hm.
Qed.

(** Effects that are all process starts, and effects that remove
    nothing. *)
Definition onlySpawns (fx : list Fx.Effect) : Prop :=
  Forall (fun e => Fx.isSpawn e = true) fx.

Definition noRemoval (fx : list Fx.Effect) : Prop :=
  Forall (fun e => match e with Fx.RmDir _ => False | _ => True end) fx.

(** [fx] is [base] followed by effects that remove nothing. *)
Definition extends (base fx : list Fx.Effect) : Prop :=
  exists more, fx = (base ++ more)%list /\ noRemoval more.

Lemma onlySpawns_noRemoval (fx : list Fx.Effect) :
  onlySpawns fx -> noRemoval fx.
Proof.
  intros Hs. eapply Forall_impl; [exact Hs|].
  intros [] H; try exact I. discriminate.
Qed.

Lemma extends_refl (fx : list Fx.Effect) : extends fx fx.
Proof. exists []. split; [now rewrite app_nil_r|constructor]. Qed.

Lemma extends_trans (a b c : list Fx.Effect) :
  extends a b -> extends b c -> extends a c.
Proof.
  intros (m1 & -> & H1) (m2 & -> & H2). exists (m1 ++ m2)%list.
  split; [now rewrite app_assoc|]. now apply Forall_app.
Qed.

Lemma extends_app (a more : list Fx.Effect) :
  noRemoval more -> extends a (a ++ more)%list.
Proof. intros H. now exists more. Qed.

Lemma runSync_onlySpawns
    (spawnPi : string -> string -> nat -> Execution.ProcRun)
    (agents : list AgentConfig) (agentName task : string)
    (options : Execution.RunSyncOptions) :
  onlySpawns (snd (Execution.runSync spawnPi agents agentName task options)).
Proof.
  unfold Execution.runSync. destruct (findAgent agents agentName); simpl.
  - repeat constructor.
  - constructor.
Qed.

Lemma spawned_app (a b : list Fx.Effect) :
  Fx.spawned (a ++ b) = (Fx.spawned a ++ Fx.spawned b)%list.
Proof. apply filter_app. Qed.

Lemma startsWith_refl (s : string) : JS.startsWith s s = true.
Proof.
  induction s as [|c s IH]; simpl; [reflexivity|].
  now rewrite Ascii.eqb_refl.
Qed.

Lemma dirExistsFrom_app (b : bool) (d : string) (a c : list Fx.Effect) :
  Fx.dirExistsFrom b d (a ++ c)
  = Fx.dirExistsFrom (Fx.dirExistsFrom b d a) d c.
Proof.
  revert b. induction a as [|e a IH]; intros b; simpl; [reflexivity|].
  destruct e; apply IH.
Qed.

Lemma dirExistsFrom_noRemoval (d : string) (fx : list Fx.Effect) :
  noRemoval fx -> Fx.dirExistsFrom true d fx = true.
Proof.
  induction 1 as [|e fx He Hfx IH]; simpl; [reflexivity|].
  destruct e; try exact IH. contradiction.
Qed.

Lemma dirExists_extends (d : string) (base fx : list Fx.Effect) :
  Fx.dirExists d base = true -> extends base fx ->
  Fx.dirExists d fx = true.
Proof.
  intros Hb (more & -> & Hm). unfold Fx.dirExists in *.
  rewrite dirExistsFrom_app, Hb. now apply dirExistsFrom_noRemoval.
Qed.

Section FailFast.

Variable spawnPi : string -> string -> nat -> Execution.ProcRun.
Variable replaceAll : string -> string -> string -> string.
Variable p : ChainExecutionParams.
Variable originalTask : option string.
Variable chainDir : string.
Variable parallelTemplates : nat -> option string.
Variable parallelBehaviors : list ResolvedStepBehavior.
Variable previous : string.
Variable baseIndex : nat.
Variable tasks : list ParallelTaskItem.

Local Abbreviation GroupPool :=
  (@Utils.Pool Execution.SingleResult GroupState Execution.SingleResult).

Local Abbreviation startT :=
  (taskStart spawnPi replaceAll p originalTask chainDir true
     parallelTemplates parallelBehaviors previous baseIndex).

Local Abbreviation resumeT := (taskResume true).

Local Abbreviation runT :=
  (parallelRun spawnPi replaceAll p originalTask chainDir parallelTemplates
     parallelBehaviors previous baseIndex).

Lemma taskStart_returns (failFast : bool) (g s : GroupState)
    (t : ParallelTaskItem) (i : nat) (r : Execution.SingleResult) :
  taskStart spawnPi replaceAll p originalTask chainDir failFast
    parallelTemplates parallelBehaviors previous baseIndex g t i
  = (s, inl r) ->
  aborted g = true /\ failFast = true /\ s = g /\ r = skippedResult t.
Proof.
  unfold taskStart. destruct (aborted g && failFast) eqn:E.
  - intros H. injection H as <- <-. apply andb_true_iff in E as [-> ->].
    auto.
  - destruct (parallelRun _ _ _ _ _ _ _ _ _ _ _). discriminate.
Qed.

Lemma taskStart_suspends (failFast : bool) (g s : GroupState)
    (t : ParallelTaskItem) (i : nat) (r : Execution.SingleResult) :
  taskStart spawnPi replaceAll p originalTask chainDir failFast
    parallelTemplates parallelBehaviors previous baseIndex g t i
  = (s, inr r) ->
  aborted g && failFast = false /\ aborted s = aborted g /\
  r = fst (parallelRun spawnPi replaceAll p originalTask chainDir
             parallelTemplates parallelBehaviors previous baseIndex t i) /\
  groupTrace s
  = (groupTrace g
     ++ snd (parallelRun spawnPi replaceAll p originalTask chainDir
               parallelTemplates parallelBehaviors previous baseIndex t i))%list
  /\
  exists fx, groupTrace s = (groupTrace g ++ fx)%list /\ onlySpawns fx.
Proof.
  unfold taskStart. destruct (aborted g && failFast) eqn:E.
  - discriminate.
  - pose proof (runSync_onlySpawns spawnPi (agents p) (agent t)
                  (parallelTask replaceAll originalTask chainDir
                     parallelTemplates parallelBehaviors previous i)
                  (Execution.mkOptions (Some (baseIndex + i)) None)) as Hfx.
    fold (parallelRun spawnPi replaceAll p originalTask chainDir
            parallelTemplates parallelBehaviors previous baseIndex t i)
      in Hfx.
    destruct (parallelRun spawnPi replaceAll p originalTask chainDir
                parallelTemplates parallelBehaviors previous baseIndex t i)
      as [r' fx].
    intros H. injection H as <- <-. simpl.
    do 4 (split; [reflexivity|]). eauto.
Qed.

Lemma taskResume_spec (failFast : bool) (g s : GroupState)
    (r0 r : Execution.SingleResult) :
  taskResume failFast g r0 = (s, r) ->
  r = r0 /\ groupTrace s = groupTrace g /\
  aborted s
  = (aborted g || (negb (Z.eqb (Execution.exitCode r0) 0) && failFast)).
Proof.
  unfold taskResume.
  destruct (negb (Z.eqb (Execution.exitCode r0) 0) && failFast);
    intros H; injection H as <- <-; simpl.
  - now rewrite orb_true_r.
  - now rewrite orb_false_r.
Qed.

(** Under fail-fast, a stored result with a non-zero exit code means the
    group has been aborted. *)
Definition failureSeen (pool : GroupPool) : Prop :=
  (exists j r, results pool !! j = Some (Some r) /\
               Execution.exitCode r <> 0%Z) ->
  aborted (store pool) = true.

Lemma failureSeen_settled (pool : GroupPool) (k j : nat)
    (r0 : Execution.SingleResult) (s : GroupState)
    (r : Execution.SingleResult) :
  wellFormed tasks pool -> failureSeen pool ->
  inflight pool !! k = Some (j, r0) ->
  resumeT (store pool) r0 = (s, r) ->
  failureSeen (mkPool s (next pool) (delete k (inflight pool))
                 (<[j := Some r]> (results pool))).
Proof.
  intros Hwf Hinv Hk Hr.
  apply taskResume_spec in Hr as (-> & _ & Ha).
  intros (i & ri & Hi & Hne). simpl in *. rewrite Ha.
  destruct (decide (i = j)) as [->|Hij].
  - rewrite list_lookup_insert_eq in Hi.
    + injection Hi as <-. rewrite andb_true_r.
      apply Z.eqb_neq in Hne. rewrite Hne. apply orb_true_r.
    + rewrite (wf_results _ _ Hwf). pose proof (wf_next _ _ Hwf).
      pose proof (wf_inflight_lt _ _ Hwf j r0
                    (list_elem_of_lookup_2 _ _ _ Hk)). lia.
  - rewrite list_lookup_insert_ne in Hi by congruence.
    rewrite Hinv by eauto. reflexivity.
Qed.

Lemma failureSeen_returned (pool : GroupPool) (item : ParallelTaskItem)
    (s : GroupState) (r : Execution.SingleResult) :
  wellFormed tasks pool -> failureSeen pool ->
  tasks !! next pool = Some item ->
  startT (store pool) item (next pool) = (s, inl r) ->
  failureSeen (mkPool s (S (next pool)) (inflight pool)
                 (<[next pool := Some r]> (results pool))).
Proof.
  intros _ _ _ Hs. apply taskStart_returns in Hs as (Ha & _ & -> & _).
  intros _. exact Ha.
Qed.

Lemma failureSeen_suspended (pool : GroupPool) (item : ParallelTaskItem)
    (s : GroupState) (r : Execution.SingleResult) :
  wellFormed tasks pool -> failureSeen pool ->
  tasks !! next pool = Some item ->
  startT (store pool) item (next pool) = (s, inr r) ->
  failureSeen (mkPool s (S (next pool))
                 (inflight pool ++ [(next pool, r)]) (results pool)).
Proof.
  intros _ Hinv _ Hs. apply taskStart_suspends in Hs as (_ & Ha & _).
  intros H. simpl in *. rewrite Ha. now apply Hinv.
Qed.

Lemma failureSeen_reachable (limit : nat) (g0 : GroupState)
    (done : list nat) (c : nat) :
  wellFormed tasks
    (settle resumeT c (poolAfter startT resumeT done tasks limit g0)) /\
  failureSeen
    (settle resumeT c (poolAfter startT resumeT done tasks limit g0)).
Proof.
  destruct (poolAfter_spec startT resumeT tasks failureSeen
              failureSeen_returned failureSeen_suspended
              failureSeen_settled done limit g0) as (W & I).
  - intros (j & r & Hj & _). simpl in Hj.
    apply lookup_replicate in Hj as [Hj _]. discriminate.
  - now apply (settle_preserves resumeT tasks failureSeen
                 failureSeen_settled).
Qed.

(** Every result the pool holds is the task's own: the result of an
    in-flight task is the one its [runSync] call returns, and the effects
    of that call are among the group's; a stored result is that, or the
    synthetic skipped result. *)
Record ownResults (pool : GroupPool) : Prop := mkOwnResults {
  own_inflight :
    forall j r, (j, r) ∈ inflight pool ->
      exists t, tasks !! j = Some t /\ r = fst (runT t j) /\
                forall e, e ∈ snd (runT t j) ->
                          e ∈ groupTrace (store pool);
  own_stored :
    forall j r, results pool !! j = Some (Some r) ->
      exists t, tasks !! j = Some t /\
                (r = skippedResult t \/ r = fst (runT t j))
}.

Lemma ownResults_returned (pool : GroupPool) (item : ParallelTaskItem)
    (s : GroupState) (r : Execution.SingleResult) :
  wellFormed tasks pool -> ownResults pool ->
  tasks !! next pool = Some item ->
  startT (store pool) item (next pool) = (s, inl r) ->
  ownResults (mkPool s (S (next pool)) (inflight pool)
                (<[next pool := Some r]> (results pool))).
Proof.
  intros _ [A1 A2] Hx Hs.
  apply taskStart_returns in Hs as (_ & _ & -> & ->).
  constructor; simpl; [exact A1|].
  intros j r Hj. apply list_lookup_insert_Some in Hj as [(<- & Hr & _)|(_ & Hj)].
  - injection Hr as <-. eauto.
  - now apply A2.
Qed.

Lemma ownResults_suspended (pool : GroupPool) (item : ParallelTaskItem)
    (s : GroupState) (r : Execution.SingleResult) :
  wellFormed tasks pool -> ownResults pool ->
  tasks !! next pool = Some item ->
  startT (store pool) item (next pool) = (s, inr r) ->
  ownResults (mkPool s (S (next pool))
                (inflight pool ++ [(next pool, r)]) (results pool)).
Proof.
  intros _ [A1 A2] Hx Hs.
  apply taskStart_suspends in Hs as (_ & _ & -> & Ht & _).
  constructor; simpl; [|exact A2].
  intros j r Hin. rewrite Ht. apply elem_of_app in Hin as [Hin|Hin].
  - destruct (A1 j r Hin) as (t & Hj & Hr & He).
    exists t. splits; try assumption.
    intros e Hin'. apply elem_of_app. left. now apply He.
  - apply list_elem_of_singleton in Hin. injection Hin as -> ->.
    exists item. splits; try assumption; [reflexivity|].
    intros e Hin'. apply elem_of_app. now right.
Qed.

Lemma ownResults_settled (pool : GroupPool) (k j : nat)
    (r0 : Execution.SingleResult) (s : GroupState)
    (r : Execution.SingleResult) :
  wellFormed tasks pool -> ownResults pool ->
  inflight pool !! k = Some (j, r0) ->
  resumeT (store pool) r0 = (s, r) ->
  ownResults (mkPool s (next pool) (delete k (inflight pool))
                (<[j := Some r]> (results pool))).
Proof.
  intros _ [A1 A2] Hk Hr.
  apply taskResume_spec in Hr as (-> & Ht & _).
  constructor; simpl.
  - intros i q Hin. rewrite Ht. apply A1.
    eapply elem_of_delete_elem_of; eauto.
  - intros i q Hi.
    apply list_lookup_insert_Some in Hi as [(<- & Hq & _)|(_ & Hi)].
    + injection Hq as <-.
      destruct (A1 j r0 (list_elem_of_lookup_2 _ _ _ Hk))
        as (t & Hj & Hr & _).
      eauto.
    + now apply A2.
Qed.

Lemma ownResults_empty (g0 : GroupState) :
  ownResults (emptyPool tasks g0).
Proof.
  constructor; simpl.
  - intros j r Hin. now apply elem_of_nil in Hin.
  - intros j r Hj. apply lookup_replicate in Hj as [Hj _]. discriminate.
Qed.

Lemma ownResults_reachable (limit : nat) (g0 : GroupState)
    (done : list nat) (c : nat) :
  ownResults
    (settle resumeT c (poolAfter startT resumeT done tasks limit g0)).
Proof.
  destruct (poolAfter_spec startT resumeT tasks ownResults
              ownResults_returned ownResults_suspended
              ownResults_settled done limit g0 (ownResults_empty g0))
    as (W & I).
  now apply (settle_preserves resumeT tasks ownResults ownResults_settled).
Qed.

Lemma ownResults_final (pool1 : GroupPool) (post : list nat) :
  wellFormed tasks pool1 -> ownResults pool1 ->
  ownResults
    (drain startT resumeT (length tasks) post tasks
       (refill startT tasks pool1)).
Proof.
  intros W1 I1.
  destruct (refill_spec startT tasks ownResults ownResults_returned
              ownResults_suspended pool1 W1 I1) as (W & I & B & M).
  apply (drain_spec startT resumeT tasks ownResults ownResults_returned
           ownResults_suspended ownResults_settled); try assumption.
  pose proof (wf_next _ _ W1). pose proof (wf_count _ _ W1).
  unfold pendingWork in *. lia.
Qed.

(** A group runs to its end, and its effects extend those it started
    with by effects that remove nothing. *)
Lemma group_run (failFast : bool) (sched : list nat) (limit : nat)
    (g0 : GroupState) :
  exists pool : GroupPool,
    mapConcurrent
      (taskStart spawnPi replaceAll p originalTask chainDir failFast
         parallelTemplates parallelBehaviors previous baseIndex)
      (taskResume failFast) sched tasks limit g0
    = (store pool, results pool) /\
    wellFormed tasks pool /\
    extends (groupTrace g0) (groupTrace (store pool)).
Proof.
  destruct (mapConcurrent_spec
              (taskStart spawnPi replaceAll p originalTask chainDir failFast
                 parallelTemplates parallelBehaviors previous baseIndex)
              (taskResume failFast) tasks
              (fun pool => extends (groupTrace g0) (groupTrace (store pool))))
    with (sched := sched) (limit := limit) (s0 := g0)
    as (pool & E & W & I & _).
  - intros pool item s r _ Hinv _ Hs.
    apply taskStart_returns in Hs as (_ & _ & -> & _). exact Hinv.
  - intros pool item s r _ Hinv _ Hs.
    apply taskStart_suspends in Hs as (_ & _ & _ & _ & fx & Hfx & Hsp).
    simpl. rewrite Hfx. eapply extends_trans; [exact Hinv|].
    apply extends_app. now apply onlySpawns_noRemoval.
  - intros pool k j r0 s r _ Hinv _ Hr.
    apply taskResume_spec in Hr as (_ & Ht & _). simpl. now rewrite Ht.
  - apply extends_refl.
  - exists pool. auto.
Qed.

Section AfterAbort.

(** A pool in which the group has been aborted. *)
Variable pool1 : GroupPool.
Hypothesis pool1_wellFormed : wellFormed tasks pool1.

(** What holds from [pool1] on: the group stays aborted, no effect is
    added, every task picked since is skipped, and the tasks that were in
    flight either still are or have stored their own result. *)
Record skipsRest (pool : GroupPool) : Prop := mkSkipsRest {
  sr_aborted : aborted (store pool) = true;
  sr_trace : groupTrace (store pool) = groupTrace (store pool1);
  sr_next : next pool1 <= next pool;
  sr_skipped :
    forall i t, next pool1 <= i < next pool -> tasks !! i = Some t ->
                results pool !! i = Some (Some (skippedResult t));
  sr_inflight :
    forall j r, (j, r) ∈ inflight pool -> (j, r) ∈ inflight pool1;
  sr_settled :
    forall j r, (j, r) ∈ inflight pool1 ->
                (j, r) ∈ inflight pool \/
                results pool !! j = Some (Some r)
}.

Lemma skipsRest_returned (pool : GroupPool) (item : ParallelTaskItem)
    (s : GroupState) (r : Execution.SingleResult) :
  wellFormed tasks pool -> skipsRest pool ->
  tasks !! next pool = Some item ->
  startT (store pool) item (next pool) = (s, inl r) ->
  skipsRest (mkPool s (S (next pool)) (inflight pool)
               (<[next pool := Some r]> (results pool))).
Proof.
  intros Hwf [A1 A2 A3 A4 A5 A6] Hx Hs.
  apply taskStart_returns in Hs as (_ & _ & -> & ->).
  assert (next pool < length (results pool)) as Hlen.
  { rewrite (wf_results _ _ Hwf). eapply lookup_lt_Some; eauto. }
  constructor; simpl; try assumption.
  - lia.
  - intros i t Hi Hit. destruct (decide (i = next pool)) as [->|Hne].
    + rewrite list_lookup_insert_eq by assumption. congruence.
    + rewrite list_lookup_insert_ne by congruence. apply A4; [lia|assumption].
  - intros j r Hin. destruct (A6 j r Hin) as [H|H]; [now left|right].
    pose proof (wf_inflight_lt _ _ pool1_wellFormed j r Hin).
    rewrite list_lookup_insert_ne by lia. exact H.
Qed.

Lemma skipsRest_settled (pool : GroupPool) (k j : nat)
    (r0 : Execution.SingleResult) (s : GroupState)
    (r : Execution.SingleResult) :
  wellFormed tasks pool -> skipsRest pool ->
  inflight pool !! k = Some (j, r0) ->
  resumeT (store pool) r0 = (s, r) ->
  skipsRest (mkPool s (next pool) (delete k (inflight pool))
               (<[j := Some r]> (results pool))).
Proof.
  intros Hwf [A1 A2 A3 A4 A5 A6] Hk Hr.
  apply taskResume_spec in Hr as (-> & Ht & Ha).
  assert ((j, r0) ∈ inflight pool) as Hjin
    by (eapply list_elem_of_lookup_2; eauto).
  pose proof (wf_inflight_lt _ _ pool1_wellFormed j r0 (A5 _ _ Hjin)) as Hj1.
  assert (j < length (results pool)) as Hlen.
  { rewrite (wf_results _ _ Hwf).
    pose proof (wf_next _ _ pool1_wellFormed). lia. }
  constructor; simpl.
  - rewrite Ha, A1. reflexivity.
  - congruence.
  - assumption.
  - intros i t Hi Hit. rewrite list_lookup_insert_ne by lia. now apply A4.
  - intros i q Hin. apply A5. eapply elem_of_delete_elem_of; eauto.
  - intros i q Hin. destruct (decide (i = j)) as [->|Hne].
    + right. rewrite list_lookup_insert_eq by assumption.
      do 2 f_equal.
      exact (NoDup_fst_functional _ j r0 q
               (wf_nodup _ _ pool1_wellFormed) (A5 _ _ Hjin) Hin).
    + destruct (A6 i q Hin) as [H|H].
      * left. eapply elem_of_delete_other; eauto.
      * right. now rewrite list_lookup_insert_ne by congruence.
Qed.

Lemma skipsRest_start (Ha : aborted (store pool1) = true) : skipsRest pool1.
Proof.
  constructor; auto.
  intros i t Hi. lia.
Qed.

Lemma skipsRest_final (post : list nat) :
  aborted (store pool1) = true ->
  exists final,
    final = drain startT resumeT (length tasks) post tasks
              (refill startT tasks pool1) /\
    wellFormed tasks final /\ skipsRest final /\
    inflight final = [] /\ next final = length tasks.
Proof.
  intros Ha. eexists. split; [reflexivity|].
  assert (forall pool item s r,
             wellFormed tasks pool -> skipsRest pool ->
             tasks !! next pool = Some item ->
             startT (store pool) item (next pool) = (s, inr r) ->
             skipsRest (mkPool s (S (next pool))
                          (inflight pool ++ [(next pool, r)])
                          (results pool))) as Hsusp.
  { intros pool item s r _ [A1 _ _ _ _ _] _ Hs.
    apply taskStart_suspends in Hs as (Hs & _ & _).
    rewrite A1 in Hs. discriminate. }
  destruct (refill_spec startT tasks skipsRest skipsRest_returned Hsusp
              pool1 pool1_wellFormed (skipsRest_start Ha))
    as (W & I & B & M).
  apply (drain_spec startT resumeT tasks skipsRest skipsRest_returned Hsusp
           skipsRest_settled); try assumption.
  pose proof (wf_next _ _ pool1_wellFormed).
  pose proof (wf_count _ _ pool1_wellFormed).
  unfold pendingWork in *. lia.
Qed.

End AfterAbort.

End FailFast.

(** C4.  In a parallel group run with [failFast], take any moment at which
    a task has just completed ([settle]) and some stored result has a
    non-zero exit code.  From then on, whatever the order of the remaining
    completions: every task not yet started ends with the synthetic skipped
    result, whose exit code is -1, and no worker is started for it (the
    effects of the group stay as they were); every task that was in flight
    ends with the result of its own [runSync] call, whose worker has been
    started; every result of the group is either that of the task's own
    [runSync] call or the skipped one, and the former never has exit code
    -1 when no worker process exits with -1; the group runs to the end;
    and the state reached is the one [mapConcurrent] returns. *)
Theorem failFast_skips_unstarted :
  forall (spawnPi : string -> string -> nat -> Execution.ProcRun)
         (replaceAll : string -> string -> string -> string)
         (p : ChainExecutionParams) (originalTask : option string)
         (chainDir : string) (failFast : bool)
         (parallelTemplates : nat -> option string)
         (parallelBehaviors : list ResolvedStepBehavior)
         (previous : string) (baseIndex : nat)
         (tasks : list ParallelTaskItem) (limit : nat) (g0 : GroupState)
         (done : list nat) (c : nat) (rest : list nat),
    let start :=
      taskStart spawnPi replaceAll p originalTask chainDir failFast
        parallelTemplates parallelBehaviors previous baseIndex in
    let run :=
      parallelRun spawnPi replaceAll p originalTask chainDir
        parallelTemplates parallelBehaviors previous baseIndex in
    let pool1 :=
      settle (taskResume failFast) c
        (poolAfter start (taskResume failFast) done tasks limit g0) in
    let final :=
      drain start (taskResume failFast) (length tasks) rest tasks
        (refill start tasks pool1) in
    failFast = true ->
    (exists j r, results pool1 !! j = Some (Some r) /\
                 Execution.exitCode r <> 0%Z) ->
    (forall i t,
        next pool1 <= i -> tasks !! i = Some t ->
        results final !! i = Some (Some (skippedResult t)) /\
        Execution.exitCode (skippedResult t) = (-1)%Z) /\
    groupTrace (store final) = groupTrace (store pool1) /\
    (forall j r,
        (j, r) ∈ inflight pool1 ->
        exists t, tasks !! j = Some t /\ r = fst (run t j) /\
                  (forall e, e ∈ snd (run t j) ->
                             e ∈ groupTrace (store final)) /\
                  results final !! j = Some (Some r)) /\
    (forall j r,
        results final !! j = Some (Some r) ->
        exists t, tasks !! j = Some t /\
                  (r = skippedResult t \/ r = fst (run t j))) /\
    ((forall (a t : string) (i : nat),
         Execution.code (spawnPi a t i) <> Some (-1)%Z) ->
     forall t j, Execution.exitCode (fst (run t j)) <> (-1)%Z) /\
    inflight final = [] /\ next final = length tasks /\
    mapConcurrent start (taskResume failFast) (done ++ c :: rest) tasks
      limit g0
    = (store final, results final).
Proof.
  intros spawnPi replaceAll p originalTask chainDir failFast
    parallelTemplates parallelBehaviors previous baseIndex tasks limit g0
    done c rest start run pool1 final -> Hfailed.
  assert (mapConcurrent start (taskResume true) (done ++ c :: rest) tasks
            limit g0
          = (store final, results final)) as Hrun
    by (apply (mapConcurrent_decompose start (taskResume true) tasks
                 (fun _ => True)); auto).
  destruct (failureSeen_reachable spawnPi replaceAll p originalTask chainDir
              parallelTemplates parallelBehaviors previous baseIndex tasks
              limit g0 done c) as (W1 & I1).
  pose proof (ownResults_reachable spawnPi replaceAll p originalTask chainDir
                parallelTemplates parallelBehaviors previous baseIndex tasks
                limit g0 done c) as O1.
  fold start in W1, I1, O1. fold pool1 in W1, I1, O1.
  specialize (I1 Hfailed).
  pose proof (ownResults_final spawnPi replaceAll p originalTask chainDir
                parallelTemplates parallelBehaviors previous baseIndex tasks
                pool1 rest W1 O1) as [_ O2].
  fold start in O2. fold final in O2. fold run in O2.
  destruct O1 as [O1 _]. fold run in O1.
  destruct (skipsRest_final spawnPi replaceAll p originalTask chainDir
              parallelTemplates parallelBehaviors previous baseIndex tasks
              pool1 W1 rest I1)
    as (final' & E & W & [A1 A2 A3 A4 A5 A6] & Hi & Hn).
  fold start in E. fold final in E. subst final'.
  split; [|split; [assumption|split; [|split; [exact O2|split]]]].
  - intros i t Hle Hit. split; [|reflexivity].
    apply A4; [|assumption]. split; [assumption|].
    rewrite Hn. eapply lookup_lt_Some; eauto.
  - intros j r Hin. destruct (O1 j r Hin) as (t & Hj & Hr & He).
    exists t. split; [assumption|]. split; [assumption|]. split.
    + intros e Hine. rewrite A2. now apply He.
    + destruct (A6 j r Hin) as [H|H]; [|assumption].
      rewrite Hi in H. now apply elem_of_nil in H.
  - intros Hnever t j. unfold run, parallelRun.
    now apply ExecutionFacts.runSync_not_skipped.
  - auto.
Qed.

Section Orchestrator.

Variable spawnPi : string -> string -> nat -> Execution.ProcRun.
Variable getFinalOutput : list Execution.Message -> string.
Variable buildChainSummary :
  list ChainStep -> list Execution.SingleResult -> string -> string ->
  option (nat * string) -> string.
Variable uiCustom :
  list AgentConfig -> list string -> option string -> string ->
  list ResolvedStepBehavior -> option ChainClarifyResult.
Variable replaceAll : string -> string -> string -> string.
Variable MAX_CONCURRENCY : nat.
Variable completionOrder : nat -> list nat.

Local Abbreviation loop :=
  (stepLoop spawnPi getFinalOutput buildChainSummary replaceAll
     MAX_CONCURRENCY completionOrder).

Local Abbreviation oneStep :=
  (chainStep spawnPi getFinalOutput buildChainSummary replaceAll
     MAX_CONCURRENCY completionOrder).

Lemma stepLoop_app (p : ChainExecutionParams) (ot : option string)
    (d : string) (tpls : list ResolvedTemplate)
    (tui : option (list (option StepOverrides))) (pre : list ChainStep) :
  forall (i : nat) (rest : list ChainStep) (st : LoopState),
    loop p ot d tpls tui i (pre ++ rest) st
    = match loop p ot d tpls tui i pre st with
      | Continue st' => loop p ot d tpls tui (i + length pre) rest st'
      | Halt o fx => Halt o fx
      end.
Proof.
  induction pre as [|step pre IH]; intros i rest st; simpl.
  - now rewrite Nat.add_0_r.
  - destruct (oneStep p ot d tpls tui i step st) as [st'|o fx];
      [|reflexivity].
    rewrite IH. now replace (S i + length pre) with (i + S (length pre))
      by lia.
Qed.

Lemma runSync_known (agents : list AgentConfig) (agentName task : string)
    (options : Execution.RunSyncOptions) (cfg : AgentConfig) :
  findAgent agents agentName = Some cfg ->
  snd (Execution.runSync spawnPi agents agentName task options)
  = [Fx.Spawn agentName task (JS.nullish (Execution.optIndex options) 0)].
Proof. intros H. unfold Execution.runSync. now rewrite H. Qed.

Lemma sequentialStep_continue (p : ChainExecutionParams)
    (ot : option string) (d : string)
    (tui : option (list (option StepOverrides))) (i : nat)
    (s : SequentialStep) (tpl : option ResolvedTemplate)
    (st st' : LoopState) :
  sequentialStep spawnPi getFinalOutput buildChainSummary replaceAll p ot d
    tui i s tpl st = Continue st' ->
  extends (trace st) (trace st') /\
  length (loopResults st') = length (loopResults st) + 1.
Proof.
  unfold sequentialStep.
  destruct (findAgent (agents p) (agent s)) as [cfg|]; [|discriminate].
  destruct tpl as [[t|ts]|]; try discriminate.
  unfold sequentialRun.
  match goal with
  | |- context [Execution.runSync ?w ?a ?n ?t ?o] =>
      pose proof (runSync_onlySpawns w a n t o) as Hfx;
      destruct (Execution.runSync w a n t o) as [r fx]
  end.
  simpl in Hfx. cbv zeta.
  destruct (negb (Z.eqb (Execution.exitCode r) 0)); [discriminate|].
  intros H. injection H as <-. simpl. split.
  - apply extends_app. now apply onlySpawns_noRemoval.
  - now rewrite length_app.
Qed.

Lemma createParallelDirs_noRemoval (d : string) (i n : nat)
    (names : list string) :
  noRemoval (createParallelDirs d i n names).
Proof.
  unfold createParallelDirs, noRemoval.
  induction (seq 0 n); simpl; constructor; [exact I|assumption].
Qed.

Lemma parallelGroup_continue (p : ChainExecutionParams)
    (ot : option string) (d : string) (i : nat) (ps : ParallelStep)
    (pt : nat -> option string) (pbs : list ResolvedStepBehavior)
    (created : bool) (fx : list Fx.Effect) (st st' : LoopState) :
  parallelGroup spawnPi getFinalOutput buildChainSummary replaceAll
    MAX_CONCURRENCY completionOrder p ot d i ps pt pbs created fx st
  = Continue st' ->
  extends fx (trace st') /\
  length (loopResults st') = length (loopResults st) + length (parallel ps).
Proof.
  unfold parallelGroup. cbv zeta.
  match goal with
  | |- context [mapConcurrent (taskStart _ _ _ _ _ ?ff _ _ ?pv ?b)
                  _ ?sched _ ?limit ?g0] =>
      destruct (group_run spawnPi replaceAll p ot d pt pbs pv b (parallel ps)
                  ff sched limit g0) as (pool & -> & W & E)
  end.
  destruct (mapM id (results pool)) as [rs|] eqn:Hm; [|discriminate].
  destruct (failureLinesFrom 0 rs); [|discriminate].
  intros H. injection H as <-. simpl. split; [exact E|].
  rewrite length_app. f_equal.
  apply length_mapM in Hm. rewrite <- Hm. apply (wf_results _ _ W).
Qed.

Lemma parallelStep_continue (p : ChainExecutionParams)
    (ot : option string) (d : string) (i : nat) (ps : ParallelStep)
    (tpl : option ResolvedTemplate) (st st' : LoopState) :
  parallelStep spawnPi getFinalOutput buildChainSummary replaceAll
    MAX_CONCURRENCY completionOrder p ot d i ps tpl st = Continue st' ->
  extends (trace st) (trace st') /\
  length (loopResults st') = length (loopResults st) + length (parallel ps).
Proof.
  unfold parallelStep. cbv zeta.
  destruct (resolveParallelBehaviors (parallel ps) (agents p) i)
    as [pbs|msg]; [|discriminate].
  intros H.
  assert (exists created fx pt,
             extends (trace st) fx /\
             parallelGroup spawnPi getFinalOutput buildChainSummary
               replaceAll MAX_CONCURRENCY completionOrder p ot d i ps pt pbs
               created fx st = Continue st') as (created & fx & pt & E & G).
  { pose proof (createParallelDirs_noRemoval d i (length (parallel ps))
                  (map agent (parallel ps))) as Hdirs.
    destruct (existsb progress pbs && negb (progressCreated st));
      (destruct tpl as [tpl|];
       [|destruct (parallel ps) as [|t0 ts] eqn:Hps; [|discriminate H]]);
      do 3 eexists; (split; [|exact H]).
    all: try (rewrite <- app_assoc; apply extends_app; apply Forall_app;
              split; [exact Hdirs|repeat constructor]).
    all: apply extends_app; exact Hdirs. }
  apply parallelGroup_continue in G as (E' & L).
  split; [eapply extends_trans; eauto|exact L].
Qed.

Lemma chainStep_continue (p : ChainExecutionParams) (ot : option string)
    (d : string) (tpls : list ResolvedTemplate)
    (tui : option (list (option StepOverrides))) (i : nat)
    (step : ChainStep) (st st' : LoopState) :
  oneStep p ot d tpls tui i step st = Continue st' ->
  extends (trace st) (trace st') /\
  length (loopResults st')
  = length (loopResults st) + getStepTaskCount step.
Proof.
  unfold chainStep. destruct step as [s|ps].
  - apply sequentialStep_continue.
  - apply parallelStep_continue.
Qed.

Lemma stepLoop_continue (p : ChainExecutionParams) (ot : option string)
    (d : string) (tpls : list ResolvedTemplate)
    (tui : option (list (option StepOverrides))) (steps : list ChainStep) :
  forall (i : nat) (st st' : LoopState),
    loop p ot d tpls tui i steps st = Continue st' ->
    extends (trace st) (trace st') /\
    length (loopResults st')
    = length (loopResults st) + sum_list (map getStepTaskCount steps).
Proof.
  induction steps as [|step steps IH]; intros i st st' H; simpl in H.
  - injection H as <-. split; [apply extends_refl|simpl; lia].
  - destruct (oneStep p ot d tpls tui i step st) as [st1|o fx] eqn:E;
      [|discriminate].
    apply chainStep_continue in E as (E1 & L1).
    apply IH in H as (E2 & L2). split.
    + eapply extends_trans; eauto.
    + simpl. lia.
Qed.

Lemma initial_trace (d : string) (fx : list Fx.Effect) :
  extends [Fx.MkDir d] fx -> Fx.dirExists d fx = true.
Proof.
  apply dirExists_extends. unfold Fx.dirExists. simpl.
  apply startsWith_refl.
Qed.

(** X23.  The step loop at a failing sequential step.  When the steps
    before a sequential step have run without halting the loop, and the
    worker of that step exits with a non-zero code, the loop returns an
    error result
    at once: its task results are those of the steps before followed by the
    failing one (one result per task that ran, none for a later step), it
    reports the index of the failing step, no later step has any effect,
    and the chain directory still exists. *)
Lemma stepLoop_sequential_failure :
  forall (p : ChainExecutionParams) (ot : option string)
         (tpls : list ResolvedTemplate)
         (tui : option (list (option StepOverrides)))
         (pre : list ChainStep) (s : SequentialStep) (post : list ChainStep)
         (st : LoopState) (tpl : string) (cfg : AgentConfig),
    chain p = (pre ++ Sequential s :: post)%list ->
    loop p ot (chainDirOf (runId p)) tpls tui 0 pre
      (initialLoop [Fx.MkDir (chainDirOf (runId p))]) = Continue st ->
    tpls !! length pre = Some (TemplateOne tpl) ->
    findAgent (agents p) (agent s) = Some cfg ->
    let stepTask :=
      sequentialTask replaceAll ot (chainDirOf (runId p)) tpl
        (sequentialBehavior tui (length pre) s cfg) st in
    let r :=
      fst (Execution.runSync spawnPi (agents p) (agent s) stepTask
             (Execution.mkOptions (Some (globalTaskIndex st)) None)) in
    Execution.exitCode r <> 0%Z ->
    exists res,
      runSteps spawnPi getFinalOutput buildChainSummary replaceAll
        MAX_CONCURRENCY completionOrder p ot tpls tui
      = (Resolved res,
         (trace st ++ [Fx.Spawn (agent s) stepTask (globalTaskIndex st)])%list)
      /\
      isError res = true /\
      ChainExecution.results (details res) = (loopResults st ++ [r])%list /\
      length (ChainExecution.results (details res))
      = sum_list (map getStepTaskCount pre) + 1 /\
      currentStepIndex (details res) = Some (length pre) /\
      Fx.dirExists (chainDirOf (runId p))
        (trace st ++ [Fx.Spawn (agent s) stepTask (globalTaskIndex st)])
      = true.
Proof.
  intros p ot tpls tui pre s post st tpl cfg Hchain Hloop Htpl Hf
    stepTask r Hfail.
  destruct (stepLoop_continue _ _ _ _ _ _ _ _ _ Hloop) as (Hext & Hlen).
  simpl in Hlen.
  assert (snd (Execution.runSync spawnPi (agents p) (agent s) stepTask
                 (Execution.mkOptions (Some (globalTaskIndex st)) None))
          = [Fx.Spawn (agent s) stepTask (globalTaskIndex st)]) as Hfx
    by (now apply runSync_known with cfg).
  unfold runSteps. rewrite Hchain, stepLoop_app, Hloop.
  simpl loop. unfold chainStep. simpl Nat.add. rewrite Htpl.
  unfold sequentialStep. rewrite Hf. unfold sequentialRun. cbv zeta.
  fold stepTask.
  destruct (Execution.runSync spawnPi (agents p) (agent s) stepTask
              (Execution.mkOptions (Some (globalTaskIndex st)) None))
    as [r' fx] eqn:Hrun.
  simpl in r, Hfx. subst r fx.
  apply Z.eqb_neq in Hfail. rewrite Hfail. simpl.
  eexists. split; [reflexivity|]. simpl. splits; try reflexivity.
  - rewrite length_app. simpl. lia.
  - apply initial_trace. eapply extends_trans; [exact Hext|].
    apply extends_app. repeat constructor.
Qed.

Lemma spawned_none (fx : list Fx.Effect) :
  Forall (fun e => Fx.isSpawn e = false) fx -> Fx.spawned fx = [].
Proof.
  unfold Fx.spawned. induction 1 as [|e fx He Hfx IH]; [reflexivity|].
  rewrite filter_cons. destruct (decide (Fx.isSpawn e = true)); [|exact IH].
  congruence.
Qed.

Lemma spawned_createParallelDirs (d : string) (i n : nat)
    (names : list string) :
  Fx.spawned (createParallelDirs d i n names) = [].
Proof.
  apply spawned_none. unfold createParallelDirs.
  induction (seq 0 n); simpl; constructor; [reflexivity|assumption].
Qed.

Lemma existsb_isUnknown_tasks (agentConfigs : list AgentConfig)
    (tasks : list ParallelTaskItem) :
  existsb (Spec.isUnknown agentConfigs) (map agent tasks)
  = existsb (fun t => match findAgent agentConfigs (agent t) with
                      | None => true
                      | Some _ => false
                      end) tasks.
Proof.
  induction tasks as [|t tasks IH]; simpl; [reflexivity|].
  now rewrite IH.
Qed.

(** C1 (as the code has it).  In the step loop of [executeChain], an agent
    reference is checked when the loop reaches the step that makes it.  If
    the steps before a step have run without halting the loop and the step
    names an agent that is not registered, the loop stops there with the
    error [Unknown agent: <name>] (returned for a sequential step, thrown
    for a parallel group), and no worker is started for that step or any
    later one: the workers started are those of the steps before. *)
Theorem unknown_agent_detected_at_step :
  forall (p : ChainExecutionParams) (ot : option string)
         (tpls : list ResolvedTemplate)
         (tui : option (list (option StepOverrides)))
         (pre : list ChainStep) (step : ChainStep) (post : list ChainStep)
         (st : LoopState),
    chain p = (pre ++ step :: post)%list ->
    loop p ot (chainDirOf (runId p)) tpls tui 0 pre
      (initialLoop [Fx.MkDir (chainDirOf (runId p))]) = Continue st ->
    Spec.referencesUnknown (agents p) step = true ->
    exists name fx,
      In name (getStepAgents step) /\
      findAgent (agents p) name = None /\
      runSteps spawnPi getFinalOutput buildChainSummary replaceAll
        MAX_CONCURRENCY completionOrder p ot tpls tui
      = (match step with
         | Sequential _ => unknownAgentError name
         | Parallel _ => Rejected ("Unknown agent: " ++ name)
         end, fx) /\
      Fx.spawned fx = Fx.spawned (trace st).
Proof.
  intros p ot tpls tui pre step post st Hchain Hloop Hu.
  unfold runSteps. rewrite Hchain.
  rewrite stepLoop_app, Hloop. simpl loop.
  unfold chainStep. simpl Nat.add.
  destruct step as [s|ps].
  - unfold Spec.referencesUnknown, Spec.isUnknown in Hu. simpl in Hu.
    unfold sequentialStep.
    destruct (findAgent (agents p) (agent s)) eqn:Hf; [discriminate|].
    exists (agent s). eexists. simpl. splits; try reflexivity; auto.
    rewrite spawned_app. simpl. apply app_nil_r.
  - unfold Spec.referencesUnknown in Hu. simpl in Hu.
    rewrite existsb_isUnknown_tasks in Hu.
    destruct (SettingsFacts.resolveParallelBehaviorsFrom_unknown
                (agents p) (length pre) (parallel ps) 0 Hu)
      as (task & Hin & Hnone & Hr).
    unfold parallelStep. cbv zeta.
    fold (resolveParallelBehaviors (parallel ps) (agents p) (length pre))
      in Hr. rewrite Hr.
    exists (agent task). eexists. simpl. splits; try reflexivity; auto.
    + now apply in_map.
    + rewrite spawned_app, spawned_createParallelDirs. apply app_nil_r.
Qed.

(** The call [resolveChainTemplates(chainSteps)] of [executeChain] leaves
    out the settings, and fails on reading them. *)
Lemma resolveChainTemplates_without_settings (agentNames : list string)
    (inlineTasks : option (list (option string))) :
  resolveChainTemplates agentNames inlineTasks None = inr "TypeError".
Proof. reflexivity. Qed.

End Orchestrator.

(** C6 (the code at the claim's input).  [executeChain] never reaches its
    step loop: whatever the chain, the promise it returns is rejected with
    the [TypeError] of the template resolution (or, for a chain without a
    first task, of reading that task), no worker is started, and the only
    effect is the creation of the chain directory.  For the two-step chain
    of scenario C, whose workers exit 1, no step runs and no result with
    the index of the failing step is returned. *)
Theorem executeChain_stops_at_template_resolution :
  (forall (spawnPi : string -> string -> nat -> Execution.ProcRun)
          (getFinalOutput : list Execution.Message -> string)
          (buildChainSummary :
             list ChainStep -> list Execution.SingleResult -> string ->
             string -> option (nat * string) -> string)
          (uiCustom :
             list AgentConfig -> list string -> option string -> string ->
             list ResolvedStepBehavior -> option ChainClarifyResult)
          (replaceAll : string -> string -> string -> string)
          (MAX_CONCURRENCY : nat) (completionOrder : nat -> list nat)
          (p : ChainExecutionParams),
      exists fx,
        executeChain spawnPi getFinalOutput buildChainSummary uiCustom
          replaceAll MAX_CONCURRENCY completionOrder p
        = (Rejected "TypeError", fx) /\
        (fx = [] \/ fx = [Fx.MkDir (chainDirOf (runId p))]) /\
        Fx.spawned fx = []) /\
  Spec.runChain Spec.allCrash [] Spec.twoSteps
  = (Rejected "TypeError", [Fx.MkDir "/tmp/pi-chain-runs/run"]).
Proof.
  split; [|reflexivity].
  intros spawnPi getFinalOutput buildChainSummary uiCustom replaceAll
    MAX_CONCURRENCY completionOrder p.
  unfold executeChain, prepare.
  destruct (chain p) as [|firstStep rest].
  - exists []. auto.
  - match goal with
    | |- context [match ?first with Some _ => _ | None => _ end] =>
        destruct first as [originalTask|]
    end.
    + rewrite resolveChainTemplates_without_settings. eexists.
      split; [reflexivity|]. split; [now right|reflexivity].
    + exists []. auto.
Qed.

Lemma stepLoop_sequential_failure_witness :
  exists res,
    runSteps Spec.allCrash Spec.lastText Spec.statusOnly Spec.replaceAll 4
      (fun _ => []) Spec.twoSteps (Some "Do first thing")
      [TemplateOne "Do first thing"; TemplateOne "{previous}"] None
    = (Resolved res,
       [Fx.MkDir "/tmp/pi-chain-runs/run";
        Fx.Spawn "step1" "Do first thing" 0]) /\
    isError res = true /\
    ChainExecution.results (details res)
    = [fst (Execution.runSync Spec.allCrash (agents Spec.twoSteps) "step1"
              "Do first thing" (Execution.mkOptions (Some 0) None))] /\
    length (ChainExecution.results (details res)) = 1 /\
    currentStepIndex (details res) = Some 0 /\
    Fx.dirExists "/tmp/pi-chain-runs/run"
      [Fx.MkDir "/tmp/pi-chain-runs/run";
       Fx.Spawn "step1" "Do first thing" 0] = true.
Proof.
  refine (stepLoop_sequential_failure Spec.allCrash Spec.lastText
            Spec.statusOnly Spec.replaceAll 4
            (fun _ => []) Spec.twoSteps (Some "Do first thing")
            [TemplateOne "Do first thing"; TemplateOne "{previous}"] None []
            (Spec.plainStep "step1" (Some "Do first thing"))
            [Sequential (Spec.plainStep "step2" None)]
            (initialLoop [Fx.MkDir "/tmp/pi-chain-runs/run"])
            "Do first thing" (Spec.plainAgent "step1")
            eq_refl eq_refl eq_refl eq_refl _).
  simpl. discriminate.
Defined.

Lemma unknown_agent_detected_at_step_witness :
  exists name fx,
    In name (getStepAgents (Sequential (Spec.plainStep "nonexistent" None)))
    /\
    findAgent (agents Spec.brokenReference) name = None /\
    runSteps Spec.allSucceed Spec.lastText Spec.statusOnly Spec.replaceAll 4
      (fun _ => []) Spec.brokenReference (Some "Start")
      [TemplateOne "Start"; TemplateOne "{previous}"] None
    = (unknownAgentError name, fx) /\
    Fx.spawned fx = [Fx.Spawn "scout" "Start" 0].
Proof.
  refine (unknown_agent_detected_at_step Spec.allSucceed Spec.lastText
            Spec.statusOnly Spec.replaceAll 4 (fun _ => [])
            Spec.brokenReference (Some "Start")
            [TemplateOne "Start"; TemplateOne "{previous}"] None
            [Sequential (Spec.plainStep "scout" (Some "Start"))]
            (Sequential (Spec.plainStep "nonexistent" None)) [] _
            eq_refl eq_refl eq_refl).
Defined.

(** C1, as stated, fails on [Spec.brokenReference], whose second step names
    an agent that is not registered.  [executeChain] surfaces no
    unknown-agent error for it: the promise is rejected with the
    [TypeError] of the template resolution.  And its step loop, run on the
    templates of that chain, returns the unknown-agent error only after the
    worker of the first step has been started. *)
Lemma unknown_agent_found_after_spawn :
  existsb (Spec.referencesUnknown (agents Spec.brokenReference))
    (chain Spec.brokenReference) = true /\
  Spec.runChain Spec.allSucceed [] Spec.brokenReference
  = (Rejected "TypeError", [Fx.MkDir "/tmp/pi-chain-runs/run"]) /\
  runSteps Spec.allSucceed Spec.lastText Spec.statusOnly Spec.replaceAll 4
    (fun _ => []) Spec.brokenReference (Some "Start")
    [TemplateOne "Start"; TemplateOne "{previous}"] None
  = (unknownAgentError "nonexistent",
     [Fx.MkDir "/tmp/pi-chain-runs/run"; Fx.Spawn "scout" "Start" 0;
      Fx.RmDir "/tmp/pi-chain-runs/run"]).
Proof. repeat split; reflexivity. Qed.

Lemma failFast_skips_unstarted_witness :
  (forall i t,
      next Spec.groupPool1 <= i -> Spec.fiveTasks !! i = Some t ->
      results Spec.groupFinal !! i = Some (Some (skippedResult t)) /\
      Execution.exitCode (skippedResult t) = (-1)%Z) /\
  groupTrace (store Spec.groupFinal) = groupTrace (store Spec.groupPool1) /\
  (forall j r,
      (j, r) ∈ inflight Spec.groupPool1 ->
      exists t, Spec.fiveTasks !! j = Some t /\
                r = fst (Spec.groupRun t j) /\
                (forall e, e ∈ snd (Spec.groupRun t j) ->
                           e ∈ groupTrace (store Spec.groupFinal)) /\
                results Spec.groupFinal !! j = Some (Some r)) /\
  (forall j r,
      results Spec.groupFinal !! j = Some (Some r) ->
      exists t, Spec.fiveTasks !! j = Some t /\
                (r = skippedResult t \/ r = fst (Spec.groupRun t j))) /\
  ((forall (a t : string) (i : nat),
       Execution.code (Spec.secondFails a t i) <> Some (-1)%Z) ->
   forall t j, Execution.exitCode (fst (Spec.groupRun t j)) <> (-1)%Z) /\
  inflight Spec.groupFinal = [] /\
  next Spec.groupFinal = length Spec.fiveTasks /\
  mapConcurrent Spec.groupStart (taskResume true) [1; 0] Spec.fiveTasks 2
    (mkGroup false [])
  = (store Spec.groupFinal, results Spec.groupFinal).
Proof.
  refine (failFast_skips_unstarted Spec.secondFails Spec.replaceAll
            Spec.groupParams None (chainDirOf "run") true (fun _ => None)
            (replicate 5 (mkBehavior OutFalse ReadsFalse false)) "" 0
            Spec.fiveTasks 2 (mkGroup false []) [] 1 [0] eq_refl _).
  exists 1. eexists. split; [reflexivity|]. simpl. discriminate.
Defined.

End ChainFacts.

(* ===================================================================== *)
(** * Templates of a chain (settings.ts)                                 *)
(* ===================================================================== *)

Module TemplateFacts.

Import Settings.

(** A template list has the shape of a chain when it holds a string for
    every sequential step and one string per task for every parallel
    step. *)
Inductive shaped : ResolvedTemplate -> ChainStep -> Prop :=
| shaped_sequential (t : string) (s : SequentialStep) :
    shaped (TemplateOne t) (Sequential s)
| shaped_parallel (ts : list string) (p : ParallelStep) :
    length ts = length (parallel p) ->
    shaped (TemplateMany ts) (Parallel p).

(** The number of tasks of a chain. *)
Definition taskTotal (steps : list ChainStep) : nat :=
  sum_list (map getStepTaskCount steps).

Lemma unflattenFrom_flatten (steps : list ChainStep) :
  forall (templates : list ResolvedTemplate) (pre : list string),
    Forall2 shaped templates steps ->
    unflattenFrom (length pre) (pre ++ flattenTemplates templates)%list steps
    = map Some templates.
Proof.
  induction steps as [|step steps IH]; intros templates pre H;
    inversion H as [|t step' ts steps' Hs Hrest]; subst; [reflexivity|].
  inversion Hs as [s q|l p Hlen]; subst; simpl.
  - rewrite lookup_app_r, Nat.sub_diag by lia. simpl. f_equal.
    specialize (IH ts (pre ++ [s])%list Hrest).
    rewrite length_app, <- app_assoc in IH. simpl in IH.
    rewrite Nat.add_1_r in IH. exact IH.
  - rewrite drop_app_length, <- Hlen, take_app_length. f_equal.
    specialize (IH ts (pre ++ l)%list Hrest).
    rewrite length_app, <- app_assoc in IH. exact IH.
Qed.

Lemma flattenTemplates_length (steps : list ChainStep) :
  forall templates : list ResolvedTemplate,
    Forall2 shaped templates steps ->
    length (flattenTemplates templates) = taskTotal steps.
Proof.
  induction steps as [|step steps IH]; intros templates H;
    inversion H as [|t step' ts steps' Hs Hrest]; subst; [reflexivity|].
  unfold taskTotal in *. inversion Hs as [s q|l p Hlen]; subst; simpl.
  - now rewrite IH.
  - rewrite length_app, IH by assumption. now rewrite Hlen.
Qed.

Lemma resolveChainTemplatesV2From_shaped (steps : list ChainStep) :
  forall i : nat, Forall2 shaped (resolveChainTemplatesV2From i steps) steps.
Proof.
  induction steps as [|[s|p] steps IH]; intros i; simpl; constructor;
    try apply IH; constructor.
  now rewrite length_map.
Qed.

(** X1.  Flattening templates that have the shape of the chain and
    unflattening the result against the chain gives the templates back,
    with no undefined entry, and the flat list has one entry per task. *)
Theorem unflatten_flatten_roundtrip :
  forall (steps : list ChainStep) (templates : list ResolvedTemplate),
    Forall2 shaped templates steps ->
    unflattenTemplates (flattenTemplates templates) steps
    = map Some templates /\
    length (flattenTemplates templates) = taskTotal steps.
Proof.
  intros steps templates H. split.
  - exact (unflattenFrom_flatten steps templates [] H).
  - now apply flattenTemplates_length.
Qed.

Lemma unflattenFrom_total (steps : list ChainStep) :
  forall (pre flat : list string),
    length flat = taskTotal steps ->
    exists templates,
      Forall2 shaped templates steps /\
      unflattenFrom (length pre) (pre ++ flat)%list steps = map Some templates /\
      flattenTemplates templates = flat.
Proof.
  induction steps as [|[s|p] steps IH]; intros pre flat Hlen;
    unfold taskTotal in Hlen; simpl in Hlen.
  - exists []. destruct flat; [|discriminate]. repeat constructor.
  - destruct flat as [|t flat]; [discriminate|].
    injection Hlen as Hlen.
    destruct (IH (pre ++ [t])%list flat Hlen) as (ts & Hs & Hu & Hf).
    exists (TemplateOne t :: ts). split; [|split].
    + constructor; [constructor|assumption].
    + simpl. rewrite lookup_app_r, Nat.sub_diag by lia. simpl. f_equal.
      rewrite length_app, <- app_assoc in Hu. simpl in Hu.
      rewrite Nat.add_1_r in Hu. exact Hu.
    + simpl. now rewrite Hf.
  - set (n := length (parallel p)) in *.
    assert (length (drop n flat) = taskTotal steps) as Hrest
      by (rewrite length_drop; unfold taskTotal; fold n; lia).
    destruct (IH (pre ++ take n flat)%list (drop n flat) Hrest)
      as (ts & Hs & Hu & Hf).
    exists (TemplateMany (take n flat) :: ts). split; [|split].
    + constructor; [|assumption]. constructor.
      rewrite length_take. fold n. lia.
    + simpl. fold n. rewrite drop_app_length. f_equal.
      rewrite length_app, <- app_assoc, take_drop, length_take in Hu.
      replace (length pre + n `min` length flat) with (length pre + n)
        in Hu by lia.
      exact Hu.
    + simpl. rewrite Hf. apply take_drop.
Qed.

(** X2.  A flat list with one entry per task of the chain unflattens to
    templates of the chain's shape, without an undefined entry, and
    flattening them gives the flat list back. *)
Theorem flatten_unflatten_roundtrip :
  forall (steps : list ChainStep) (flat : list string),
    length flat = taskTotal steps ->
    exists templates,
      Forall2 shaped templates steps /\
      unflattenTemplates flat steps = map Some templates /\
      flattenTemplates templates = flat.
Proof.
  intros steps flat H. exact (unflattenFrom_total steps [] flat H).
Qed.

Lemma unflatten_flatten_roundtrip_witness :
  unflattenTemplates
    (flattenTemplates
       [TemplateOne "{task}"; TemplateMany ["{previous}"; "Review"]])
    [Sequential (Spec.plainStep "scout" None);
     Parallel (mkParallel [Spec.plainStep "a" None;
                           Spec.plainStep "b" (Some "Review")] None None)]
  = [Some (TemplateOne "{task}");
     Some (TemplateMany ["{previous}"; "Review"])] /\
  length
    (flattenTemplates
       [TemplateOne "{task}"; TemplateMany ["{previous}"; "Review"]])
  = 3.
Proof.
  apply (unflatten_flatten_roundtrip
           [Sequential (Spec.plainStep "scout" None);
            Parallel (mkParallel [Spec.plainStep "a" None;
                                  Spec.plainStep "b" (Some "Review")]
                        None None)]
           [TemplateOne "{task}"; TemplateMany ["{previous}"; "Review"]]).
  repeat constructor.
Defined.

Lemma flatten_unflatten_roundtrip_witness :
  exists templates,
    Forall2 shaped templates
      [Parallel (mkParallel [Spec.plainStep "a" None;
                             Spec.plainStep "b" None] None None);
       Sequential (Spec.plainStep "writer" None)] /\
    unflattenTemplates ["one"; "two"; "three"]
      [Parallel (mkParallel [Spec.plainStep "a" None;
                             Spec.plainStep "b" None] None None);
       Sequential (Spec.plainStep "writer" None)]
    = map Some templates /\
    flattenTemplates templates = ["one"; "two"; "three"].
Proof.
  apply (flatten_unflatten_roundtrip
           [Parallel (mkParallel [Spec.plainStep "a" None;
                                  Spec.plainStep "b" None] None None);
            Sequential (Spec.plainStep "writer" None)]
           ["one"; "two"; "three"]).
  reflexivity.
Defined.

Lemma taskOrDefault_truthy (t : option string) (dflt : string) :
  JS.truthy dflt = true -> JS.truthy (taskOrDefault t dflt) = true.
Proof.
  intros H. unfold taskOrDefault. destruct t as [s|]; [|assumption].
  destruct (JS.truthy s) eqn:Hs; assumption.
Qed.

Lemma resolveChainTemplatesV2From_truthy (steps : list ChainStep) :
  forall i : nat,
    Forall (fun t => JS.truthy t = true)
      (flattenTemplates (resolveChainTemplatesV2From i steps)).
Proof.
  induction steps as [|[s|p] steps IH]; intros i; simpl.
  - constructor.
  - constructor; [|apply IH].
    apply taskOrDefault_truthy. now destruct (Nat.eqb i 0).
  - apply Forall_app. split; [|apply IH].
    apply Forall_map, Forall_forall. intros t _.
    now apply taskOrDefault_truthy.
Qed.

(** X3.  The templates [resolveChainTemplatesV2] gives for a chain have the
    chain's shape (a string for a sequential step, one string per task for
    a parallel step), and none of them is the empty string: a missing or
    empty task is replaced by a default. *)
Theorem resolved_templates_shaped_nonempty :
  forall steps : list ChainStep,
    Forall2 shaped (resolveChainTemplatesV2 steps) steps /\
    Forall (fun t => JS.truthy t = true)
      (flattenTemplates (resolveChainTemplatesV2 steps)).
Proof.
  intros steps. split.
  - apply resolveChainTemplatesV2From_shaped.
  - apply resolveChainTemplatesV2From_truthy.
Qed.

End TemplateFacts.

(* ===================================================================== *)
(** * Behaviour of a step (settings.ts)                                  *)
(* ===================================================================== *)

Module BehaviorFacts.

Import Settings.

(** [stepOverrides[i]], with an absent entry read as no override. *)
Definition overrideAt (stepOverrides : list StepOverrides) (i : nat)
  : StepOverrides :=
  JS.nullish (stepOverrides !! i) (mkOverrides None None None).

(** Whether the step at [i] resolves to progress tracking. *)
Definition progressEnabled (agentConfigs : list AgentConfig)
    (stepOverrides : list StepOverrides) (i : nat) : bool :=
  match agentConfigs !! i with
  | Some config =>
      progress (resolveStepBehavior config (overrideAt stepOverrides i))
  | None => false
  end.

Lemma findIndexFrom_spec {A} (f : A -> nat -> bool) (l : list A) :
  forall k : nat,
    (findIndexFrom f k l = (-1)%Z /\
     forall i x, l !! i = Some x -> f x (k + i) = false) \/
    (exists i x,
        findIndexFrom f k l = Z.of_nat (k + i) /\ l !! i = Some x /\
        f x (k + i) = true /\
        forall j y, j < i -> l !! j = Some y -> f y (k + j) = false).
Proof.
  induction l as [|x l IH]; intros k; simpl.
  - left. split; [reflexivity|]. intros i y H. discriminate.
  - destruct (f x k) eqn:Hx.
    + right. exists 0, x. rewrite Nat.add_0_r.
      split; [reflexivity|]. split; [reflexivity|]. split; [assumption|].
      intros j y Hj. lia.
    + destruct (IH (S k)) as [[Hr Hall]|(i & y & Hr & Hy & Hf & Hall)].
      * left. split; [assumption|]. intros [|i] y Hy; simpl in Hy.
        -- injection Hy as <-. now rewrite Nat.add_0_r.
        -- rewrite Nat.add_succ_r. now apply Hall.
      * right. exists (S i), y. rewrite Nat.add_succ_r.
        split; [assumption|]. split; [assumption|]. split; [assumption|].
        intros [|j] z Hj Hz; simpl in Hz.
        -- injection Hz as <-. now rewrite Nat.add_0_r.
        -- rewrite Nat.add_succ_r. apply Hall; [lia|assumption].
Qed.

(** X4.  [findFirstProgressAgentIndex] agrees with [resolveStepBehavior]:
    it is -1 when no step resolves to progress tracking, and otherwise the
    index of the first step that does; a missing entry of the overrides
    counts as no override. *)
Theorem findFirstProgressAgentIndex_first :
  forall (agentConfigs : list AgentConfig)
         (stepOverrides : list StepOverrides),
    (findFirstProgressAgentIndex agentConfigs stepOverrides = (-1)%Z /\
     forall i, progressEnabled agentConfigs stepOverrides i = false) \/
    (exists i,
        findFirstProgressAgentIndex agentConfigs stepOverrides = Z.of_nat i /\
        i < length agentConfigs /\
        progressEnabled agentConfigs stepOverrides i = true /\
        forall j, j < i ->
                  progressEnabled agentConfigs stepOverrides j = false).
Proof.
  intros agentConfigs stepOverrides.
  assert (forall i c,
             agentConfigs !! i = Some c ->
             progressEnabled agentConfigs stepOverrides i
             = match stepOverrides !! i with
               | Some override =>
                   match ovProgress override with
                   | Some b => b
                   | None => JS.nullish (defaultProgress c) false
                   end
               | None => JS.nullish (defaultProgress c) false
               end) as Hsame.
  { intros i c Hc. unfold progressEnabled, overrideAt. rewrite Hc.
    destruct (stepOverrides !! i); reflexivity. }
  unfold findFirstProgressAgentIndex.
  match goal with
  | |- context [findIndexFrom ?f 0 _] =>
      destruct (findIndexFrom_spec f agentConfigs 0)
        as [[Hr Hall]|(i & c & Hr & Hc & Hf & Hall)]
  end.
  - left. split; [assumption|]. intros i.
    destruct (agentConfigs !! i) as [c|] eqn:Hc.
    + rewrite (Hsame i c Hc). exact (Hall i c Hc).
    + unfold progressEnabled. now rewrite Hc.
  - right. exists i. simpl in Hr, Hf. split; [assumption|].
    split; [eapply lookup_lt_Some; eauto|].
    split; [rewrite (Hsame i c Hc); assumption|].
    intros j Hj.
    destruct (agentConfigs !! j) as [d|] eqn:Hd.
    + rewrite (Hsame j d Hd). exact (Hall j d Hj Hd).
    + unfold progressEnabled. now rewrite Hd.
Qed.

Lemma join_nonempty (sep first : string) (rest : list string) :
  JS.truthy first = true ->
  JS.truthy (JS.join sep (first :: rest)) = true.
Proof.
  intros H. destruct first as [|c first]; [discriminate|].
  destruct rest; reflexivity.
Qed.

(** X5.  [getParallelFailureSummary] is the empty string exactly when
    [hasParallelFailures] finds no failure. *)
Theorem failure_summary_empty_iff :
  forall results : list ParallelTaskResult,
    getParallelFailureSummary results = ""
    <-> hasParallelFailures results = false.
Proof.
  intros results. unfold getParallelFailureSummary, hasParallelFailures.
  induction results as [|r results IH]; simpl; [tauto|].
  destruct (negb (Z.eqb (ptrExitCode r) 0)); simpl; [|exact IH].
  split; [|discriminate].
  intros H.
  pose proof (join_nonempty (String "010" "") (failureSummaryLine r)
                (map failureSummaryLine
                   (List.filter
                      (fun r => negb (Z.eqb (ptrExitCode r) 0)) results))
                eq_refl) as Hj.
  simpl in Hj. rewrite H in Hj. discriminate.
Qed.

(** Nothing for [buildChainInstructions] to say: no files to read, no
    output path, no progress tracking, and no summary of the previous step
    (or a blank one). *)
Definition nothingToInstruct (behavior : ResolvedStepBehavior)
    (previousSummary : option string) : bool :=
  match reads behavior with ReadsList (_ :: _) => false | _ => true end
  && match output behavior with
     | OutPath p => negb (JS.truthy p)
     | OutFalse => true
     end
  && negb (progress behavior)
  && match previousSummary with
     | Some p => negb (JS.truthy (JS.trim p))
     | None => true
     end.

Definition instructionsHeader : string :=
  String "010" (String "010" "---") ++ String "010" "**Chain Instructions:**"
  ++ String "010" "- ".

Lemma instructions_start (first : string) (rest : list string) :
  JS.startsWith instructionsHeader
    (String "010" (String "010" "---") ++ String "010" "**Chain Instructions:**"
     ++ String "010"
          (JS.join (String "010" "")
             (map (fun i => "- " ++ i) (first :: rest))))
  = true.
Proof. destruct rest; reflexivity. Qed.

(** X6.  [buildChainInstructions] appends nothing to a task exactly when
    there is nothing to instruct; otherwise its text opens with the
    chain-instructions header and a first bullet. *)
Theorem buildChainInstructions_empty_iff :
  forall (behavior : ResolvedStepBehavior) (chainDir : string)
         (isFirstProgressAgent : bool) (previousSummary : option string),
    if nothingToInstruct behavior previousSummary
    then buildChainInstructions behavior chainDir isFirstProgressAgent
           previousSummary = ""
    else JS.startsWith instructionsHeader
           (buildChainInstructions behavior chainDir isFirstProgressAgent
              previousSummary) = true.
Proof.
  intros [o r p] chainDir isFirst previousSummary.
  unfold nothingToInstruct, buildChainInstructions. simpl.
  assert (forall s, JS.truthy (JS.trim s) = true -> JS.truthy s = true)
    as Htrim by (intros [|c s]; [discriminate|reflexivity]).
  destruct previousSummary as [s|];
    [destruct (JS.truthy (JS.trim s)) eqn:Hs;
     [rewrite (Htrim s Hs)|rewrite andb_false_r]|];
    destruct r as [|[|f fs]]; destruct o as [|q];
    try destruct (JS.truthy q); destruct p; destruct isFirst; simpl;
    try reflexivity; apply instructions_start.
Qed.

End BehaviorFacts.

(* ===================================================================== *)
(** * Namespaced outputs of parallel tasks (settings.ts)                 *)
(* ===================================================================== *)

Module NamespaceFacts.

Import Settings.







End NamespaceFacts.

(* ===================================================================== *)
(** * The tail of a text (execution.ts)                                  *)
(* ===================================================================== *)

Module TailFacts.

Import Execution.

(** What a split-based tail would keep of a text: its lines, trimmed, the
    blank ones left out. *)
Definition nonBlankLines (s : string) : list string :=
  List.filter JS.truthy (map JS.trim (JS.split "010" s)).

(** Whether [c] occurs in [s]. *)
Fixpoint occurs (c : ascii) (s : string) : bool :=
  match s with
  | EmptyString => false
  | String d rest => Ascii.eqb d c || occurs c rest
  end.

(** The pieces the backwards scan of [tailLines] goes through, the last
    line first. *)
Fixpoint scanAll (revChars : list ascii) (seg : string) : list string :=
  match revChars with
  | [] => [seg]
  | c :: rest =>
      if Ascii.eqb c "010" then seg :: scanAll rest ""
      else scanAll rest (String c seg)
  end.

Lemma split_nonempty (sep : ascii) (s : string) : JS.split sep s <> [].
Proof.
  destruct s as [|c s]; simpl; [discriminate|].
  destruct (Ascii.eqb c sep); [discriminate|].
  destruct (JS.split sep s); discriminate.
Qed.

Lemma split_absent (sep : ascii) (s : string) :
  occurs sep s = false -> JS.split sep s = [s].
Proof.
  induction s as [|c s IH]; simpl; [reflexivity|].
  intros H. apply orb_false_iff in H as [Hc Hs].
  rewrite Hc, (IH Hs). reflexivity.
Qed.

Lemma split_app (sep : ascii) (a b : string) :
  JS.split sep (a ++ String sep b)
  = (JS.split sep a ++ JS.split sep b)%list.
Proof.
  induction a as [|c a IH]; simpl.
  - now rewrite Ascii.eqb_refl.
  - destruct (Ascii.eqb c sep); [now rewrite IH|].
    rewrite IH. pose proof (split_nonempty sep a) as Hne.
    destruct (JS.split sep a) as [|piece pieces]; [contradiction|].
    reflexivity.
Qed.

Lemma string_of_list_ascii_snoc (l : list ascii) (c : ascii) (seg : string) :
  string_of_list_ascii (l ++ [c])%list ++ seg
  = string_of_list_ascii l ++ String c seg.
Proof. induction l as [|d l IH]; simpl; [reflexivity|]. now rewrite IH. Qed.

Lemma scanAll_split (l : list ascii) :
  forall seg : string,
    occurs "010" seg = false ->
    scanAll (List.rev l) seg
    = List.rev (JS.split "010" (string_of_list_ascii l ++ seg)).
Proof.
  induction l as [|c l IH] using rev_ind; intros seg Hseg.
  - simpl. now rewrite split_absent.
  - rewrite rev_app_distr, string_of_list_ascii_snoc. simpl.
    destruct (Ascii.eqb c "010") eqn:Hc.
    + apply Ascii.eqb_eq in Hc. subst c.
      rewrite split_app, rev_app_distr, (split_absent _ seg Hseg). simpl.
      rewrite (IH "" eq_refl), SettingsFacts.append_empty_r. reflexivity.
    + apply IH. simpl. now rewrite Hc.
Qed.

Lemma tailScan_spec (n : nat) (revChars : list ascii) :
  forall (seg : string) (out : list string),
    length out <= n ->
    (let '(out', seg') := tailScan n revChars seg out in
     if Nat.ltb (length out') n
     then if JS.truthy (JS.trim seg') then (out' ++ [JS.trim seg'])%list
          else out'
     else out')
    = take n (out ++ List.filter JS.truthy
                       (map JS.trim (scanAll revChars seg)))%list.
Proof.
  induction revChars as [|c rest IH]; intros seg out Hlen; simpl.
  - destruct (Nat.ltb (length out) n) eqn:E.
    + apply Nat.ltb_lt in E.
      destruct (JS.truthy (JS.trim seg)); simpl.
      * rewrite take_ge; [reflexivity|]. rewrite length_app. simpl. lia.
      * rewrite app_nil_r, take_ge; [reflexivity|lia].
    + apply Nat.ltb_ge in E. rewrite take_app_le by lia.
      rewrite take_ge; [reflexivity|lia].
  - destruct (Nat.ltb (length out) n) eqn:E.
    + apply Nat.ltb_lt in E. destruct (Ascii.eqb c "010"); simpl.
      * destruct (JS.truthy (JS.trim seg)); simpl.
        -- rewrite IH by (rewrite length_app; simpl; lia).
           now rewrite <- app_assoc.
        -- now rewrite IH by lia.
      * now rewrite IH by lia.
    + rewrite E. apply Nat.ltb_ge in E. rewrite take_app_le by lia.
      rewrite take_ge; [reflexivity|lia].
Qed.

(** X8.  [tailLines] gives what a split-based tail gives: of the text (its
    last [maxChars] characters when it is longer), the last [maxLines]
    lines that are not blank, trimmed and in their order. *)
Theorem tailLines_split :
  forall (text : string) (maxLines maxChars : nat),
    0 < maxChars ->
    tailLines text maxLines maxChars
    = JS.lastN maxLines
        (nonBlankLines
           (if Nat.ltb maxChars (String.length text)
            then JS.sliceLast maxChars text else text)).
Proof.
  intros text n maxChars _. unfold tailLines.
  destruct (JS.truthy text) eqn:Ht; simpl.
  2:{ destruct text; [|discriminate]. now destruct (Nat.ltb maxChars 0). }
  set (s := if Nat.ltb maxChars (String.length text)
            then JS.sliceLast maxChars text else text).
  pose proof (tailScan_spec n (List.rev (list_ascii_of_string s)) "" []
                (Nat.le_0_l n)) as H.
  destruct (tailScan n (List.rev (list_ascii_of_string s)) "" [])
    as [out seg].
  rewrite H. simpl.
  rewrite scanAll_split by reflexivity.
  rewrite SettingsFacts.append_empty_r, string_of_list_ascii_of_string.
  rewrite map_rev, List.filter_rev. fold (nonBlankLines s).
  rewrite firstn_rev, rev_involutive.
  assert (length (drop (length (nonBlankLines s) - n) (nonBlankLines s))
          <= n) as Hn by (rewrite length_drop; lia).
  apply Nat.ltb_ge in Hn. unfold JS.lastN.
  change (@skipn string) with (@drop string). now rewrite Hn.
Qed.

Lemma tailLines_split_witness :
  tailLines ("one" ++ String "010" (String "010" "  two  ")
             ++ String "010" "three" ++ String "010" "") 2 MAX_TAIL_CHARS
  = ["two"; "three"].
Proof.
  rewrite (tailLines_split _ 2 MAX_TAIL_CHARS); [reflexivity|].
  unfold MAX_TAIL_CHARS. lia.
Defined.

End TailFacts.

(* ===================================================================== *)
(** * The runner (execution.ts)                                          *)
(* ===================================================================== *)

Module RunnerFacts.

Import Execution ExecutionFacts.

(** *** applyThinkingSuffix *)

Lemma afterLastColon_append (m t : string) :
  afterLastColon t = None ->
  afterLastColon (m ++ String ":" t) = Some t.
Proof.
  intros Ht. induction m as [|c m IH]; simpl.
  - now rewrite Ht.
  - now rewrite IH.
Qed.

Lemma applyThinkingSuffix_eq (m t : string) :
  applyThinkingSuffix (Some m) (Some t)
  = if negb (JS.truthy m) || negb (JS.truthy t) || String.eqb t "off"
    then Some m
    else match afterLastColon m with
         | Some suffix =>
             if existsb (String.eqb suffix) THINKING_LEVELS then Some m
             else Some (m ++ ":" ++ t)
         | None => Some (m ++ ":" ++ t)
         end.
Proof. reflexivity. Qed.

Lemma applyThinkingSuffix_known (m t : string) :
  JS.truthy m = true -> afterLastColon t = None ->
  existsb (String.eqb t) THINKING_LEVELS = true ->
  applyThinkingSuffix (Some (m ++ ":" ++ t)) (Some t) = Some (m ++ ":" ++ t).
Proof.
  intros Hm Hcolon Hknown. rewrite applyThinkingSuffix_eq.
  destruct (negb _ || negb _ || _); [reflexivity|].
  change (m ++ ":" ++ t) with (m ++ String ":" t).
  now rewrite (afterLastColon_append m t Hcolon), Hknown.
Qed.

(** X9.  Applying a thinking level is idempotent: a model that has been
    given one of the known levels as its suffix is left alone when the
    level is applied again. *)
Theorem applyThinkingSuffix_idempotent :
  forall (model : option string) (thinking : string),
    In thinking THINKING_LEVELS ->
    applyThinkingSuffix (applyThinkingSuffix model (Some thinking))
      (Some thinking)
    = applyThinkingSuffix model (Some thinking).
Proof.
  intros [m|] t Hin; [|reflexivity].
  assert (afterLastColon t = None /\
          existsb (String.eqb t) THINKING_LEVELS = true) as [Hcolon Hknown].
  { simpl in Hin.
    destruct Hin as [<-|[<-|[<-|[<-|[<-|[<-|[]]]]]]]; split; reflexivity. }
  rewrite (applyThinkingSuffix_eq m t).
  destruct (negb (JS.truthy m) || negb (JS.truthy t) || String.eqb t "off")
    eqn:Hskip.
  - now rewrite applyThinkingSuffix_eq, Hskip.
  - assert (JS.truthy m = true) as Hm
      by (destruct (JS.truthy m); [reflexivity|discriminate]).
    destruct (afterLastColon m) as [suffix|] eqn:Hsuffix.
    + destruct (existsb (String.eqb suffix) THINKING_LEVELS) eqn:Hex.
      * now rewrite applyThinkingSuffix_eq, Hskip, Hsuffix, Hex.
      * now apply applyThinkingSuffix_known.
    + now apply applyThinkingSuffix_known.
Qed.

Lemma applyThinkingSuffix_idempotent_witness :
  applyThinkingSuffix (Some "sonnet") (Some "high") = Some "sonnet:high" /\
  applyThinkingSuffix (applyThinkingSuffix (Some "sonnet") (Some "high"))
    (Some "high")
  = applyThinkingSuffix (Some "sonnet") (Some "high").
Proof.
  split; [reflexivity|].
  apply (applyThinkingSuffix_idempotent (Some "sonnet") "high").
  do 4 right; left; reflexivity.
Defined.

(** *** The stored messages *)

(** The message a line makes [runSync] store: an assistant message, or a
    tool result that fills the last-tool-error slot. *)
Definition stored (line : Line) : option Message :=
  match line with
  | Parsed (MessageEnd (Some msg)) =>
      if String.eqb (role msg) "assistant" then Some msg else None
  | Parsed (ToolResultEnd (Some msg) evtToolName) =>
      if failedToolResult msg evtToolName then Some msg else None
  | _ => None
  end.

Lemma keepLast_lastN {A} (n : nat) (l : list A) :
  keepLast n l = JS.lastN n l.
Proof.
  unfold keepLast, JS.lastN. destruct (Nat.ltb n (length l)) eqn:E;
    [reflexivity|].
  apply Nat.ltb_ge in E. now replace (length l - n) with 0 by lia.
Qed.

Lemma lastN_snoc {A} (n : nat) (l : list A) (x : A) :
  JS.lastN n (JS.lastN n l ++ [x])%list = JS.lastN n (l ++ [x])%list.
Proof.
  unfold JS.lastN. rewrite !length_app, length_drop. simpl.
  destruct (Nat.le_gt_cases (length l) n) as [Hle|Hgt].
  - replace (length l - n) with 0 by lia. simpl.
    now rewrite Nat.sub_0_r.
  - replace (length l - (length l - n) + 1 - n) with 1 by lia.
    replace (length l + 1 - n) with (length l - n + 1) by lia.
    rewrite <- (drop_drop _ 1 (length l - n)).
    rewrite (drop_app_le l [x] (length l - n)) by lia. reflexivity.
Qed.

Lemma processLine_messages (st : RunState) (line : Line) :
  messages (stResult (processLine st line))
  = match stored line with
    | Some msg => pushMessage (messages (stResult st)) msg
    | None => messages (stResult st)
    end.
Proof.
  destruct line as [| |evt]; try reflexivity.
  destruct evt as [tn ap| |[msg|]|[msg|] tn|]; try reflexivity; simpl.
  - unfold onMessageEnd.
    destruct (String.eqb (role msg) "assistant").
    + destruct (usage msg);
        destruct (negb _ && _); destruct (JS.truthyOpt (errorMessage msg));
        destruct (JS.truthy (text msg)); reflexivity.
    + destruct (JS.truthyOpt (errorMessage msg)); reflexivity.
  - unfold onToolResultEnd, failedToolResult, toolNameOf. cbv zeta.
    destruct (String.eqb _ "bash"); simpl;
      destruct (isError msg); simpl; try reflexivity.
    destruct (parseExitCode (text msg)) as [c|]; [|reflexivity].
    destruct (negb (Z.eqb c 0)); reflexivity.
Qed.

Lemma processLines_messages (lines : list Line) :
  forall (st : RunState) (seen : list Message),
    messages (stResult st) = JS.lastN MAX_STORED_MESSAGES seen ->
    messages (stResult (fold_left processLine lines st))
    = JS.lastN MAX_STORED_MESSAGES (seen ++ omap stored lines)%list.
Proof.
  induction lines as [|line lines IH]; intros st seen H; simpl.
  - now rewrite app_nil_r.
  - destruct (stored line) as [msg|] eqn:Hs.
    + rewrite (IH _ (seen ++ [msg])%list).
      * now rewrite <- app_assoc.
      * rewrite processLine_messages, Hs. unfold pushMessage.
        rewrite keepLast_lastN, H. apply lastN_snoc.
    + apply IH. now rewrite processLine_messages, Hs.
Qed.

Lemma onClose_messages (run : ProcRun) (st : RunState) :
  messages (stResult (onClose run st)) = messages (stResult st).
Proof. unfold onClose. now destruct (_ && _). Qed.

Lemma finish_messages (c : Z) (st : RunState) :
  messages (finish c st) = messages (stResult st).
Proof.
  unfold finish. destruct (lastToolError st) as [e|]; [|reflexivity].
  destruct (Z.eqb c 0 && _); reflexivity.
Qed.

(** X10.  The result of [runSync] for a registered agent holds the last
    200 of the messages the run stores (the assistant messages and the
    tool results that report a failure), in the order the worker printed
    them; so it never holds more than 200. *)
Theorem stored_messages_are_the_last_200 :
  forall (spawnPi : string -> string -> nat -> ProcRun)
         (agents : list Settings.AgentConfig) (agentName task : string)
         (options : RunSyncOptions),
    messages (fst (runSync spawnPi agents agentName task options))
    = match Settings.findAgent agents agentName with
      | Some _ =>
          JS.lastN 200
            (omap stored
               (stdoutLines (workerRun spawnPi agentName task options)))
      | None => []
      end /\
    length (messages (fst (runSync spawnPi agents agentName task options)))
    <= 200.
Proof.
  intros spawnPi agents agentName task options.
  assert (forall l : list Message, length (JS.lastN 200 l) <= 200) as Hb.
  { intros l. unfold JS.lastN. rewrite length_drop. lia. }
  unfold runSync.
  destruct (Settings.findAgent agents agentName) as [cfg|]; cbn [fst].
  - rewrite finish_messages. unfold stateAtClose, runProcess.
    rewrite onClose_messages.
    rewrite (processLines_messages _ _ []) by reflexivity.
    split; [reflexivity|apply Hb].
  - split; [reflexivity|simpl; lia].
Qed.

(** *** parseExitCode *)

(** X11.  An exit code read from a tool's output is never negative, and
    it is a finite number; an empty text gives none. *)
Theorem parseExitCode_range :
  forall text : string,
    match parseExitCode text with
    | Some c => (0 <= c < 2 ^ 1024)%Z /\ text <> ""
    | None => True
    end.
Proof.
  intros text. pose proof (ExecutionFacts.parseExitCode_nonneg text) as Hn.
  unfold parseExitCode in *.
  destruct (JS.truthy text) eqn:Ht; simpl in *; [|trivial].
  destruct (matchExit text) as [digits|]; [|trivial].
  unfold JS.parseInt10 in *. cbv zeta in *.
  destruct (Z.ltb (JS.roundDouble (JS.decimalValue 0 digits)) (2 ^ 1024))
    eqn:E; [|trivial].
  apply Z.ltb_lt in E. split; [split; assumption|].
  intros ->. discriminate.
Qed.

Lemma string_of_uint_digits (d : Decimal.uint) (rest : string) :
  match rest with
  | String c _ => JS.isDigit c = false
  | EmptyString => True
  end ->
  takeDigits (NilEmpty.string_of_uint d ++ rest) = NilEmpty.string_of_uint d.
Proof.
  intros Hrest. induction d; simpl; try (now rewrite IHd).
  destruct rest as [|c rest]; simpl; [reflexivity|]. now rewrite Hrest.
Qed.

Lemma decimalValue_of_uint (d : Decimal.uint) :
  forall acc : nat,
    JS.decimalValue (Z.of_nat acc) (NilEmpty.string_of_uint d)
    = Z.of_nat (Nat.of_uint_acc d acc).
Proof.
  induction d; intros acc; simpl; [reflexivity|..];
    rewrite <- IHd; f_equal; rewrite Nat.tail_mul_spec; lia.
Qed.

Lemma to_uint_nonnil (n : nat) : Nat.to_uint n <> Decimal.Nil.
Proof.
  intros H. pose proof (Unsigned.of_to n) as Hn. rewrite H in Hn.
  simpl in Hn. subst n. discriminate H.
Qed.

(** The decimal text of a number begins with a digit. *)
Lemma numToString_head (n : nat) :
  exists c tail,
    JS.numToString n = String c tail /\ JS.isDigit c = true.
Proof.
  unfold JS.numToString. pose proof (to_uint_nonnil n) as Hne.
  destruct (Nat.to_uint n); [contradiction|..]; simpl; eauto.
Qed.

Lemma matchExit_here (s digits : string) :
  matchExitAt s = Some digits -> matchExit s = Some digits.
Proof.
  intros H. destruct s as [|a s]; [discriminate H|].
  cbn [matchExit]. now rewrite H.
Qed.

(** The part of the pattern after the words: white space, an optional
    colon, white space and the digits. *)
Lemma matchExit_number (n : nat) (rest : string) :
  match rest with
  | String c _ => JS.isDigit c = false
  | EmptyString => True
  end ->
  let s := JS.numToString n ++ rest in
  JS.trimStart s = s /\
  match s with
  | String c tail => if Ascii.eqb c ":" then tail else s
  | EmptyString => s
  end = s /\
  takeDigits s = JS.numToString n /\
  JS.truthy (JS.numToString n) = true.
Proof.
  intros Hrest s. subst s.
  destruct (numToString_head n) as (c & tail & Hn & Hc).
  assert (JS.isWhiteSpace c = false /\ Ascii.eqb c ":" = false) as [Hw Hk].
  { unfold JS.isDigit in Hc. unfold JS.isWhiteSpace.
    apply andb_true_iff in Hc as [H1 H2].
    apply Nat.leb_le in H1, H2.
    split.
    - repeat (apply orb_false_iff; split); apply Nat.eqb_neq; lia.
    - apply Ascii.eqb_neq. intros ->.
      change (nat_of_ascii ":") with 58 in H2. lia. }
  split; [|split; [|split]].
  - rewrite Hn. simpl. now rewrite Hw.
  - rewrite Hn. simpl. now rewrite Hk.
  - unfold JS.numToString. now apply string_of_uint_digits.
  - now rewrite Hn.
Qed.

(** Ways in which a shell reports an exit code. *)
Definition exitPhrases : list string :=
  ["exit code "; "Exit code: "; "exited with code "; "exit status ";
   "EXIT:"; "Exited with status: "].

(** What is left of the pattern once its words have been matched, before
    and after the optional colon. *)
Definition numberAfterColon (s : string) : option string :=
  let digits := takeDigits (JS.trimStart s) in
  if JS.truthy digits then Some digits else None.

Definition numberAfterWords (s : string) : option string :=
  let s5 := JS.trimStart s in
  numberAfterColon
    match s5 with
    | String c tail => if Ascii.eqb c ":" then tail else s5
    | EmptyString => s5
    end.

Lemma matchExitAt_phrase (phrase s : string) :
  In phrase exitPhrases ->
  matchExitAt (phrase ++ s) = numberAfterWords s
  \/ matchExitAt (phrase ++ s) = numberAfterColon s.
Proof.
  simpl. intros [<-|[<-|[<-|[<-|[<-|[<-|[]]]]]]];
    first [left; reflexivity|right; reflexivity].
Qed.

(** X12.  An exit code written after one of the usual phrases is read
    back: for a text that begins with the phrase and the decimal digits of
    an integer below [2 ^ 53], and goes on with something that is not a
    digit, [parseExitCode] gives that integer. *)
Theorem parseExitCode_reads_number :
  forall (phrase : string) (n : nat) (rest : string),
    In phrase exitPhrases ->
    (Z.of_nat n < 2 ^ 53)%Z ->
    match rest with
    | String c _ => JS.isDigit c = false
    | EmptyString => True
    end ->
    parseExitCode (phrase ++ JS.numToString n ++ rest)
    = Some (Z.of_nat n).
Proof.
  intros phrase n rest Hin Hn Hrest.
  destruct (matchExit_number n rest Hrest) as (Htrim & Hcolon & Hdigits & Ht).
  assert (matchExitAt (phrase ++ JS.numToString n ++ rest)
          = Some (JS.numToString n)) as Hat.
  { destruct (matchExitAt_phrase phrase (JS.numToString n ++ rest) Hin)
      as [-> | ->]; unfold numberAfterWords, numberAfterColon;
      cbv zeta; rewrite ?Htrim, ?Hcolon, ?Htrim, Hdigits, Ht; reflexivity. }
  unfold parseExitCode.
  replace (JS.truthy (phrase ++ JS.numToString n ++ rest)) with true.
  2:{ simpl in Hin.
      destruct Hin as [<-|[<-|[<-|[<-|[<-|[<-|[]]]]]]]; reflexivity. }
  simpl. rewrite (matchExit_here _ _ Hat).
  pose proof (decimalValue_of_uint (Nat.to_uint n) 0) as Hp.
  change (Nat.of_uint_acc (Nat.to_uint n) 0)
    with (Nat.of_uint (Nat.to_uint n)) in Hp.
  rewrite Unsigned.of_to in Hp. change (Z.of_nat 0) with 0%Z in Hp.
  unfold JS.parseInt10, JS.numToString. rewrite Hp.
  unfold JS.roundDouble. rewrite (proj2 (Z.ltb_lt _ _) Hn).
  assert (Z.of_nat n < 2 ^ 1024)%Z as Hfin by lia.
  now rewrite (proj2 (Z.ltb_lt _ _) Hfin).
Qed.

Lemma parseExitCode_reads_number_witness :
  parseExitCode ("exited with code " ++ JS.numToString 127
                 ++ String "010" "make: *** [all] Error")
  = Some 127%Z.
Proof.
  apply (parseExitCode_reads_number "exited with code " 127
           (String "010" "make: *** [all] Error")).
  - right; right; left; reflexivity.
  - lia.
  - reflexivity.
Defined.

(** *** Usage accounting *)














(** *** The last-tool-error slot *)

(** X14.  A tool result that reports no failure clears what earlier tool
    results reported: when it is the last tool result of a worker that
    exits with code 0 (or with none), the result has exit code 0 and its
    progress record says completed, whatever failed before it. *)
Theorem successful_tool_result_clears_failure :
  forall (spawnPi : string -> string -> nat -> ProcRun)
         (agents : list Settings.AgentConfig) (agentName task : string)
         (options : RunSyncOptions) (cfg : Settings.AgentConfig)
         (before after : list Line) (msg : Message)
         (evtToolName : option string),
    Settings.findAgent agents agentName = Some cfg ->
    stdoutLines (workerRun spawnPi agentName task options)
    = (before ++ Parsed (ToolResultEnd (Some msg) evtToolName) :: after)%list ->
    failedToolResult msg evtToolName = false ->
    existsb isToolResult after = false ->
    JS.nullish (code (workerRun spawnPi agentName task options)) 0%Z = 0%Z ->
    exitCode (fst (runSync spawnPi agents agentName task options)) = 0%Z /\
    option_map status
      (progress (fst (runSync spawnPi agents agentName task options)))
    = Some Completed.
Proof.
  intros spawnPi agents agentName task options cfg before after msg tn
    Hf Hlines Hok Hafter Hcode.
  unfold runSync. rewrite Hf. cbn [fst]. rewrite Hcode.
  assert (lastToolError (stateAtClose spawnPi cfg agentName task options)
          = None) as Hslot.
  { unfold stateAtClose, runProcess. rewrite onClose_slot, Hlines.
    rewrite fold_left_app. simpl.
    rewrite processLines_keep_slot by assumption.
    now apply tool_result_clears_slot. }
  unfold finish. rewrite Hslot. split; reflexivity.
Qed.

Lemma successful_tool_result_clears_failure_witness :
  exitCode
    (fst (runSync
            (fun _ _ _ =>
               mkProcRun
                 [Spec.toolResult "bash" "exit code 2" false;
                  Spec.toolResult "bash" "ok" false;
                  Spec.assistantMessage "done" None]
                 "" None)
            [Spec.plainAgent "builder"] "builder" "Build"
            (mkOptions None None))) = 0%Z /\
  option_map status
    (progress
       (fst (runSync
               (fun _ _ _ =>
                  mkProcRun
                    [Spec.toolResult "bash" "exit code 2" false;
                     Spec.toolResult "bash" "ok" false;
                     Spec.assistantMessage "done" None]
                    "" None)
               [Spec.plainAgent "builder"] "builder" "Build"
               (mkOptions None None))))
  = Some Completed.
Proof.
  apply (successful_tool_result_clears_failure
           (fun _ _ _ =>
              mkProcRun
                [Spec.toolResult "bash" "exit code 2" false;
                 Spec.toolResult "bash" "ok" false;
                 Spec.assistantMessage "done" None]
                "" None)
           [Spec.plainAgent "builder"] "builder" "Build"
           (mkOptions None None) (Spec.plainAgent "builder")
           [Spec.toolResult "bash" "exit code 2" false]
           [Spec.assistantMessage "done" None]
           (mkMessage "toolResult" None None None "ok" (Some "bash") false)
           None); reflexivity.
Defined.

End RunnerFacts.

(* ===================================================================== *)
(** * The event log writer under backpressure (jsonl-writer.ts)          *)
(* ===================================================================== *)

Module BackpressureFacts.

Import JsonlWriter.

(** What a sequence of operations asks the sink to hold: every line that
    is not blank, with a line feed after it, up to the first [close]. *)
Fixpoint accepted (ops : list Op) : list string :=
  match ops with
  | [] => []
  | OpClose :: _ => []
  | OpWriteLine line :: rest =>
      ((if JS.truthy (JS.trim line) then [(line ++ String "010" "")%string]
        else [])
       ++ accepted rest)%list
  | OpDrain :: rest => accepted rest
  end.

Lemma iter_drainListener_stream (n : nat) (stream b closed : bool)
    (w : World) :
  exists b',
    fst (Nat.iter n drainListener (StreamWriter stream b closed, w))
    = StreamWriter stream b' closed /\
    writes (snd (Nat.iter n drainListener (StreamWriter stream b closed, w)))
    = writes w.
Proof.
  induction n as [|n (b' & Hw & Hs)]; simpl.
  - eauto.
  - destruct (Nat.iter n drainListener (StreamWriter stream b closed, w))
      as [wr w']. simpl in Hw, Hs. subst wr. simpl.
    exists false. split; [reflexivity|]. now destruct closed.
Qed.

Lemma run_closed_writes (ops : list Op) :
  forall (b : bool) (w : World),
    writes (snd (run ops (StreamWriter false b true, w))) = writes w.
Proof.
  induction ops as [|op ops IH]; intros b w; simpl; [reflexivity|].
  destruct op as [line| |]; simpl; try apply IH.
  unfold emitDrain.
  destruct (iter_drainListener_stream (drainListeners w) false b true
              (mkWorld (paused w) (resumed w) (writes w) (ended w)
                 (closeCallbacks w) 0 (writeResults w)))
    as (b' & Hw & Hs).
  destruct (Nat.iter _ _ _) as [wr w']. simpl in Hw, Hs. subst wr.
  now rewrite IH.
Qed.

Lemma run_open_writes (ops : list Op) :
  forall (b : bool) (w : World),
    writes (snd (run ops (StreamWriter true b false, w)))
    = (writes w ++ accepted ops)%list.
Proof.
  induction ops as [|op ops IH]; intros b w; simpl.
  - now rewrite app_nil_r.
  - destruct op as [line| |]; simpl.
    + destruct (JS.truthy (JS.trim line)); simpl.
      * unfold sinkWrite.
        destruct (negb _ && negb b); rewrite IH; simpl;
          now rewrite <- app_assoc.
      * apply IH.
    + rewrite run_closed_writes. simpl. now rewrite app_nil_r.
    + unfold emitDrain.
      destruct (iter_drainListener_stream (drainListeners w) true b false
                  (mkWorld (paused w) (resumed w) (writes w) (ended w)
                     (closeCallbacks w) 0 (writeResults w)))
        as (b' & Hw & Hs).
      destruct (Nat.iter _ _ _) as [wr w']. simpl in Hw, Hs. subst wr.
      now rewrite IH, Hs.
Qed.

(** X15.  The sink receives exactly the lines written before the first
    [close] that are not blank, each followed by a line feed and in the
    order they were written: backpressure and drain events drop nothing,
    and nothing is written after [close]. *)
Theorem writer_writes_every_line_once :
  forall (path : string) (ops : list Op) (results : list bool),
    JS.truthy path = true ->
    writes (snd (run ops (createJsonlWriter (Some path) true,
                          freshWorld results)))
    = accepted ops.
Proof.
  intros path ops results Hp. unfold createJsonlWriter. simpl.
  rewrite Hp. simpl. now rewrite run_open_writes.
Qed.

Lemma writer_writes_every_line_once_witness :
  writes (snd (run [OpWriteLine "{}"; OpWriteLine "  "; OpDrain;
                    OpWriteLine "[]"; OpClose; OpWriteLine "late"]
                 (createJsonlWriter (Some "/tmp/out.jsonl") true,
                  freshWorld [false; false])))
  = ["{}" ++ String "010" ""; "[]" ++ String "010" ""].
Proof.
  exact (writer_writes_every_line_once "/tmp/out.jsonl"
           [OpWriteLine "{}"; OpWriteLine "  "; OpDrain;
            OpWriteLine "[]"; OpClose; OpWriteLine "late"]
           [false; false] eq_refl).
Defined.

(** The writer and its collaborators agree on the backpressure: a drain
    listener is registered exactly while the writer is backpressured;
    while the writer is open the source has been paused once more than
    resumed exactly then, and after [close] at most once more. *)
Definition balanced (st : Writer * World) : Prop :=
  exists stream b closed,
    fst st = StreamWriter stream b closed /\
    drainListeners (snd st) = (if b then 1 else 0) /\
    if closed
    then resumed (snd st) <= paused (snd st) <= resumed (snd st) + 1
    else paused (snd st) = resumed (snd st) + (if b then 1 else 0).

Lemma step_balanced (st : Writer * World) (op : Op) :
  balanced st -> balanced (step st op).
Proof.
  destruct st as [wr w]. intros (stream & b & closed & Hw & Hd & Hp).
  simpl in Hw, Hd, Hp. subst wr. destruct op as [line| |]; simpl.
  - destruct (negb stream || closed || negb (JS.truthy (JS.trim line)))
      eqn:Hskip.
    + exists stream, b, closed. auto.
    + assert (closed = false) as -> by (destruct stream, closed; auto).
      unfold sinkWrite.
      destruct (match writeResults w with [] => true | ok :: _ => ok end);
        simpl.
      * exists stream, b, false. auto.
      * destruct b; simpl in *.
        -- exists stream, true, false. auto.
        -- exists stream, true, false. simpl.
           split; [reflexivity|]. split; lia.
  - destruct (negb stream || closed).
    + exists stream, b, closed. auto.
    + exists false, b, true. simpl. split; [reflexivity|].
      split; [assumption|]. destruct closed, b; lia.
  - unfold emitDrain. rewrite Hd. destruct b; simpl.
    + exists stream, false, closed. split; [reflexivity|].
      destruct closed; simpl; split; try reflexivity; lia.
    + exists stream, false, closed. auto.
Qed.

Lemma run_balanced (ops : list Op) :
  forall st : Writer * World, balanced st -> balanced (run ops st).
Proof.
  induction ops as [|op ops IH]; intros st H; simpl; [exact H|].
  apply IH. now apply step_balanced.
Qed.

Lemma run_app (ops more : list Op) (st : Writer * World) :
  run (ops ++ more)%list st = run more (run ops st).
Proof. unfold run. apply fold_left_app. Qed.

(** X16.  Pausing and resuming stay in step.  Over any sequence of writes,
    closes and drain events on a writer with a stream, the source is
    paused at most once more than it is resumed and never resumed more
    often than paused, and at most one drain listener is registered at a
    time.  While the writer has not been closed, a drain event resumes the
    source whenever it is paused. *)
Theorem pause_and_resume_balanced :
  forall (path : string) (ops : list Op) (results : list bool),
    JS.truthy path = true ->
    let start := (createJsonlWriter (Some path) true, freshWorld results) in
    resumed (snd (run ops start)) <= paused (snd (run ops start))
    <= resumed (snd (run ops start)) + 1 /\
    drainListeners (snd (run ops start)) <= 1 /\
    (existsb isClose ops = false ->
     paused (snd (run (ops ++ [OpDrain]) start))
     = resumed (snd (run (ops ++ [OpDrain]) start))).
Proof.
  intros path ops results Hp start.
  assert (balanced start) as H0.
  { subst start. unfold createJsonlWriter. simpl. rewrite Hp. simpl.
    exists true, false, false. simpl. auto. }
  pose proof (run_balanced ops start H0) as (stream & b & closed & Hw & Hd & Hb).
  split; [|split].
  - destruct closed, b; lia.
  - destruct b; lia.
  - intros Hopen. rewrite run_app.
    assert (closed = false) as ->.
    { destruct (JsonlWriterFacts.run_consistent ops start false)
        as (b' & Hw' & _).
      - subst start. unfold createJsonlWriter. simpl. rewrite Hp. simpl.
        exists false. split; reflexivity.
      - rewrite Hopen in Hw'. simpl in Hw'. congruence. }
    destruct (run ops start) as [wr w]. simpl in Hw, Hd, Hb. subst wr.
    simpl. unfold emitDrain. rewrite Hd.
    destruct b; simpl; lia.
Qed.

Lemma pause_and_resume_balanced_witness :
  paused (snd (run ([OpWriteLine "{}"; OpWriteLine "[]"] ++ [OpDrain])
                 (createJsonlWriter (Some "/tmp/out.jsonl") true,
                  freshWorld [false; false]))) = 1 /\
  paused (snd (run ([OpWriteLine "{}"; OpWriteLine "[]"] ++ [OpDrain])
                 (createJsonlWriter (Some "/tmp/out.jsonl") true,
                  freshWorld [false; false])))
  = resumed (snd (run ([OpWriteLine "{}"; OpWriteLine "[]"] ++ [OpDrain])
                    (createJsonlWriter (Some "/tmp/out.jsonl") true,
                     freshWorld [false; false]))).
Proof.
  split; [reflexivity|].
  exact (proj2 (proj2 (pause_and_resume_balanced "/tmp/out.jsonl"
                         [OpWriteLine "{}"; OpWriteLine "[]"]
                         [false; false] eq_refl)) eq_refl).
Defined.

End BackpressureFacts.

(* ===================================================================== *)
(** * A chain run through the step loop (chain-execution.ts)             *)
(* ===================================================================== *)

Module ChainRunFacts.

Import Settings Utils ChainExecution UtilsFacts ChainFacts.

(** The task index a worker is started with. *)
Definition spawnIndex (e : Fx.Effect) : option nat :=
  match e with
  | Fx.Spawn _ _ index => Some index
  | _ => None
  end.

Definition spawnIndices (fx : list Fx.Effect) : list nat :=
  omap spawnIndex fx.

Definition isWriteFile (e : Fx.Effect) : bool :=
  match e with Fx.WriteFile _ _ => true | _ => false end.

(** The files the orchestrator itself has written. *)
Definition filesWritten (fx : list Fx.Effect) : list Fx.Effect :=
  List.filter isWriteFile fx.

(** The workers have been started with task indices of their own, and the
    progress file has been written at most once. *)
Definition tidy (fx : list Fx.Effect) : Prop :=
  NoDup (spawnIndices fx) /\ length (filesWritten fx) <= 1.

(** The same while the chain runs: the indices are below the next one to
    hand out, and nothing has been written while the progress file counts
    as not created. *)
Definition orderly (nextIndex : nat) (created : bool)
    (fx : list Fx.Effect) : Prop :=
  NoDup (spawnIndices fx) /\
  Forall (fun i => i < nextIndex) (spawnIndices fx) /\
  length (filesWritten fx) <= (if created then 1 else 0).

Lemma orderly_tidy (n : nat) (c : bool) (fx : list Fx.Effect) :
  orderly n c fx -> tidy fx.
Proof. intros (H1 & _ & H3). split; [assumption|]. destruct c; lia. Qed.

Lemma orderly_mono (n m : nat) (c : bool) (fx : list Fx.Effect) :
  n <= m -> orderly n c fx -> orderly m (c || true) fx /\ orderly m c fx.
Proof.
  intros Hle (H1 & H2 & H3).
  assert (Forall (fun i => i < m) (spawnIndices fx)) as H2'
    by (eapply Forall_impl; [exact H2|]; simpl; intros; lia).
  split; (split; [assumption|]); (split; [assumption|]).
  - rewrite orb_true_r. destruct c; lia.
  - assumption.
Qed.

Lemma orderly_quiet (n : nat) (c : bool) (fx more : list Fx.Effect) :
  orderly n c fx ->
  Forall (fun e => spawnIndex e = None /\ isWriteFile e = false) more ->
  orderly n c (fx ++ more).
Proof.
  intros (H1 & H2 & H3) Hq.
  assert (spawnIndices more = [] /\ filesWritten more = []) as [Hs Hw].
  { induction Hq as [|e more [He1 He2] _ [IH1 IH2]]; [split; reflexivity|].
    unfold spawnIndices, filesWritten in *. simpl.
    rewrite He1, He2. auto. }
  unfold orderly, spawnIndices, filesWritten in *.
  rewrite omap_app, List.filter_app.
  unfold spawnIndices, filesWritten in Hs, Hw. rewrite Hs, Hw, !app_nil_r.
  auto.
Qed.

Lemma orderly_spawn (n : nat) (c : bool) (fx : list Fx.Effect)
    (a t : string) :
  orderly n c fx -> orderly (S n) c (fx ++ [Fx.Spawn a t n]).
Proof.
  intros (H1 & H2 & H3).
  unfold orderly, spawnIndices, filesWritten in *.
  rewrite omap_app, List.filter_app. simpl. rewrite app_nil_r.
  split; [|split; [|assumption]].
  - apply NoDup_app. split; [assumption|]. split; [|apply NoDup_singleton].
    intros i Hi Hn. apply list_elem_of_singleton in Hn. subst i.
    rewrite Forall_forall in H2. specialize (H2 n Hi). lia.
  - apply Forall_app. split.
    + eapply Forall_impl; [exact H2|]. simpl. intros; lia.
    + repeat constructor.
Qed.

Lemma orderly_write (n : nat) (fx : list Fx.Effect) (path content : string) :
  orderly n false fx -> orderly n true (fx ++ [Fx.WriteFile path content]).
Proof.
  intros (H1 & H2 & H3).
  unfold orderly, spawnIndices, filesWritten in *.
  rewrite omap_app, List.filter_app, length_app. simpl.
  rewrite app_nil_r. split; [assumption|]. split; [assumption|lia].
Qed.

Lemma runSync_effects
    (spawnPi : string -> string -> nat -> Execution.ProcRun)
    (agents : list AgentConfig) (agentName task : string) (index : nat) :
  snd (Execution.runSync spawnPi agents agentName task
         (Execution.mkOptions (Some index) None)) = []
  \/ snd (Execution.runSync spawnPi agents agentName task
            (Execution.mkOptions (Some index) None))
     = [Fx.Spawn agentName task index].
Proof.
  unfold Execution.runSync. destruct (findAgent agents agentName); auto.
Qed.

Lemma orderly_runSync
    (spawnPi : string -> string -> nat -> Execution.ProcRun)
    (agents : list AgentConfig) (agentName task : string) (n : nat)
    (c : bool) (fx : list Fx.Effect) :
  orderly n c fx ->
  orderly (S n) c
    (fx ++ snd (Execution.runSync spawnPi agents agentName task
                  (Execution.mkOptions (Some n) None))).
Proof.
  intros H. destruct (runSync_effects spawnPi agents agentName task n)
    as [-> | ->].
  - rewrite app_nil_r. now apply (orderly_mono n (S n)); [lia|].
  - now apply orderly_spawn.
Qed.

Lemma createParallelDirs_quiet (d : string) (i n : nat)
    (names : list string) :
  Forall (fun e => spawnIndex e = None /\ isWriteFile e = false)
    (createParallelDirs d i n names).
Proof.
  unfold createParallelDirs.
  induction (seq 0 n); simpl; constructor; auto.
Qed.

Section Outcomes.

Variable spawnPi : string -> string -> nat -> Execution.ProcRun.
Variable getFinalOutput : list Execution.Message -> string.
Variable buildChainSummary :
  list ChainStep -> list Execution.SingleResult -> string -> string ->
  option (nat * string) -> string.
Variable replaceAll : string -> string -> string -> string.
Variable MAX_CONCURRENCY : nat.
Variable completionOrder : nat -> list nat.

Local Abbreviation loop :=
  (stepLoop spawnPi getFinalOutput buildChainSummary replaceAll
     MAX_CONCURRENCY completionOrder).

Local Abbreviation oneStep :=
  (chainStep spawnPi getFinalOutput buildChainSummary replaceAll
     MAX_CONCURRENCY completionOrder).

Local Abbreviation run :=
  (runSteps spawnPi getFinalOutput buildChainSummary replaceAll
     MAX_CONCURRENCY completionOrder).

Local Abbreviation group :=
  (parallelGroup spawnPi getFinalOutput buildChainSummary replaceAll
     MAX_CONCURRENCY completionOrder).

Local Abbreviation parStep :=
  (parallelStep spawnPi getFinalOutput buildChainSummary replaceAll
     MAX_CONCURRENCY completionOrder).

(** The effects of a parallel step before its group starts: the
    directories of the tasks and, possibly, the progress file. *)
Definition groupSetup (d : string) (i : nat) (ps : ParallelStep)
    (createNow : bool) (st : LoopState) : list Fx.Effect :=
  let fx1 :=
    (trace st
     ++ createParallelDirs d i (length (parallel ps))
          (map agent (parallel ps)))%list in
  if createNow
  then (fx1 ++ [Fx.WriteFile (JS.pathJoin [d; "progress.md"])
                  progressTemplate])%list
  else fx1.

(** The parallel branch is over before the group starts, with an error
    thrown, or it is the group run on the effects of the setup. *)
Lemma parallelStep_cases (p : ChainExecutionParams) (ot : option string)
    (d : string) (i : nat) (ps : ParallelStep)
    (tpl : option ResolvedTemplate) (st : LoopState) :
  (exists reason createNow,
      (createNow = true -> progressCreated st = false) /\
      parStep p ot d i ps tpl st
      = Halt (Rejected reason) (groupSetup d i ps createNow st)) \/
  (exists pt pbs createNow,
      (createNow = true -> progressCreated st = false) /\
      parStep p ot d i ps tpl st
      = group p ot d i ps pt pbs
          (if createNow then true else progressCreated st)
          (groupSetup d i ps createNow st) st).
Proof.
  unfold parallelStep, groupSetup. cbv zeta.
  destruct (resolveParallelBehaviors (parallel ps) (agents p) i)
    as [pbs|msg].
  2:{ left. exists msg, false. split; [discriminate|reflexivity]. }
  assert (existsb progress pbs && negb (progressCreated st) = true ->
          progressCreated st = false) as Hc.
  { intros H. apply andb_true_iff in H as [_ H].
    now apply negb_true_iff in H. }
  destruct tpl as [tpl|]; [right; eauto 6|].
  destruct (parallel ps) as [|t0 ts]; [right; eauto 6|left; eauto].
Qed.

Lemma parallelGroup_halt (p : ChainExecutionParams) (ot : option string)
    (d : string) (i : nat) (ps : ParallelStep) (pt : nat -> option string)
    (pbs : list ResolvedStepBehavior) (created : bool)
    (fx0 : list Fx.Effect) (st : LoopState) (res : ChainExecutionResult)
    (fx : list Fx.Effect) :
  group p ot d i ps pt pbs created fx0 st = Halt (Resolved res) fx ->
  isError res = true.
Proof.
  unfold parallelGroup. cbv zeta.
  destruct (mapConcurrent _ _ _ _ _ _) as [g slots].
  destruct (mapM id slots) as [rs|]; [|discriminate].
  destruct (failureLinesFrom 0 rs); [discriminate|].
  intros H. injection H as <- _. reflexivity.
Qed.

(** A step that halts the chain with a result reports an error. *)
Lemma chainStep_halt (p : ChainExecutionParams) (ot : option string)
    (d : string) (tpls : list ResolvedTemplate)
    (tui : option (list (option StepOverrides))) (i : nat)
    (step : ChainStep) (st : LoopState) (res : ChainExecutionResult)
    (fx : list Fx.Effect) :
  oneStep p ot d tpls tui i step st = Halt (Resolved res) fx ->
  isError res = true.
Proof.
  unfold chainStep. destruct step as [s|ps].
  - unfold sequentialStep.
    destruct (findAgent (agents p) (agent s)) as [cfg|].
    + destruct (tpls !! i) as [[t|ts]|]; try discriminate.
      unfold sequentialRun.
      destruct (Execution.runSync _ _ _ _ _) as [r fx'].
      destruct (negb (Z.eqb (Execution.exitCode r) 0)); [|discriminate].
      intros H. injection H as <- _. reflexivity.
    + intros H. injection H as <- _. reflexivity.
  - destruct (parallelStep_cases p ot d i ps (tpls !! i) st)
      as [(reason & c & _ & ->)|(pt & pbs & c & _ & ->)]; [discriminate|].
    apply parallelGroup_halt.
Qed.

Lemma stepLoop_halt (p : ChainExecutionParams) (ot : option string)
    (d : string) (tpls : list ResolvedTemplate)
    (tui : option (list (option StepOverrides))) (steps : list ChainStep) :
  forall (i : nat) (st : LoopState) (res : ChainExecutionResult)
         (fx : list Fx.Effect),
    loop p ot d tpls tui i steps st = Halt (Resolved res) fx ->
    isError res = true.
Proof.
  induction steps as [|step steps IH]; intros i st res fx H; simpl in H;
    [discriminate|].
  destruct (oneStep p ot d tpls tui i step st) as [st1|o fx1] eqn:E.
  - eapply IH; eauto.
  - injection H as -> ->. eapply chainStep_halt; eauto.
Qed.

(** X17. When the step loop of [executeChain] ends with a result that is
    not an error, every step has run: the result holds one task result for
    every task of the chain, it names no current step, it lists the agents
    and the number of steps of the chain, and the chain directory
    exists. *)
Theorem completed_chain_ran_every_task :
  forall (p : ChainExecutionParams) (ot : option string)
         (tpls : list ResolvedTemplate)
         (tui : option (list (option StepOverrides)))
         (res : ChainExecutionResult) (fx : list Fx.Effect),
    run p ot tpls tui = (Resolved res, fx) ->
    isError res = false ->
    length (ChainExecution.results (details res))
    = sum_list (map getStepTaskCount (chain p)) /\
    currentStepIndex (details res) = None /\
    chainAgents (details res) = Some (chainAgentsOf (chain p)) /\
    totalSteps (details res) = Some (length (chain p)) /\
    Fx.dirExists (chainDirOf (runId p)) fx = true.
Proof.
  intros p ot tpls tui res fx Hrun Hok. unfold runSteps in Hrun.
  cbv zeta in Hrun.
  destruct (loop p ot (chainDirOf (runId p)) tpls tui 0 (chain p)
              (initialLoop [Fx.MkDir (chainDirOf (runId p))]))
    as [st|o fx1] eqn:Hloop; simpl in Hrun.
  - injection Hrun as <- <-.
    apply (stepLoop_continue spawnPi getFinalOutput buildChainSummary
             replaceAll MAX_CONCURRENCY completionOrder) in Hloop
      as [Hext Hlen].
    simpl in Hlen. repeat split; try assumption.
    now apply initial_trace.
  - injection Hrun as -> ->.
    apply stepLoop_halt in Hloop. congruence.
Qed.

(** The effects of a parallel group stay orderly. *)
Lemma group_orderly (p : ChainExecutionParams) (ot : option string)
    (d : string) (failFast : bool) (pt : nat -> option string)
    (pbs : list ResolvedStepBehavior) (pv : string) (base : nat)
    (tasks : list ParallelTaskItem) (sched : list nat) (limit : nat)
    (created : bool) (fx0 : list Fx.Effect) :
  orderly base created fx0 ->
  exists pool : @Utils.Pool Execution.SingleResult GroupState
                  Execution.SingleResult,
    mapConcurrent
      (taskStart spawnPi replaceAll p ot d failFast pt pbs pv base)
      (taskResume failFast) sched tasks limit (mkGroup false fx0)
    = (store pool, Utils.results pool) /\
    wellFormed tasks pool /\
    orderly (base + length tasks) created (groupTrace (store pool)).
Proof.
  intros H0.
  destruct (mapConcurrent_spec
              (taskStart spawnPi replaceAll p ot d failFast pt pbs pv base)
              (taskResume failFast) tasks
              (fun pool =>
                 orderly (base + next pool) created
                   (groupTrace (store pool))))
    with (sched := sched) (limit := limit) (s0 := mkGroup false fx0)
    as (pool & E & W & I & _ & Hn).
  - intros pool item s r _ Hinv _ Hs.
    apply taskStart_returns in Hs as (_ & _ & -> & _). simpl.
    apply (orderly_mono (base + next pool)); [lia|assumption].
  - intros pool item s r _ Hinv _ Hs.
    apply taskStart_suspends in Hs as (_ & _ & _ & Ht & _).
    simpl. rewrite Ht, Nat.add_succ_r. unfold parallelRun.
    now apply orderly_runSync.
  - intros pool k j r0 s r _ Hinv _ Hr.
    apply taskResume_spec in Hr as (_ & Ht & _). simpl. now rewrite Ht.
  - simpl. now rewrite Nat.add_0_r.
  - exists pool. rewrite Hn in I. auto.
Qed.

Lemma parallelGroup_orderly (p : ChainExecutionParams)
    (ot : option string) (d : string) (i : nat) (ps : ParallelStep)
    (pt : nat -> option string) (pbs : list ResolvedStepBehavior)
    (created : bool) (fx0 : list Fx.Effect) (st : LoopState) :
  orderly (globalTaskIndex st) created fx0 ->
  match group p ot d i ps pt pbs created fx0 st with
  | Continue st' =>
      orderly (globalTaskIndex st') (progressCreated st') (trace st')
  | Halt _ fx => tidy fx
  end.
Proof.
  intros H. unfold parallelGroup. cbv zeta.
  match goal with
  | |- context [mapConcurrent (taskStart _ _ _ _ _ ?ff _ _ ?pv ?b)
                  _ ?sched _ ?limit _] =>
      destruct (group_orderly p ot d ff pt pbs pv b (parallel ps) sched
                  limit created fx0 H) as (pool & -> & W & Hfinal)
  end.
  destruct (mapM id (Utils.results pool)) as [rs|];
    [|simpl; eapply orderly_tidy; exact Hfinal].
  destruct (failureLinesFrom 0 rs); simpl.
  - exact Hfinal.
  - eapply orderly_tidy; exact Hfinal.
Qed.

Lemma groupSetup_orderly (d : string) (i : nat) (ps : ParallelStep)
    (createNow : bool) (st : LoopState) :
  orderly (globalTaskIndex st) (progressCreated st) (trace st) ->
  (createNow = true -> progressCreated st = false) ->
  orderly (globalTaskIndex st)
    (if createNow then true else progressCreated st)
    (groupSetup d i ps createNow st).
Proof.
  intros H Hc. unfold groupSetup. cbv zeta.
  assert (orderly (globalTaskIndex st) (progressCreated st)
            (trace st
             ++ createParallelDirs d i (length (parallel ps))
                  (map agent (parallel ps)))%list) as H1
    by (apply orderly_quiet; [exact H|apply createParallelDirs_quiet]).
  destruct createNow; [|exact H1].
  rewrite (Hc eq_refl) in H1. now apply orderly_write.
Qed.

Lemma chainStep_orderly (p : ChainExecutionParams) (ot : option string)
    (d : string) (tpls : list ResolvedTemplate)
    (tui : option (list (option StepOverrides))) (i : nat)
    (step : ChainStep) (st : LoopState) :
  orderly (globalTaskIndex st) (progressCreated st) (trace st) ->
  match oneStep p ot d tpls tui i step st with
  | Continue st' =>
      orderly (globalTaskIndex st') (progressCreated st') (trace st')
  | Halt _ fx => tidy fx
  end.
Proof.
  intros H. unfold chainStep. destruct step as [s|ps].
  - unfold sequentialStep.
    destruct (findAgent (agents p) (agent s)) as [cfg|].
    + destruct (tpls !! i) as [[t|ts]|];
        try (simpl; eapply orderly_tidy; exact H).
      unfold sequentialRun. cbv zeta.
      match goal with
      | |- context [Execution.runSync ?w ?a ?n ?tk ?o] =>
          pose proof (orderly_runSync w a n tk _ _ _ H) as Hrun;
          destruct (Execution.runSync w a n tk o) as [r fx]
      end.
      simpl in Hrun.
      assert (orderly (S (globalTaskIndex st))
                (if progress
                      (sequentialBehavior tui i s cfg)
                    && negb (progressCreated st)
                 then true else progressCreated st)
                (trace st ++ fx)) as Hnext.
      { destruct (progress _ && negb (progressCreated st)) eqn:E;
          [|assumption].
        apply andb_true_iff in E as [_ E].
        destruct (progressCreated st); [discriminate|].
        destruct Hrun as (H1 & H2 & H3). split; [assumption|].
        split; [assumption|]. simpl in *. lia. }
      destruct (negb (Z.eqb (Execution.exitCode r) 0)); simpl.
      * eapply orderly_tidy; exact Hnext.
      * exact Hnext.
    + simpl. eapply orderly_tidy. apply orderly_quiet; [exact H|].
      repeat constructor.
  - destruct (parallelStep_cases p ot d i ps (tpls !! i) st)
      as [(reason & c & Hc & ->)|(pt & pbs & c & Hc & ->)].
    + eapply orderly_tidy. now apply groupSetup_orderly.
    + apply parallelGroup_orderly. now apply groupSetup_orderly.
Qed.

Lemma stepLoop_orderly (p : ChainExecutionParams) (ot : option string)
    (d : string) (tpls : list ResolvedTemplate)
    (tui : option (list (option StepOverrides))) (steps : list ChainStep) :
  forall (i : nat) (st : LoopState),
    orderly (globalTaskIndex st) (progressCreated st) (trace st) ->
    match loop p ot d tpls tui i steps st with
    | Continue st' =>
        orderly (globalTaskIndex st') (progressCreated st') (trace st')
    | Halt _ fx => tidy fx
    end.
Proof.
  induction steps as [|step steps IH]; intros i st H; simpl; [exact H|].
  pose proof (chainStep_orderly p ot d tpls tui i step st H) as Hstep.
  destruct (oneStep p ot d tpls tui i step st) as [st1|o fx];
    [now apply IH|exact Hstep].
Qed.

Lemma runSteps_tidy (p : ChainExecutionParams) (ot : option string)
    (tpls : list ResolvedTemplate)
    (tui : option (list (option StepOverrides))) :
  tidy (snd (run p ot tpls tui)).
Proof.
  unfold runSteps. cbv zeta.
  pose proof (stepLoop_orderly p ot (chainDirOf (runId p)) tpls tui
                (chain p) 0
                (initialLoop [Fx.MkDir (chainDirOf (runId p))])) as H.
  destruct (loop _ _ _ _ _ _ _ _) as [st|o fx]; simpl.
  - eapply orderly_tidy. apply H.
    split; [constructor|]. split; [constructor|simpl; lia].
  - apply H. split; [constructor|]. split; [constructor|simpl; lia].
Qed.

(** X18. No two workers of a chain run are started with the same task
    index, whatever the steps and the templates and however the run
    ends. *)
Theorem spawn_indices_distinct :
  forall (p : ChainExecutionParams) (ot : option string)
         (tpls : list ResolvedTemplate)
         (tui : option (list (option StepOverrides))),
    NoDup (spawnIndices (snd (run p ot tpls tui))).
Proof.
  intros p ot tpls tui. now destruct (runSteps_tidy p ot tpls tui).
Qed.

(** X19. The orchestrator writes the progress file at most once during a
    chain run: a second parallel step that tracks progress, or one that
    follows a sequential step that does, finds it created. *)
Theorem progress_file_written_once :
  forall (p : ChainExecutionParams) (ot : option string)
         (tpls : list ResolvedTemplate)
         (tui : option (list (option StepOverrides))),
    length (filesWritten (snd (run p ot tpls tui))) <= 1.
Proof.
  intros p ot tpls tui. now destruct (runSteps_tidy p ot tpls tui).
Qed.

Section WorkersReportNoSkip.

(** No worker process exits with the code that marks a skipped task. *)
Hypothesis never_minus_one :
  forall (agentName task : string) (index : nat),
    Execution.code (spawnPi agentName task index) <> Some (-1)%Z.

(** What the pool of a group keeps true about skipped tasks: a task in
    flight has no stored result and is no skipped one; a stored result of
    a skipped task means the group was aborted; and an aborted group has
    stored the result of a task that really failed. *)
Record accounted (tasks : list ParallelTaskItem)
    (pool : @Utils.Pool Execution.SingleResult GroupState
              Execution.SingleResult) : Prop := mkAccounted {
  acc_unstarted :
    forall j, next pool <= j -> j < length tasks ->
              Utils.results pool !! j = Some None;
  acc_inflight :
    forall j r, (j, r) ∈ inflight pool ->
                Utils.results pool !! j = Some None /\
                Execution.exitCode r <> (-1)%Z;
  acc_skipped :
    forall j r, Utils.results pool !! j = Some (Some r) ->
                Execution.exitCode r = (-1)%Z ->
                aborted (store pool) = true;
  acc_aborted :
    aborted (store pool) = true ->
    exists j r, Utils.results pool !! j = Some (Some r) /\
                Execution.exitCode r <> 0%Z /\
                Execution.exitCode r <> (-1)%Z
}.

Lemma inflight_other {A} (l : list (nat * A)) (k j i : nat) (p q : A) :
  NoDup l.*1 -> l !! k = Some (j, p) -> (i, q) ∈ delete k l -> i <> j.
Proof.
  intros Hnd Hk Hin ->.
  apply list_elem_of_lookup in Hin as [m Hm].
  assert (exists m', m' <> k /\ l !! m' = Some (j, q)) as (m' & Hne & Hm').
  { destruct (decide (m < k)) as [Hlt|Hge].
    - exists m. split; [lia|]. now rewrite list_lookup_delete_lt in Hm.
    - exists (S m). split; [lia|].
      now rewrite list_lookup_delete_ge in Hm by lia. }
  apply Hne. eapply (NoDup_lookup _ _ _ j Hnd).
  - rewrite list_lookup_fmap, Hm'. reflexivity.
  - rewrite list_lookup_fmap, Hk. reflexivity.
Qed.

Lemma group_accounted (p : ChainExecutionParams) (ot : option string)
    (d : string) (failFast : bool) (pt : nat -> option string)
    (pbs : list ResolvedStepBehavior) (pv : string) (base : nat)
    (tasks : list ParallelTaskItem) (sched : list nat) (limit : nat)
    (fx0 : list Fx.Effect) :
  exists pool : @Utils.Pool Execution.SingleResult GroupState
                  Execution.SingleResult,
    mapConcurrent
      (taskStart spawnPi replaceAll p ot d failFast pt pbs pv base)
      (taskResume failFast) sched tasks limit (mkGroup false fx0)
    = (store pool, Utils.results pool) /\
    wellFormed tasks pool /\ accounted tasks pool.
Proof.
  destruct (mapConcurrent_spec
              (taskStart spawnPi replaceAll p ot d failFast pt pbs pv base)
              (taskResume failFast) tasks (accounted tasks))
    with (sched := sched) (limit := limit) (s0 := mkGroup false fx0)
    as (pool & E & W & I & _).
  - intros pool item s r Hwf [A1 A2 A3 A4] Hitem Hs.
    apply taskStart_returns in Hs as (Ha & _ & -> & ->).
    assert (next pool < length (Utils.results pool)) as Hlen.
    { rewrite (wf_results _ _ Hwf). eapply lookup_lt_Some; eauto. }
    constructor; simpl.
    + intros j Hj Hlt. rewrite list_lookup_insert_ne by lia.
      apply A1; lia.
    + intros j r Hin. destruct (A2 j r Hin) as [Hn Hr].
      pose proof (wf_inflight_lt _ _ Hwf j r Hin).
      rewrite list_lookup_insert_ne by lia. auto.
    + intros _ _ _ _. exact Ha.
    + intros _. destruct (A4 Ha) as (j & r & Hj & Hr).
      exists j, r. split; [|assumption].
      destruct (decide (j = next pool)) as [->|Hne].
      * rewrite A1 in Hj; [discriminate|lia|].
        eapply lookup_lt_Some; eauto.
      * now rewrite list_lookup_insert_ne by congruence.
  - intros pool item s r Hwf [A1 A2 A3 A4] Hitem Hs.
    apply taskStart_suspends in Hs as (_ & Hab & -> & _ & _).
    assert (Execution.exitCode
              (fst (parallelRun spawnPi replaceAll p ot d pt pbs pv base
                      item (next pool))) <> (-1)%Z) as Hexit
      by (unfold parallelRun;
          now apply ExecutionFacts.runSync_not_skipped).
    constructor; simpl; rewrite ?Hab.
    + intros j Hj Hlt. apply A1; lia.
    + intros j q Hin. apply elem_of_app in Hin as [Hin|Hin].
      * now apply A2.
      * apply list_elem_of_singleton in Hin. injection Hin as -> ->.
        split; [|assumption]. apply A1; [lia|].
        eapply lookup_lt_Some; eauto.
    + assumption.
    + assumption.
  - intros pool k j r0 s r Hwf [A1 A2 A3 A4] Hk Hr.
    apply taskResume_spec in Hr as (-> & _ & Ha).
    assert ((j, r0) ∈ inflight pool) as Hjin
      by (eapply list_elem_of_lookup_2; eauto).
    destruct (A2 j r0 Hjin) as [Hnone Hexit].
    assert (j < length (Utils.results pool)) as Hlen
      by (eapply lookup_lt_Some; eauto).
    constructor; simpl.
    + intros i Hi Hlt.
      pose proof (wf_inflight_lt _ _ Hwf j r0 Hjin).
      rewrite list_lookup_insert_ne by lia. now apply A1.
    + intros i q Hin.
      pose proof (inflight_other _ _ _ _ _ _ (wf_nodup _ _ Hwf) Hk Hin).
      rewrite list_lookup_insert_ne by congruence.
      apply A2. eapply elem_of_delete_elem_of; eauto.
    + intros i q Hi Hq. rewrite Ha.
      destruct (decide (i = j)) as [->|Hne].
      * rewrite list_lookup_insert_eq in Hi by assumption.
        injection Hi as <-. contradiction.
      * rewrite list_lookup_insert_ne in Hi by congruence.
        now rewrite (A3 i q Hi Hq).
    + rewrite Ha. intros Hab.
      destruct (aborted (store pool)) eqn:Hold.
      * destruct (A4 eq_refl) as (i & q & Hi & Hq).
        exists i, q. split; [|assumption].
        destruct (decide (i = j)) as [->|Hne]; [congruence|].
        now rewrite list_lookup_insert_ne by congruence.
      * simpl in Hab. apply andb_true_iff in Hab as [Hnz _].
        exists j, r0. split.
        -- now rewrite list_lookup_insert_eq.
        -- split; [|assumption]. apply negb_true_iff in Hnz.
           now apply Z.eqb_neq.
  - constructor; simpl.
    + intros j _ Hj. now apply lookup_replicate.
    + intros j r Hin. now apply elem_of_nil in Hin.
    + intros j r Hj. apply lookup_replicate in Hj as [Hj _]. discriminate.
    + discriminate.
  - exists pool. auto.
Qed.

Lemma failureLinesFrom_nil (rs : list Execution.SingleResult) :
  forall i : nat,
    failureLinesFrom i rs = [] ->
    Forall (fun r => Execution.exitCode r = 0%Z
                     \/ Execution.exitCode r = (-1)%Z) rs.
Proof.
  induction rs as [|r rs IH]; intros i H; simpl in H; [constructor|].
  destruct (negb (Z.eqb (Execution.exitCode r) 0)
            && negb (Z.eqb (Execution.exitCode r) (-1))) eqn:E;
    [discriminate|].
  constructor; [|eapply IH; eauto].
  apply andb_false_iff in E as [E|E]; apply negb_false_iff in E;
    apply Z.eqb_eq in E; auto.
Qed.

Definition allSucceeded (rs : list Execution.SingleResult) : Prop :=
  Forall (fun r => Execution.exitCode r = 0%Z) rs.

Lemma parallelGroup_succeeded (p : ChainExecutionParams)
    (ot : option string) (d : string) (i : nat) (ps : ParallelStep)
    (pt : nat -> option string) (pbs : list ResolvedStepBehavior)
    (created : bool) (fx0 : list Fx.Effect) (st st' : LoopState) :
  group p ot d i ps pt pbs created fx0 st = Continue st' ->
  allSucceeded (loopResults st) -> allSucceeded (loopResults st').
Proof.
  unfold parallelGroup. cbv zeta.
  match goal with
  | |- context [mapConcurrent (taskStart _ _ _ _ _ ?ff _ _ ?pv ?b)
                  _ ?sched _ ?limit _] =>
      destruct (group_accounted p ot d ff pt pbs pv b (parallel ps) sched
                  limit fx0) as (pool & -> & W & [A1 A2 A3 A4])
  end.
  destruct (mapM id (Utils.results pool)) as [rs|] eqn:Hm;
    [|discriminate].
  destruct (failureLinesFrom 0 rs) eqn:Hfail; [|discriminate].
  intros H Hall. injection H as <-. simpl.
  apply Forall_app. split; [assumption|].
  apply failureLinesFrom_nil in Hfail.
  apply mapM_Some_1 in Hm.
  assert (forall j r, Utils.results pool !! j = Some (Some r) -> r ∈ rs)
    as Hin.
  { intros j r Hj.
    destruct (Forall2_lookup_l _ _ _ _ _ Hm Hj) as (r' & Hr' & Heq).
    simpl in Heq. injection Heq as ->.
    eapply list_elem_of_lookup_2; eauto. }
  assert (aborted (store pool) = false) as Hna.
  { destruct (aborted (store pool)) eqn:Hab; [|reflexivity].
    destruct (A4 eq_refl) as (j & r & Hj & Hnz & Hns).
    rewrite Forall_forall in Hfail.
    destruct (Hfail r (Hin j r Hj)); contradiction. }
  apply Forall_forall. intros r Hr.
  rewrite Forall_forall in Hfail.
  destruct (Hfail r Hr) as [H0|Hskip]; [assumption|].
  apply list_elem_of_lookup in Hr as [j Hj].
  destruct (Forall2_lookup_r _ _ _ _ _ Hm Hj) as (slot & Hslot & Heq).
  simpl in Heq. subst slot.
  rewrite (A3 j r Hslot Hskip) in Hna. discriminate.
Qed.

Lemma chainStep_succeeded (p : ChainExecutionParams) (ot : option string)
    (d : string) (tpls : list ResolvedTemplate)
    (tui : option (list (option StepOverrides))) (i : nat)
    (step : ChainStep) (st st' : LoopState) :
  oneStep p ot d tpls tui i step st = Continue st' ->
  allSucceeded (loopResults st) -> allSucceeded (loopResults st').
Proof.
  unfold chainStep. destruct step as [s|ps].
  - unfold sequentialStep.
    destruct (findAgent (agents p) (agent s)) as [cfg|]; [|discriminate].
    destruct (tpls !! i) as [[t|ts]|]; try discriminate.
    unfold sequentialRun.
    destruct (Execution.runSync _ _ _ _ _) as [r fx]. cbv zeta.
    destruct (Z.eqb (Execution.exitCode r) 0) eqn:E; [|discriminate].
    intros H Hall. injection H as <-. simpl.
    apply Forall_app. split; [assumption|].
    repeat constructor. now apply Z.eqb_eq.
  - destruct (parallelStep_cases p ot d i ps (tpls !! i) st)
      as [(reason & c & _ & ->)|(pt & pbs & c & _ & ->)]; [discriminate|].
    apply parallelGroup_succeeded.
Qed.

Lemma stepLoop_succeeded (p : ChainExecutionParams) (ot : option string)
    (d : string) (tpls : list ResolvedTemplate)
    (tui : option (list (option StepOverrides))) (steps : list ChainStep) :
  forall (i : nat) (st st' : LoopState),
    loop p ot d tpls tui i steps st = Continue st' ->
    allSucceeded (loopResults st) -> allSucceeded (loopResults st').
Proof.
  induction steps as [|step steps IH]; intros i st st' H Hall; simpl in H.
  - now injection H as <-.
  - destruct (oneStep p ot d tpls tui i step st) as [st1|o fx] eqn:E;
      [|discriminate].
    eapply IH; [exact H|]. eapply chainStep_succeeded; eauto.
Qed.

(** X20. When no worker process exits with code -1, a chain whose step
    loop ends with a result that is not an error has run every task to
    success: each of its task results has exit code 0, so none failed and
    none was skipped. *)
Theorem completed_chain_all_succeeded :
  forall (p : ChainExecutionParams) (ot : option string)
         (tpls : list ResolvedTemplate)
         (tui : option (list (option StepOverrides)))
         (res : ChainExecutionResult) (fx : list Fx.Effect),
    run p ot tpls tui = (Resolved res, fx) ->
    isError res = false ->
    Forall (fun r => Execution.exitCode r = 0%Z)
      (ChainExecution.results (details res)).
Proof.
  intros p ot tpls tui res fx Hrun Hok. unfold runSteps in Hrun.
  cbv zeta in Hrun.
  destruct (loop p ot (chainDirOf (runId p)) tpls tui 0 (chain p)
              (initialLoop [Fx.MkDir (chainDirOf (runId p))]))
    as [st|o fx1] eqn:Hloop; simpl in Hrun.
  - injection Hrun as <- <-. simpl.
    eapply stepLoop_succeeded; [exact Hloop|]. constructor.
  - injection Hrun as -> ->.
    apply stepLoop_halt in Hloop. congruence.
Qed.

End WorkersReportNoSkip.

End Outcomes.

(** The two-step chain of scenario C, run through the step loop with
    workers that succeed. *)
Definition twoStepsRun
  : Completion ChainExecutionResult * list Fx.Effect :=
  Eval vm_compute in
    runSteps Spec.allSucceed Spec.lastText Spec.statusOnly Spec.replaceAll 4
      (fun _ => []) Spec.twoSteps (Some "Do first thing")
      [TemplateOne "Do first thing"; TemplateOne "{previous}"] None.

Definition twoStepsResult : ChainExecutionResult :=
  Eval vm_compute in
    match fst twoStepsRun with
    | Resolved res => res
    | Rejected _ => mkChainResult "" (mkDetails "" [] None None None None) true
    end.

Lemma completed_chain_ran_every_task_witness :
  length (ChainExecution.results (details twoStepsResult))
  = sum_list (map getStepTaskCount (chain Spec.twoSteps)) /\
  currentStepIndex (details twoStepsResult) = None /\
  chainAgents (details twoStepsResult)
  = Some (chainAgentsOf (chain Spec.twoSteps)) /\
  totalSteps (details twoStepsResult) = Some (length (chain Spec.twoSteps)) /\
  Fx.dirExists (chainDirOf (runId Spec.twoSteps)) (snd twoStepsRun) = true.
Proof.
  apply (completed_chain_ran_every_task Spec.allSucceed Spec.lastText
           Spec.statusOnly Spec.replaceAll 4 (fun _ => []) Spec.twoSteps
           (Some "Do first thing")
           [TemplateOne "Do first thing"; TemplateOne "{previous}"] None
           twoStepsResult (snd twoStepsRun)).
  - vm_compute. reflexivity.
  - reflexivity.
Defined.

Lemma completed_chain_all_succeeded_witness :
  Forall (fun r => Execution.exitCode r = 0%Z)
    (ChainExecution.results (details twoStepsResult)).
Proof.
  apply (completed_chain_all_succeeded Spec.allSucceed Spec.lastText
           Spec.statusOnly Spec.replaceAll 4 (fun _ => [])
           (fun agentName task index => ltac:(discriminate))
           Spec.twoSteps (Some "Do first thing")
           [TemplateOne "Do first thing"; TemplateOne "{previous}"] None
           twoStepsResult (snd twoStepsRun)).
  - vm_compute. reflexivity.
  - reflexivity.
Defined.

End ChainRunFacts.

(* ===================================================================== *)
(** * Saved templates and the chain directory (settings.ts)              *)
(* ===================================================================== *)

Module ResolutionFacts.

Import Settings ChainExecution.

(** *** The saved-template resolution *)

(** X21.  [resolveChainTemplates] throws exactly when its settings are
    left out, or its inline tasks are while there is an agent.  Otherwise
    it gives one template per agent name, and none of them is empty: an
    empty inline task or saved template gives way to the next choice. *)
Theorem resolveChainTemplates_outcome :
  forall (agentNames : list string)
         (inlineTasks : option (list (option string)))
         (settings : option SubagentSettings),
    match resolveChainTemplates agentNames inlineTasks settings with
    | inr reason =>
        reason = "TypeError" /\
        (settings = None \/ (inlineTasks = None /\ agentNames <> []))
    | inl templates =>
        settings <> None /\
        (inlineTasks = None -> agentNames = []) /\
        length templates = length agentNames /\
        Forall (fun t => JS.truthy t = true) templates
    end.
Proof.
  intros agentNames inlineTasks settings. unfold resolveChainTemplates.
  destruct settings as [settings|]; [|auto].
  assert (forall (saved : list (string * string)) (names : list string),
             length
               (imap
                  (fun i agent =>
                     let inline :=
                       match inlineTasks with
                       | Some tasks => match tasks !! i with
                                       | Some t => t
                                       | None => None
                                       end
                       | None => None
                       end in
                     if JS.truthyOpt inline then JS.nullish inline ""
                     else
                       let saved := ownProperty agent saved in
                       if JS.truthyOpt saved then JS.nullish saved ""
                       else if Nat.eqb i 0 then "{task}" else "{previous}")
                  names) = length names /\
             Forall (fun t => JS.truthy t = true)
               (imap
                  (fun i agent =>
                     let inline :=
                       match inlineTasks with
                       | Some tasks => match tasks !! i with
                                       | Some t => t
                                       | None => None
                                       end
                       | None => None
                       end in
                     if JS.truthyOpt inline then JS.nullish inline ""
                     else
                       let saved := ownProperty agent saved in
                       if JS.truthyOpt saved then JS.nullish saved ""
                       else if Nat.eqb i 0 then "{task}" else "{previous}")
                  names)) as Hall.
  { intros saved names. split; [apply length_imap|].
    apply Forall_forall. intros t Ht.
    apply elem_of_lookup_imap in Ht as (i & agent & -> & _). cbv zeta.
    match goal with
    | |- context [JS.truthyOpt ?inline] =>
        destruct inline as [s|] eqn:Ei; simpl;
        [destruct (JS.truthy s) eqn:Es; [exact Es|]|]
    end.
    all: destruct (ownProperty agent saved) as [s'|]; simpl;
      [destruct (JS.truthy s') eqn:Es'; [exact Es'|]|];
      destruct (Nat.eqb i 0); reflexivity. }
  cbv zeta.
  destruct inlineTasks as [tasks|]; [|destruct agentNames as [|a names]].
  - split; [discriminate|]. split; [discriminate|]. apply Hall.
  - split; [discriminate|]. split; [reflexivity|]. split; [reflexivity|].
    constructor.
  - split; [reflexivity|]. right. split; [reflexivity|discriminate].
Qed.

(** *** The chain directory *)

Lemma rev_last_char (c : ascii) (s : string) :
  forall t : string,
    TailFacts.occurs c s = false -> JS.truthy s = true ->
    JS.startsWith (String c "") (JS.rev s ++ t) = false.
Proof.
  induction s as [|d s IH]; intros t Ho Ht; [discriminate|].
  simpl in Ho. apply orb_false_iff in Ho as [Hd Ho].
  simpl JS.rev. rewrite SettingsFacts.append_assoc. simpl append.
  destruct s as [|e s].
  - simpl. rewrite Ascii.eqb_sym, Hd. reflexivity.
  - apply IH; [assumption|reflexivity].
Qed.

Lemma rev_append (a b : string) : JS.rev (a ++ b) = JS.rev b ++ JS.rev a.
Proof.
  induction a as [|c a IH]; simpl.
  - now rewrite SettingsFacts.append_empty_r.
  - now rewrite IH, SettingsFacts.append_assoc.
Qed.

(** X22.  For a run id that is a plain name (not empty, without a slash,
    and neither [.] nor [..]) the chain directory is the directory of that
    name under [/tmp/pi-chain-runs].  Other run ids are normalized away:
    an empty one names [/tmp/pi-chain-runs] itself, and [..] names
    [/tmp]. *)
Theorem chainDirOf_plain_name :
  (forall runId : string,
      JS.truthy runId = true ->
      TailFacts.occurs "/" runId = false ->
      runId <> "." -> runId <> ".." ->
      chainDirOf runId = CHAIN_RUNS_DIR ++ "/" ++ runId) /\
  chainDirOf "" = "/tmp/pi-chain-runs" /\
  chainDirOf ".." = "/tmp".
Proof.
  split; [|split; reflexivity].
  intros runId Ht Ho Hd Hdd.
  assert (JS.startsWith "/" (JS.rev ("/tmp/pi-chain-runs/" ++ runId))
          = false) as Htrail
    by (rewrite rev_append; now apply rev_last_char).
  assert (JS.split "/" ("/tmp/pi-chain-runs/" ++ runId)
          = [""; "tmp"; "pi-chain-runs"; runId]) as Hs
    by (simpl; now rewrite (TailFacts.split_absent "/" runId Ho)).
  assert (String.eqb runId "" = false) as E0
    by (destruct runId; [discriminate|reflexivity]).
  apply String.eqb_neq in Hd, Hdd.
  unfold chainDirOf, JS.pathJoin, CHAIN_RUNS_DIR. simpl List.filter.
  rewrite Ht.
  change (JS.join "/" ["/tmp/pi-chain-runs"; runId])
    with ("/tmp/pi-chain-runs/" ++ runId).
  unfold JS.pathNormalize. cbv zeta. rewrite Htrail, Hs.
  simpl. rewrite E0, Hd, Hdd. simpl.
  now rewrite SettingsFacts.append_empty_r.
Qed.

Lemma chainDirOf_plain_name_witness :
  chainDirOf "a1b2c3" = CHAIN_RUNS_DIR ++ "/" ++ "a1b2c3".
Proof.
  apply (proj1 chainDirOf_plain_name "a1b2c3");
    [reflexivity|reflexivity|discriminate|discriminate].
Defined.

End ResolutionFacts.

(* ===================================================================== *)
(** * The merged agent list and the reserved arguments                   *)
(* ===================================================================== *)

Module AgentsFacts.

Import Settings Agents.

Lemma mapGet_mapSet {V} (m : list (string * V)) (k : string) (v : V)
    (k' : string) :
  mapGet (mapSet m k v) k'
  = if String.eqb k k' then Some v else mapGet m k'.
Proof.
  induction m as [|[k0 v0] m IH]; simpl; [reflexivity|].
  destruct (String.eqb k0 k) eqn:E; simpl.
  - apply String.eqb_eq in E. subst k0.
    destruct (String.eqb k k'); reflexivity.
  - destruct (String.eqb k0 k') eqn:E'; [|exact IH].
    apply String.eqb_eq in E'. subst k'.
    rewrite String.eqb_sym, E. reflexivity.
Qed.

Lemma mapGet_None {V} (m : list (string * V)) (k : string) :
  mapGet m k = None <-> k ∉ map fst m.
Proof.
  induction m as [|[k0 v0] m IH]; simpl.
  - split; [intros _ H; now apply elem_of_nil in H|reflexivity].
  - destruct (String.eqb k0 k) eqn:E.
    + apply String.eqb_eq in E. subst k0. split; [discriminate|].
      intros H. exfalso. apply H. apply elem_of_cons. now left.
    + apply String.eqb_neq in E. rewrite IH. split.
      * intros H Hin. apply elem_of_cons in Hin as [->|Hin]; auto.
      * intros H Hin. apply H. apply elem_of_cons. now right.
Qed.

(** The keys after [set]: as before for a key that was present, with the
    key added at the end otherwise. *)
Lemma mapSet_keys {V} (m : list (string * V)) (k : string) (v : V) :
  map fst (mapSet m k v)
  = match mapGet m k with
    | Some _ => map fst m
    | None => (map fst m ++ [k])%list
    end.
Proof.
  induction m as [|[k0 v0] m IH]; simpl; [reflexivity|].
  destruct (String.eqb k0 k) eqn:E; simpl.
  - apply String.eqb_eq in E. now subst k0.
  - rewrite IH. now destruct (mapGet m k).
Qed.

Lemma mapSet_NoDup {V} (m : list (string * V)) (k : string) (v : V) :
  NoDup (map fst m) -> NoDup (map fst (mapSet m k v)).
Proof.
  intros H. rewrite mapSet_keys.
  destruct (mapGet m k) eqn:E; [assumption|].
  apply mapGet_None in E. apply NoDup_app. split; [assumption|].
  split; [|apply NoDup_singleton].
  intros x Hx Hk. apply list_elem_of_singleton in Hk. now subst x.
Qed.

Lemma mapSet_elem {V} (m : list (string * V)) (k : string) (v : V)
    (e : string * V) :
  e ∈ mapSet m k v -> e = (k, v) \/ e ∈ m.
Proof.
  induction m as [|[k0 v0] m IH]; simpl; intros H.
  - apply list_elem_of_singleton in H. now left.
  - destruct (String.eqb k0 k).
    + apply elem_of_cons in H as [H|H]; [now left|].
      right. apply elem_of_cons. now right.
    + apply elem_of_cons in H as [H|H].
      * right. apply elem_of_cons. now left.
      * destruct (IH H) as [He|He]; [now left|].
        right. apply elem_of_cons. now right.
Qed.

(** What [setAll] keeps true of a map: every entry stands under the name
    of its agent, no key occurs twice, and every agent comes from
    [sources]. *)
Definition fromAgents (sources : list AgentConfig)
    (m : list (string * AgentConfig)) : Prop :=
  Forall (fun kv => fst kv = name (snd kv) /\ snd kv ∈ sources) m /\
  NoDup (map fst m).

Lemma setAll_fromAgents (sources agents : list AgentConfig) :
  forall m : list (string * AgentConfig),
    agents ⊆ sources -> fromAgents sources m ->
    fromAgents sources (setAll m agents).
Proof.
  induction agents as [|a agents IH]; intros m Hsub Hm; [exact Hm|].
  simpl. apply IH.
  - intros x Hx. apply Hsub. apply elem_of_cons. now right.
  - destruct Hm as [Hk Hn]. split; [|now apply mapSet_NoDup].
    apply Forall_forall. intros e He.
    apply mapSet_elem in He as [->|He].
    + simpl. split; [reflexivity|]. apply Hsub. apply elem_of_cons. now left.
    + rewrite Forall_forall in Hk. now apply Hk.
Qed.

Lemma findAgent_values (sources : list AgentConfig)
    (m : list (string * AgentConfig)) (wanted : string) :
  fromAgents sources m -> findAgent (map snd m) wanted = mapGet m wanted.
Proof.
  intros [Hk _]. induction Hk as [|[k a] m [Hka _] _ IH]; [reflexivity|].
  simpl in *. subst k. now rewrite IH.
Qed.

Lemma findAgent_app (l1 l2 : list AgentConfig) (wanted : string) :
  findAgent (l1 ++ l2) wanted
  = match findAgent l1 wanted with
    | Some a => Some a
    | None => findAgent l2 wanted
    end.
Proof.
  induction l1 as [|a l1 IH]; simpl; [reflexivity|].
  now destruct (String.eqb (name a) wanted).
Qed.

Lemma mapGet_setAll (agents : list AgentConfig) :
  forall (m : list (string * AgentConfig)) (wanted : string),
    mapGet (setAll m agents) wanted
    = match findAgent (List.rev agents) wanted with
      | Some a => Some a
      | None => mapGet m wanted
      end.
Proof.
  induction agents as [|a agents IH]; intros m wanted; [reflexivity|].
  simpl. rewrite IH, findAgent_app, mapGet_mapSet. simpl.
  destruct (findAgent (List.rev agents) wanted); [reflexivity|].
  now destruct (String.eqb (name a) wanted).
Qed.

Lemma empty_fromAgents (sources : list AgentConfig) : fromAgents sources [].
Proof. split; constructor. Qed.

Lemma merged_fromAgents (scope : AgentScope)
    (userAgents projectAgents : list AgentConfig) :
  exists m,
    mergeAgentsForScope scope userAgents projectAgents = map snd m /\
    fromAgents
      (match scope with
       | ScopeBoth => userAgents ++ projectAgents
       | ScopeUser => userAgents
       | ScopeProject => projectAgents
       end)%list m /\
    forall wanted,
      mapGet m wanted
      = match scope with
        | ScopeBoth =>
            match findAgent (List.rev projectAgents) wanted with
            | Some a => Some a
            | None => findAgent (List.rev userAgents) wanted
            end
        | ScopeUser => findAgent (List.rev userAgents) wanted
        | ScopeProject => findAgent (List.rev projectAgents) wanted
        end.
Proof.
  unfold mergeAgentsForScope. destruct scope; eexists;
    (split; [reflexivity|]); split.
  - apply setAll_fromAgents; [intros x Hx; exact Hx|apply empty_fromAgents].
  - intros wanted. rewrite mapGet_setAll.
    now destruct (findAgent (List.rev userAgents) wanted).
  - apply setAll_fromAgents; [intros x Hx; exact Hx|apply empty_fromAgents].
  - intros wanted. rewrite mapGet_setAll.
    now destruct (findAgent (List.rev projectAgents) wanted).
  - apply setAll_fromAgents;
      [intros x Hx; apply elem_of_app; now right|].
    apply setAll_fromAgents;
      [intros x Hx; apply elem_of_app; now left|apply empty_fromAgents].
  - intros wanted. rewrite !mapGet_setAll.
    destruct (findAgent (List.rev projectAgents) wanted); [reflexivity|].
    now destruct (findAgent (List.rev userAgents) wanted).
Qed.

(** X24.  Looking an agent up by name in the merged list gives the agent
    that was set last under that name: for the scope [both] the last
    project agent of that name, and the last user agent of that name when
    the project has none; for the other scopes the last agent of that name
    in the one list that counts. *)
Theorem merged_lookup_last_wins :
  forall (scope : AgentScope) (userAgents projectAgents : list AgentConfig)
         (wanted : string),
    findAgent (mergeAgentsForScope scope userAgents projectAgents) wanted
    = match scope with
      | ScopeBoth =>
          match findAgent (List.rev projectAgents) wanted with
          | Some a => Some a
          | None => findAgent (List.rev userAgents) wanted
          end
      | ScopeUser => findAgent (List.rev userAgents) wanted
      | ScopeProject => findAgent (List.rev projectAgents) wanted
      end.
Proof.
  intros scope userAgents projectAgents wanted.
  destruct (merged_fromAgents scope userAgents projectAgents)
    as (m & -> & Hm & Hget).
  rewrite (findAgent_values _ _ _ Hm). apply Hget.
Qed.

(** X25.  The merged list holds no two agents of the same name, and every
    agent in it comes from a list that counts for the scope. *)
Theorem merged_names_distinct :
  forall (scope : AgentScope) (userAgents projectAgents : list AgentConfig),
    NoDup (map name (mergeAgentsForScope scope userAgents projectAgents)) /\
    forall a,
      a ∈ mergeAgentsForScope scope userAgents projectAgents ->
      (scope <> ScopeProject /\ a ∈ userAgents) \/
      (scope <> ScopeUser /\ a ∈ projectAgents).
Proof.
  intros scope userAgents projectAgents.
  destruct (merged_fromAgents scope userAgents projectAgents)
    as (m & -> & [Hk Hn] & _).
  split.
  - replace (map name (map snd m)) with (map fst m); [assumption|].
    clear Hn. induction Hk as [|[k a] m [Hka _] _ IH]; [reflexivity|].
    simpl in *. now rewrite Hka, IH.
  - intros a Ha. apply list_elem_of_fmap in Ha as ([k a'] & -> & Hin).
    rewrite Forall_forall in Hk. destruct (Hk _ Hin) as [_ Hsrc].
    simpl in *. destruct scope.
    + left. split; [discriminate|assumption].
    + right. split; [discriminate|assumption].
    + apply elem_of_app in Hsrc as [H|H]; [left|right];
        (split; [discriminate|assumption]).
Qed.

End AgentsFacts.

Module PiArgsFacts.

Import PiArgs.

Lemma startsWith_prefix (p s : string) :
  JS.startsWith p s = true <-> exists rest, s = p ++ rest.
Proof.
  revert s. induction p as [|c p IH]; intros s; simpl.
  - split; [eauto|reflexivity].
  - destruct s as [|d s]; [split; [discriminate|intros (r & H); discriminate]|].
    split.
    + intros H. apply andb_true_iff in H as [Hc H].
      apply Ascii.eqb_eq in Hc. subst d.
      apply IH in H as (rest & ->). eauto.
    + intros (rest & H). injection H as -> ->.
      rewrite Ascii.eqb_refl. simpl. apply IH. eauto.
Qed.

(** X26.  [validatePiArgs] accepts a list of arguments exactly when none
    of them is a reserved argument or a reserved argument followed by [=]
    and a value; otherwise the error it throws names the first such
    argument. *)
Theorem validatePiArgs_first_conflict :
  (forall arg : string,
      isReserved arg = true <->
      exists reserved,
        In reserved RESERVED_ARGS /\
        (arg = reserved \/ exists value, arg = reserved ++ "=" ++ value)) /\
  forall piArgs : list string,
    match validatePiArgs piArgs with
    | None => Forall (fun arg => isReserved arg = false) piArgs
    | Some message =>
        exists before arg after,
          piArgs = (before ++ arg :: after)%list /\
          Forall (fun arg => isReserved arg = false) before /\
          isReserved arg = true /\
          message = conflictMessage arg
    end.
Proof.
  split.
  - intros arg. unfold isReserved. rewrite existsb_exists. split.
    + intros (reserved & Hin & H). exists reserved. split; [assumption|].
      apply orb_true_iff in H as [H|H].
      * left. now apply String.eqb_eq.
      * right. apply startsWith_prefix in H as (rest & ->).
        exists rest. now rewrite SettingsFacts.append_assoc.
    + intros (reserved & Hin & H). exists reserved. split; [assumption|].
      apply orb_true_iff. destruct H as [->|(value & ->)].
      * left. apply String.eqb_refl.
      * right. apply startsWith_prefix. exists value.
        now rewrite SettingsFacts.append_assoc.
  - induction piArgs as [|arg rest IH]; simpl; [constructor|].
    destruct (isReserved arg) eqn:E.
    + exists [], arg, rest. repeat split; [constructor|assumption].
    + destruct (validatePiArgs rest) as [message|].
      * destruct IH as (before & a & after & -> & Hb & Ha & ->).
        exists (arg :: before), a, after. repeat split; try assumption.
        now constructor.
      * now constructor.
Qed.

End PiArgsFacts.

(* ===================================================================== *)
(** * Skills (skills.ts)                                                 *)
(* ===================================================================== *)

Module SkillsFacts.

Import Skills Agents.

(** *** Trimming *)

Definition startsClean (s : string) : Prop :=
  match s with
  | String c _ => JS.isWhiteSpace c = false
  | EmptyString => True
  end.

Lemma trimStart_clean (s : string) : startsClean (JS.trimStart s).
Proof.
  induction s as [|c s IH]; simpl; [exact I|].
  destruct (JS.isWhiteSpace c) eqn:E; [exact IH|exact E].
Qed.

Lemma trimStart_id (s : string) : startsClean s -> JS.trimStart s = s.
Proof. destruct s as [|c s]; simpl; [reflexivity|]. now intros ->. Qed.

Lemma rev_involutive (s : string) : JS.rev (JS.rev s) = s.
Proof.
  induction s as [|c s IH]; simpl; [reflexivity|].
  now rewrite ResolutionFacts.rev_append, IH.
Qed.

Lemma trimStart_snoc (a : string) (c : ascii) :
  JS.isWhiteSpace c = false ->
  JS.trimStart (a ++ String c "") = JS.trimStart a ++ String c "".
Proof.
  intros H. induction a as [|d a IH]; simpl; [now rewrite H|].
  now destruct (JS.isWhiteSpace d).
Qed.

Lemma trimEnd_clean (s : string) : startsClean s -> startsClean (JS.trimEnd s).
Proof.
  unfold JS.trimEnd. destruct s as [|c s]; simpl; [trivial|]. intros Hc.
  rewrite trimStart_snoc by assumption.
  rewrite ResolutionFacts.rev_append. exact Hc.
Qed.

Lemma trim_idempotent (s : string) : JS.trim (JS.trim s) = JS.trim s.
Proof.
  unfold JS.trim.
  rewrite (trimStart_id (JS.trimEnd (JS.trimStart s)))
    by apply trimEnd_clean, trimStart_clean.
  unfold JS.trimEnd at 1. rewrite trimStart_id.
  - apply rev_involutive.
  - unfold JS.trimEnd. rewrite rev_involutive. apply trimStart_clean.
Qed.

(** *** Removing duplicates *)

Lemma existsb_eqb_elem (a : string) (seen : list string) :
  existsb (String.eqb a) seen = true <-> a ∈ seen.
Proof.
  rewrite existsb_exists. split.
  - intros (x & Hin & E). apply String.eqb_eq in E. subst x.
    now apply list_elem_of_In.
  - intros H. exists a. split; [now apply list_elem_of_In|].
    apply String.eqb_refl.
Qed.

Lemma dedupeFrom_spec (l : list string) :
  forall seen : list string,
    NoDup (dedupeFrom seen l) /\
    forall x, x ∈ dedupeFrom seen l <-> x ∈ l /\ x ∉ seen.
Proof.
  induction l as [|a l IH]; intros seen; simpl.
  - split; [constructor|]. intros x. split.
    + intros H. now apply elem_of_nil in H.
    + intros [H _]. now apply elem_of_nil in H.
  - destruct (existsb (String.eqb a) seen) eqn:E.
    + apply existsb_eqb_elem in E. destruct (IH seen) as [Hn Hx].
      split; [assumption|]. intros x. rewrite Hx. split.
      * intros [H1 H2]. split; [apply elem_of_cons; now right|assumption].
      * intros [H1 H2]. split; [|assumption].
        apply elem_of_cons in H1 as [->|H1]; [contradiction|assumption].
    + assert (a ∉ seen) as Ha.
      { intros H. apply existsb_eqb_elem in H. congruence. }
      destruct (IH (a :: seen)) as [Hn Hx]. split.
      * apply NoDup_cons. split; [|assumption].
        intros H. apply Hx in H as [_ H]. apply H. apply elem_of_cons.
        now left.
      * intros x. rewrite elem_of_cons, Hx. split.
        -- intros [->|[H1 H2]].
           ++ split; [apply elem_of_cons; now left|assumption].
           ++ split; [apply elem_of_cons; now right|].
              intros H. apply H2. apply elem_of_cons. now right.
        -- intros [H1 H2]. destruct (String.string_dec x a) as [->|Hne];
             [now left|right].
           apply elem_of_cons in H1 as [->|H1]; [contradiction|].
           split; [assumption|]. intros H.
           apply elem_of_cons in H as [->|H]; contradiction.
Qed.

Lemma dedupeFrom_id (l : list string) :
  forall seen : list string,
    NoDup l -> (forall x, x ∈ l -> x ∉ seen) -> dedupeFrom seen l = l.
Proof.
  induction l as [|a l IH]; intros seen Hn Hs; simpl; [reflexivity|].
  apply NoDup_cons in Hn as [Ha Hn].
  destruct (existsb (String.eqb a) seen) eqn:E.
  - apply existsb_eqb_elem in E. exfalso.
    apply (Hs a); [apply elem_of_cons; now left|assumption].
  - f_equal. apply IH; [assumption|]. intros x Hx H.
    apply elem_of_cons in H as [->|H]; [contradiction|].
    apply (Hs x); [apply elem_of_cons; now right|assumption].
Qed.

Lemma filter_all (l : list string) :
  Forall (fun s => JS.truthy s = true) l -> List.filter JS.truthy l = l.
Proof.
  induction 1 as [|s l Hs _ IH]; simpl; [reflexivity|].
  now rewrite Hs, IH.
Qed.

Lemma map_fixed (l : list string) :
  Forall (fun s => JS.trim s = s) l -> map JS.trim l = l.
Proof.
  induction 1 as [|s l Hs _ IH]; simpl; [reflexivity|].
  now rewrite Hs, IH.
Qed.

Lemma cleanNames_spec (raw : list string) :
  NoDup (cleanNames raw) /\
  forall x,
    x ∈ cleanNames raw <-> exists y, y ∈ raw /\ x = JS.trim y /\ x <> "".
Proof.
  unfold cleanNames, dedupe.
  destruct (dedupeFrom_spec (List.filter JS.truthy (map JS.trim raw)) [])
    as [Hn Hx].
  split; [assumption|]. intros x. rewrite Hx. split.
  - intros [H _]. apply list_elem_of_In in H.
    apply filter_In in H as [H Ht]. apply in_map_iff in H as (y & <- & Hy).
    exists y. split; [now apply list_elem_of_In|]. split; [reflexivity|].
    intros E. rewrite E in Ht. discriminate.
  - intros (y & Hy & -> & Hne). split.
    + apply list_elem_of_In. apply filter_In. split.
      * apply in_map. now apply list_elem_of_In.
      * destruct (JS.trim y); [contradiction|reflexivity].
    + intros H. now apply elem_of_nil in H.
Qed.

(** X27.  The skill names [normalizeSkillInput] gives for an array, or for
    a comma-separated string, are the trimmed, non-empty entries: each of
    them once, none of them empty or with white space around it; and
    normalizing the result again changes nothing. *)
Theorem normalizeSkillInput_clean :
  forall (input : SkillInput) (raw : list string),
    input = InputArray raw
    \/ (exists s, input = InputString s /\ raw = JS.split "," s) ->
    exists l,
      normalizeSkillInput input = SkillsList l /\
      NoDup l /\
      Forall (fun s => s <> "" /\ JS.trim s = s) l /\
      (forall x, x ∈ l <-> exists y, y ∈ raw /\ x = JS.trim y /\ x <> "") /\
      normalizeSkillInput (InputArray l) = SkillsList l.
Proof.
  intros input raw Hin. exists (cleanNames raw).
  destruct (cleanNames_spec raw) as [Hn Hx].
  assert (Forall (fun s => s <> "" /\ JS.trim s = s) (cleanNames raw)) as Hc.
  { apply Forall_forall. intros x H. apply Hx in H as (y & _ & -> & Hne).
    split; [assumption|apply trim_idempotent]. }
  split; [destruct Hin as [->|(s & -> & ->)]; reflexivity|].
  split; [assumption|]. split; [assumption|]. split; [assumption|].
  simpl. f_equal. unfold cleanNames at 1.
  rewrite map_fixed, filter_all.
  - apply dedupeFrom_id; [assumption|].
    intros x _ H. now apply elem_of_nil in H.
  - eapply Forall_impl; [exact Hc|]. intros s [Hne _].
    destruct s; [contradiction|reflexivity].
  - eapply Forall_impl; [exact Hc|]. now intros s [_ H].
Qed.

Lemma normalizeSkillInput_clean_witness :
  exists l,
    normalizeSkillInput (InputString " review, test ,,review") = SkillsList l
    /\ NoDup l /\
    Forall (fun s => s <> "" /\ JS.trim s = s) l /\
    (forall x,
        x ∈ l <->
        exists y, y ∈ JS.split "," " review, test ,,review" /\
                  x = JS.trim y /\ x <> "") /\
    normalizeSkillInput (InputArray l) = SkillsList l.
Proof.
  apply (normalizeSkillInput_clean (InputString " review, test ,,review")).
  right. eexists. split; reflexivity.
Defined.

(** *** The skill cache *)

Section Cache.

Context {Stamp : Type} `{EqDecision Stamp}.

(** One call of [readSkill], with the file system as it is then. *)
Record Read : Type := mkRead {
  readStat : string -> option Stamp;
  readFile : string -> option string;
  readName : string;
  readPath : string;
  readSource : string
}.

(** The cache after a sequence of calls. *)
Definition afterReads (cache : @SkillCache Stamp) (reads : list Read)
  : @SkillCache Stamp :=
  fold_left
    (fun c r =>
       snd (readSkill (readStat r) (readFile r) (readName r) (readPath r)
              (readSource r) c))
    reads cache.

Definition bounded (cache : @SkillCache Stamp) : Prop :=
  length cache <= MAX_CACHE_SIZE /\
  Forall (fun kv => JS.truthy (fst kv) = true) cache.

Lemma mapSet_length {V} (m : list (string * V)) (k : string) (v : V) :
  length (mapSet m k v)
  = match mapGet m k with
    | Some _ => length m
    | None => S (length m)
    end.
Proof.
  induction m as [|[k0 v0] m IH]; simpl; [reflexivity|].
  destruct (String.eqb k0 k); simpl; [reflexivity|].
  rewrite IH. now destruct (mapGet m k).
Qed.

Lemma mapSet_absent {V} (m : list (string * V)) (k : string) (v : V) :
  mapGet m k = None -> mapSet m k v = (m ++ [(k, v)])%list.
Proof.
  induction m as [|[k0 v0] m IH]; simpl; [reflexivity|].
  destruct (String.eqb k0 k); [discriminate|]. intros H. now rewrite IH.
Qed.

Lemma evict_bounded (cache : @SkillCache Stamp) :
  length cache <= S MAX_CACHE_SIZE ->
  Forall (fun kv => JS.truthy (fst kv) = true) cache ->
  bounded (evict cache).
Proof.
  intros Hl Hk. unfold evict.
  destruct (Nat.ltb MAX_CACHE_SIZE (length cache)) eqn:E.
  - destruct cache as [|[k v] rest]; [split; [simpl; lia|constructor]|].
    apply Forall_cons in Hk as [Hk Hrest]. simpl in Hk. rewrite Hk.
    split; [simpl in Hl; lia|assumption].
  - apply Nat.ltb_ge in E. split; assumption.
Qed.

Lemma readSkill_bounded (stat : string -> option Stamp)
    (read : string -> option string) (name path src : string)
    (cache : @SkillCache Stamp) :
  stat "" = None -> bounded cache ->
  bounded (snd (readSkill stat read name path src cache)).
Proof.
  intros Hempty [Hl Hk]. unfold readSkill.
  destruct (stat path) as [mtime|] eqn:Hs; [|split; assumption].
  assert (bounded
            (snd match read path with
                 | Some raw =>
                     (Some (mkSkill name path (stripSkillFrontmatter raw) src),
                      evict
                        (mapSet cache path
                           (mtime,
                            mkSkill name path (stripSkillFrontmatter raw)
                              src)))
                 | None => (None, cache)
                 end)) as Hfresh.
  { destruct (read path) as [raw|]; [|split; assumption]. simpl.
    apply evict_bounded.
    - rewrite mapSet_length. destruct (mapGet cache path); lia.
    - apply Forall_forall. intros e He.
      apply AgentsFacts.mapSet_elem in He as [->|He].
      + simpl. destruct path; [congruence|reflexivity].
      + rewrite Forall_forall in Hk. now apply Hk. }
  destruct (mapGet cache path) as [[cachedTime cachedSkill]|];
    [|exact Hfresh].
  destruct (bool_decide (cachedTime = mtime)); [split; assumption|].
  exact Hfresh.
Qed.

(** X28.  The skill cache never holds more than [MAX_CACHE_SIZE] entries:
    after any sequence of [readSkill] calls on an empty cache, in file
    systems in which the empty path names no file, it has at most 50. *)
Theorem skill_cache_bounded :
  forall reads : list Read,
    Forall (fun r => readStat r "" = None) reads ->
    length (afterReads [] reads) <= MAX_CACHE_SIZE.
Proof.
  intros reads Hreads.
  assert (forall cache, bounded cache -> bounded (afterReads cache reads))
    as Hall.
  { induction Hreads as [|r reads Hr _ IH]; intros cache Hc; [exact Hc|].
    simpl. apply IH. now apply readSkill_bounded. }
  apply Hall. split; [simpl; lia|constructor].
Qed.

Lemma mapGet_app_absent {V} (m : list (string * V)) (k : string) (v : V) :
  mapGet m k = None -> mapGet (m ++ [(k, v)]) k = Some v.
Proof.
  induction m as [|[k0 v0] m IH]; simpl.
  - now rewrite String.eqb_refl.
  - destruct (String.eqb k0 k); [discriminate|exact IH].
Qed.

Lemma evict_keeps_new (cache : @SkillCache Stamp) (path : string)
    (v : Stamp * ResolvedSkill) :
  length cache <= MAX_CACHE_SIZE ->
  mapGet (evict (mapSet cache path v)) path = Some v.
Proof.
  intros Hl. destruct (mapGet cache path) as [old|] eqn:Hg.
  - assert (evict (mapSet cache path v) = mapSet cache path v) as ->.
    { unfold evict. rewrite mapSet_length, Hg.
      now rewrite (proj2 (Nat.ltb_ge _ _) Hl). }
    now rewrite AgentsFacts.mapGet_mapSet, String.eqb_refl.
  - rewrite (mapSet_absent _ _ _ Hg). unfold evict.
    destruct (Nat.ltb MAX_CACHE_SIZE (length (cache ++ [(path, v)])))
      eqn:Hfull; [|now apply mapGet_app_absent].
    destruct cache as [|[k0 v0] rest]; [discriminate Hfull|].
    simpl in Hg. destruct (String.eqb k0 path) eqn:E; [discriminate|].
    cbn [app]. cbv beta iota. destruct (JS.truthy k0) eqn:Hk.
    + now apply mapGet_app_absent.
    + cbn [mapGet]. rewrite E. now apply mapGet_app_absent.
Qed.

(** X29.  A skill that [readSkill] has returned is returned again, and the
    cache is left as it is, as long as the modification time of the file
    stays the same: under whatever name and source the skill is asked for
    then, it comes back with the name and source of the first read. *)
Theorem cached_skill_returned_again :
  forall (stat : string -> option Stamp) (read read' : string -> option string)
         (name name' path src src' : string)
         (cache cache1 : @SkillCache Stamp) (skill : ResolvedSkill),
    length cache <= MAX_CACHE_SIZE ->
    readSkill stat read name path src cache = (Some skill, cache1) ->
    readSkill stat read' name' path src' cache1 = (Some skill, cache1).
Proof.
  intros stat read read' name name' path src src' cache cache1 skill Hl.
  unfold readSkill.
  destruct (stat path) as [mtime|]; [|discriminate].
  assert (forall c : @SkillCache Stamp,
             mapGet c path = Some (mtime, skill) ->
             match mapGet c path with
             | Some (cachedTime, cachedSkill) =>
                 if bool_decide (cachedTime = mtime)
                 then (Some cachedSkill, c)
                 else
                   match read' path with
                   | Some raw =>
                       (Some (mkSkill name' path (stripSkillFrontmatter raw)
                                src'),
                        evict
                          (mapSet c path
                             (mtime,
                              mkSkill name' path (stripSkillFrontmatter raw)
                                src')))
                   | None => (None, c)
                   end
             | None =>
                 match read' path with
                 | Some raw =>
                     (Some (mkSkill name' path (stripSkillFrontmatter raw)
                              src'),
                      evict
                        (mapSet c path
                           (mtime,
                            mkSkill name' path (stripSkillFrontmatter raw)
                              src')))
                 | None => (None, c)
                 end
             end = (Some skill, c)) as Hhit.
  { intros c ->. now rewrite bool_decide_eq_true_2. }
  assert (match read path with
          | Some raw =>
              (Some (mkSkill name path (stripSkillFrontmatter raw) src),
               evict
                 (mapSet cache path
                    (mtime,
                     mkSkill name path (stripSkillFrontmatter raw) src)))
          | None => (None, cache)
          end = (Some skill, cache1) ->
          mapGet cache1 path = Some (mtime, skill)) as Hfresh.
  { destruct (read path) as [raw|]; [|discriminate].
    intros H. injection H as <- <-. now apply evict_keeps_new. }
  destruct (mapGet cache path) as [[cachedTime cachedSkill]|] eqn:Hg.
  - destruct (bool_decide (cachedTime = mtime)) eqn:Hd.
    + intros H. injection H as <- <-. apply bool_decide_eq_true_1 in Hd.
      subst cachedTime. now apply Hhit.
    + intros H. apply Hhit. now apply Hfresh.
  - intros H. apply Hhit. now apply Hfresh.
Qed.

End Cache.

Lemma skill_cache_bounded_witness :
  length
    (afterReads []
       [mkRead (fun p => if String.eqb p "/skills/review.md"
                         then Some 7 else None)
          (fun _ => Some "Review the change.") "review"
          "/skills/review.md" "project"])
  <= MAX_CACHE_SIZE.
Proof.
  apply (skill_cache_bounded
           [mkRead (fun p => if String.eqb p "/skills/review.md"
                             then Some 7 else None)
              (fun _ => Some "Review the change.") "review"
              "/skills/review.md" "project"]).
  repeat constructor.
Defined.

Lemma cached_skill_returned_again_witness :
  readSkill
    (fun p => if String.eqb p "/skills/review.md" then Some 7 else None)
    (fun _ => None) "audit" "/skills/review.md" "user"
    [("/skills/review.md",
      (7, mkSkill "review" "/skills/review.md" "Review the change."
            "project"))]
  = (Some (mkSkill "review" "/skills/review.md" "Review the change."
             "project"),
     [("/skills/review.md",
       (7, mkSkill "review" "/skills/review.md" "Review the change."
             "project"))]).
Proof.
  apply (cached_skill_returned_again
           (fun p => if String.eqb p "/skills/review.md" then Some 7
                     else None)
           (fun _ => Some "Review the change.") (fun _ => None)
           "review" "audit" "/skills/review.md" "project" "user" []).
  - simpl. unfold MAX_CACHE_SIZE. lia.
  - reflexivity.
Defined.

End SkillsFacts.
